(** * calculator.cpp: lexer, Pratt parser and tree-walking evaluator

    A shallow embedding of [src/calculator.cpp].  Each C++ struct is a
    module of the same name; member functions keep their names (including
    the source's spelling [parse_statment] / [eval_statment]).

    Conventions of the embedding
    - [int] is a [Z] kept in the 32-bit two's-complement range by [wrap];
      [+ - *] and unary [-] wrap around: signed overflow, formally
      undefined, is given the result of the target's native arithmetic.
      Division by zero and a quotient out of range are undefined.
    - The operands of a binary operator are evaluated left then right.  The
      language leaves the order open; evaluation only ever adds bindings to
      0, so what a returning evaluation yields does not depend on it
      ([operand_order_irrelevant]).
    - A [AstNode *] is the type [Expression]: either [nullptr] or a node
      built by one of the four factory functions of [AstNode].
    - Member functions that mutate [*this] are state transformers in the
      monad [M S] below, whose result is an [outcome]: the call returned a
      value, or it hit undefined behaviour (null dereference, integer
      division fault, read of an inactive union member).  The source has
      no exceptions and no error values, so [outcome] has no constructor
      for a reported error.
    - The mutually recursive parsing functions take a [fuel] bound;
      [parse_total] shows that the bound used by [parse_statment] is never
      exhausted.  Indices into the input are [nat]: [cur] never passes
      the length of the line ([positions_bounded]). *)

From Stdlib Require Import ZArith Ascii String Lia.
From stdpp Require Import base option strings gmap.

Local Open Scope Z_scope.

(** ** Native [int] arithmetic *)

Definition INT_MIN : Z := - 2 ^ 31.
Definition INT_MAX : Z := 2 ^ 31 - 1.

Definition wrap (z : Z) : Z := (z + 2 ^ 31) mod 2 ^ 32 - 2 ^ 31.

Definition int_add (a b : Z) : Z := wrap (a + b).
Definition int_sub (a b : Z) : Z := wrap (a - b).
Definition int_mul (a b : Z) : Z := wrap (a * b).
Definition int_neg (a : Z) : Z := wrap (- a).

Definition in_int (z : Z) : Prop := INT_MIN <= z <= INT_MAX.

(** ** Outcomes and the state monad of member functions *)

Inductive undefined : Set :=
| NullDereference    (* [node->type] with [node == nullptr] *)
| ZeroDivisor        (* [a / 0] or [a % 0]: no check in the source *)
| QuotientOverflow   (* [INT_MIN / -1], [INT_MIN % -1] *)
| InactiveMember.    (* read of a union member that is not the active one *)

Inductive outcome (A : Type) : Type :=
| Done (a : A)
| Undefined (u : undefined)
| OutOfFuel.

Arguments Done {A} a.
Arguments Undefined {A} u.
Arguments OutOfFuel {A}.

Definition M (S A : Type) : Type := S -> outcome A * S.

Definition ret {S A} (a : A) : M S A := fun s => (Done a, s).

Definition bind {S A B} (m : M S A) (k : A -> M S B) : M S B :=
  fun s =>
    match m s with
    | (Done a, s') => k a s'
    | (Undefined u, s') => (Undefined u, s')
    | (OutOfFuel, s') => (OutOfFuel, s')
    end.

Definition undef {S A} (u : undefined) : M S A := fun s => (Undefined u, s).
Definition out_of_fuel {S A} : M S A := fun s => (OutOfFuel, s).
Definition get_state {S} : M S S := fun s => (Done s, s).
Definition modify {S} (f : S -> S) : M S unit := fun s => (Done tt, f s).

(** Reading the member of a union: defined only when it is the active one. *)
Definition active {S A} (member : option A) : M S A :=
  match member with
  | Some a => ret a
  | None => undef InactiveMember
  end.

Declare Scope cpp_scope.
Delimit Scope cpp_scope with cpp.
Notation "'let*' x ':=' c1 'in' c2" := (bind c1 (fun x => c2))
  (at level 10, x name, c1 at level 100, c2 at level 200) : cpp_scope.
Notation "c1 ;; c2" := (bind c1 (fun _ => c2))
  (at level 100, c2 at level 200, right associativity) : cpp_scope.
Local Open Scope cpp_scope.

(** ** struct Token *)

Module Token.

Inductive Type_ : Set := Oper | Num | Eof | Ident | Assign.

(** The enumerators of [Op] are the seven operator characters. *)
Inductive Op : Set :=
| Plus | Minus | Asterisk | Slash | Percent | Lbrace | Rbrace.

(** A token is its tag together with the union member the constructor
    initialised; the factory functions [eof], [oper], [number],
    [identifier], [assign] are the constructors. *)
Inductive t : Set :=
| eof
| oper (op : Op)
| number (num : Z)
| identifier (ident : string)
| assign.

Definition type (tok : t) : Type_ :=
  match tok with
  | eof => Eof
  | oper _ => Oper
  | number _ => Num
  | identifier _ => Ident
  | assign => Assign
  end.

(** The three union members. *)
Definition op (tok : t) : option Op :=
  match tok with oper o => Some o | _ => None end.
Definition num (tok : t) : option Z :=
  match tok with number n => Some n | _ => None end.
Definition ident (tok : t) : option string :=
  match tok with identifier s => Some s | _ => None end.

Definition not_eof (tok : t) : bool :=
  match type tok with Eof => false | _ => true end.

(** [static_cast<Op>(ch)] on the characters of the first case label of
    [Lexer::next_token]. *)
Definition Op_of_char (c : ascii) : option Op :=
  match c with
  | "+" => Some Plus
  | "-" => Some Minus
  | "*" => Some Asterisk
  | "/" => Some Slash
  | "%" => Some Percent
  | "(" => Some Lbrace
  | ")" => Some Rbrace
  | _ => None
  end%char.

End Token.

(** ** struct Lexer *)

Module Lexer.

Record t : Set := mk {
  input : string;
  cur : nat;     (* index of the current character *)
  next : nat;    (* index of the following character *)
  ch : ascii     (* the current character *)
}.

Definition NUL : ascii := "000"%char.

Definition is_digit (c : ascii) : bool :=
  ((48 <=? nat_of_ascii c) && (nat_of_ascii c <=? 57))%nat.

Definition is_letter (c : ascii) : bool :=
  (((97 <=? nat_of_ascii c) && (nat_of_ascii c <=? 122))
   || ((65 <=? nat_of_ascii c) && (nat_of_ascii c <=? 90))
   || Ascii.eqb c "_")%nat.

Definition read_char (l : t) : t :=
  {| input := input l;
     ch := if (String.length (input l) <=? next l)%nat then NUL
           else match String.get (next l) (input l) with
                | Some c => c
                | None => NUL
                end;
     cur := next l;
     next := S (next l) |}.

Definition peek (l : t) : ascii :=
  if (String.length (input l) <=? next l)%nat then NUL
  else match String.get (next l) (input l) with
       | Some c => c
       | None => NUL
       end.

(** [Lexer(string_view input)] *)
Definition new (input : string) : t :=
  read_char {| input := input; cur := 0; next := 0; ch := NUL |}.

(** The three [while] loops advance by one character per iteration; they
    are bounded by the length of the input ([skipspace_stops],
    [read_number_stops], [read_identifier_stops]). *)
Fixpoint skipspace_loop (fuel : nat) (l : t) : t :=
  match fuel with
  | O => l
  | S fuel =>
      if Ascii.eqb (ch l) " " then skipspace_loop fuel (read_char l) else l
  end.

Definition skipspace (l : t) : t := skipspace_loop (String.length (input l)) l.

Definition digit_value (c : ascii) : Z := Z.of_nat (nat_of_ascii c) - 48.

Fixpoint read_number_loop (fuel : nat) (num : Z) (l : t) : Z * t :=
  match fuel with
  | O => (num, l)
  | S fuel =>
      if is_digit (ch l)
      then read_number_loop fuel
             (int_add (int_mul num 10) (digit_value (ch l))) (read_char l)
      else (num, l)
  end.

Definition read_number (l : t) : Z * t :=
  read_number_loop (String.length (input l)) 0 l.

Fixpoint read_identifier_loop (fuel : nat) (l : t) : t :=
  match fuel with
  | O => l
  | S fuel =>
      if is_letter (ch l) then read_identifier_loop fuel (read_char l) else l
  end.

Definition read_identifier (l : t) : string * t :=
  let start := cur l in
  let l' := read_identifier_loop (String.length (input l)) l in
  (String.substring start (cur l' - start) (input l'), l').

Definition next_token (l : t) : Token.t * t :=
  let l := skipspace l in
  match Token.Op_of_char (ch l) with
  | Some op => (Token.oper op, read_char l)
  | None =>
      if Ascii.eqb (ch l) "=" then (Token.assign, read_char l)
      else if Ascii.eqb (ch l) NUL then (Token.eof, l)
      else if is_digit (ch l) then
        let (num, l') := read_number l in (Token.number num, l')
      else if is_letter (ch l) then
        let (ident, l') := read_identifier l in (Token.identifier ident, l')
      else (Token.eof, l)
  end.

(** The lexer after [n] calls of [next_token]. *)
Fixpoint after (n : nat) (l : t) : t :=
  match n with
  | O => l
  | S n => after n (snd (next_token l))
  end.

(** The tokens returned by the first [n] calls. *)
Fixpoint tokens (n : nat) (l : t) : list Token.t :=
  match n with
  | O => nil
  | S n => fst (next_token l) :: tokens n (snd (next_token l))
  end.

End Lexer.

(** ** struct AstNode *)

Module AstNode.

Inductive BinaryOp : Set := Add | Sub | Prod | Div | Mod.

(** [AstNode *]: the null pointer, or a node made by one of the factory
    functions [integer], [expression], [negative], [identifier]. *)
Inductive Expression : Set :=
| nullptr
| integer (num : Z)
| expression (op : BinaryOp) (left right : Expression)
| negative (child : Expression)
| identifier (ident : string).

End AstNode.

Abbreviation Expression := AstNode.Expression.
Abbreviation nullptr := AstNode.nullptr.

(** ** struct Statement *)

Module Statement.

Inductive t : Set :=
| expression (expr : Expression)
| assignment (lhs : string) (rhs : Expression).

End Statement.

(** ** struct Parser *)

Module Parser.

Record t : Set := mk {
  lexer : Lexer.t;
  cur : Token.t;
  next : Token.t
}.

(** [Parser(string_view input)] *)
Definition new (input : string) : t :=
  let (c, l) := Lexer.next_token (Lexer.new input) in
  let (n, l) := Lexer.next_token l in
  {| lexer := l; cur := c; next := n |}.

Definition Precedence : Set := Z.
Definition LOWEST : Precedence := 0.
Definition ADD_SUB : Precedence := 1.
Definition PROD_DIV_MOD : Precedence := 2.
Definition PREFIX : Precedence := 3.

Definition precedence (tok : Token.t) : Precedence :=
  match tok with
  | Token.oper op =>
      match op with
      | Token.Plus | Token.Minus => ADD_SUB
      | Token.Asterisk | Token.Slash | Token.Percent => PROD_DIV_MOD
      | _ => LOWEST
      end
  | _ => LOWEST
  end.

Definition advance (p : t) : t :=
  let (tok, l) := Lexer.next_token (lexer p) in
  {| lexer := l; cur := next p; next := tok |}.

Definition read_token : M t unit := modify advance.

Definition cur_precedence : M t Precedence :=
  let* p := get_state in ret (precedence (cur p)).
Definition next_precedence : M t Precedence :=
  let* p := get_state in ret (precedence (next p)).

Definition parse_integer_literal : M t Expression :=
  let* p := get_state in
  let* num := active (Token.num (cur p)) in
  ret (AstNode.integer num).

Definition parse_identifier : M t Expression :=
  let* p := get_state in
  let* ident := active (Token.ident (cur p)) in
  ret (AstNode.identifier ident).

Section Recursion.

(** The recursive calls of [parse_expression]. *)
Variable parse_expression : Precedence -> M t Expression.

Definition parse_prefix_expression : M t Expression :=
  let* p := get_state in
  let* op := active (Token.op (cur p)) in
  read_token ;;
  match op with
  | Token.Plus => parse_expression PREFIX
  | Token.Minus =>
      let* child := parse_expression PREFIX in
      ret (AstNode.negative child)
  | _ => ret nullptr
  end.

Definition parse_grouped_expression : M t Expression :=
  read_token ;;
  let* expr := parse_expression LOWEST in
  let* p := get_state in
  match Token.type (next p) with
  | Token.Oper =>
      let* op := active (Token.op (next p)) in
      match op with
      | Token.Rbrace => read_token ;; ret expr
      | _ => ret nullptr
      end
  | _ => ret nullptr
  end.

Definition parse_infix_expression (left : Expression) : M t Expression :=
  let* p := get_state in
  let* tok_op := active (Token.op (cur p)) in
  let op :=
    match tok_op with
    | Token.Plus => Some AstNode.Add
    | Token.Minus => Some AstNode.Sub
    | Token.Asterisk => Some AstNode.Prod
    | Token.Slash => Some AstNode.Div
    | Token.Percent => Some AstNode.Mod
    | _ => None
    end in
  match op with
  | None => ret nullptr
  | Some op =>
      let* precedence := cur_precedence in
      read_token ;;
      let* right := parse_expression precedence in
      ret (AstNode.expression op left right)
  end.

(** The [while] loop of [parse_expression]. *)
Fixpoint parse_infix_loop (fuel : nat) (precedence : Precedence)
    (left : Expression) : M t Expression :=
  match fuel with
  | O => out_of_fuel
  | S fuel =>
      let* p := get_state in
      if Token.not_eof (next p) && (precedence <? Parser.precedence (next p))
      then
        read_token ;;
        let* p := get_state in
        let* op := active (Token.op (cur p)) in
        match op with
        | Token.Plus | Token.Minus
        | Token.Asterisk | Token.Slash | Token.Percent =>
            let* left := parse_infix_expression left in
            parse_infix_loop fuel precedence left
        | _ => ret nullptr
        end
      else ret left
  end.

Definition parse_expression_body (fuel : nat) (precedence : Precedence)
    : M t Expression :=
  let continue (prefix : M t Expression) : M t Expression :=
    let* left := prefix in parse_infix_loop fuel precedence left in
  let* p := get_state in
  match Token.type (cur p) with
  | Token.Oper =>
      let* op := active (Token.op (cur p)) in
      match op with
      | Token.Plus | Token.Minus => continue parse_prefix_expression
      | Token.Lbrace => continue parse_grouped_expression
      | _ => ret nullptr
      end
  | Token.Ident => continue parse_identifier
  | Token.Num => continue parse_integer_literal
  | _ => ret nullptr
  end.

End Recursion.

Fixpoint parse_expression (fuel : nat) (precedence : Precedence)
    : M t Expression :=
  match fuel with
  | O => out_of_fuel
  | S fuel' =>
      parse_expression_body (parse_expression fuel') fuel precedence
  end.

(** Every recursive call and every loop iteration comes after a token has
    been consumed; three steps per input character are enough. *)
Definition budget (p : t) : nat :=
  S (3 * S (S (String.length (Lexer.input (lexer p))))).

Definition parse_statment : M t Statement.t :=
  let* p := get_state in
  match Token.type (next p) with
  | Token.Assign =>
      let* ident := active (Token.ident (cur p)) in
      read_token ;;
      read_token ;;
      let* expr := parse_expression (budget p) LOWEST in
      ret (Statement.assignment ident expr)
  | _ =>
      let* expr := parse_expression (budget p) LOWEST in
      ret (Statement.expression expr)
  end.

End Parser.

(** ** struct Evaluator *)

Module Evaluator.

(** [typedef std::unordered_map<string, int> Context] *)
Abbreviation Context := (gmap string Z).

Definition vars : M Context Context := get_state.
Definition set_var (ident : string) (value : Z) : M Context unit :=
  modify <[ident := value]>.
Definition clear_var (ident : string) : M Context unit :=
  modify (delete ident).
Definition clear_vars : M Context unit := modify (fun _ => ∅).

(** [get_var]: [ctx.at(ident)] leaves the environment as it is and throws
    [std::out_of_range] for a name that is not bound ([None]). *)
Definition get_var (ident : string) (ctx : Context) : option Z := ctx !! ident.

(** [ctx[ident]]: [operator[]] value-initialises a missing entry. *)
Definition subscript (ident : string) : M Context Z :=
  fun ctx =>
    match ctx !! ident with
    | Some value => (Done value, ctx)
    | None => (Done 0, <[ident := 0]> ctx)
    end.

(** Built-in [/] and [%] on [int]: truncation toward zero; the
    behaviour is undefined for a zero divisor and when the quotient is
    not representable. *)
Definition int_div (a b : Z) : M Context Z :=
  if b =? 0 then undef ZeroDivisor
  else if (a =? INT_MIN) && (b =? -1) then undef QuotientOverflow
  else ret (Z.quot a b).

Definition int_rem (a b : Z) : M Context Z :=
  if b =? 0 then undef ZeroDivisor
  else if (a =? INT_MIN) && (b =? -1) then undef QuotientOverflow
  else ret (Z.rem a b).

Section Recursion.

(** The recursive calls of [eval_expression]. *)
Variable eval_expression : Expression -> M Context Z.

Definition eval_binary (op : AstNode.BinaryOp) (left right : Expression)
    : M Context Z :=
  match op with
  | AstNode.Add =>
      let* l := eval_expression left in
      let* r := eval_expression right in
      ret (int_add l r)
  | AstNode.Sub =>
      let* l := eval_expression left in
      let* r := eval_expression right in
      ret (int_sub l r)
  | AstNode.Prod =>
      let* l := eval_expression left in
      let* r := eval_expression right in
      ret (int_mul l r)
  | AstNode.Div =>
      let* l := eval_expression left in
      let* r := eval_expression right in
      int_div l r
  | AstNode.Mod =>
      let* l := eval_expression left in
      let* r := eval_expression right in
      int_rem l r
  end.

Definition eval_negative (child : Expression) : M Context Z :=
  let* value := eval_expression child in ret (int_neg value).

End Recursion.

Definition eval_identifier (ident : string) : M Context Z := subscript ident.

Definition eval_literal (num : Z) : M Context Z := ret num.

Fixpoint eval_expression (node : Expression) : M Context Z :=
  match node with
  | nullptr => undef NullDereference
  | AstNode.expression op l r => eval_binary eval_expression op l r
  | AstNode.identifier ident => eval_identifier ident
  | AstNode.integer num => eval_literal num
  | AstNode.negative child => eval_negative eval_expression child
  end.

Definition eval_statment (stmt : Statement.t) : M Context Z :=
  match stmt with
  | Statement.assignment ident expr =>
      let* value := eval_expression expr in
      set_var ident value ;;
      ret value
  | Statement.expression expr => eval_expression expr
  end.

End Evaluator.

(** ** struct Repl *)

Module Repl.

Inductive Reply : Type :=
| Goodbye
| Nothing
| Listing (vars : gmap string Z)
| Result (value : Z).

(** The last branch of [loop]: parse the line, evaluate the statement. *)
Definition evaluate (line : string) : M (gmap string Z) Z :=
  fun ctx =>
    match Parser.parse_statment (Parser.new line) with
    | (Done stmt, _) => Evaluator.eval_statment stmt ctx
    | (Undefined u, _) => (Undefined u, ctx)
    | (OutOfFuel, _) => (OutOfFuel, ctx)
    end.

(** One iteration of the [for (;;)] of [loop] on the line just read. *)
Definition step (line : string) : M (gmap string Z) Reply :=
  if String.eqb line "exit" then ret Goodbye
  else if String.eqb line "clear" then Evaluator.clear_vars ;; ret Nothing
  else if String.eqb line "vars" then
    let* vs := Evaluator.vars in ret (Listing vs)
  else
    let* value := evaluate line in ret (Result value).

(** [loop] on the lines read so far: the replies in order; it returns at
    the line exit, and what follows that line is never read. *)
Fixpoint loop (lines : list string) : M (gmap string Z) (list Reply) :=
  match lines with
  | [] => ret []
  | line :: rest =>
      let* reply := step line in
      match reply with
      | Goodbye => ret [Goodbye]
      | _ => let* replies := loop rest in ret (reply :: replies)
      end
  end.

End Repl.

(** ** Predicates used in the statements *)

(** The character at index [i], [NUL] past the end: what [read_char]
    stores in [ch]. *)
Definition char_at (i : nat) (s : string) : ascii :=
  if (String.length s <=? i)%nat then Lexer.NUL
  else match String.get i s with Some c => c | None => Lexer.NUL end.

(** The lexer invariant between two calls: [ch] is the character at [cur]
    and [next] is one past [cur]. *)
Definition lexer_wf (l : Lexer.t) : Prop :=
  Lexer.next l = S (Lexer.cur l)
  /\ Lexer.ch l = char_at (Lexer.cur l) (Lexer.input l).

(** The characters that start a token other than end-of-input. *)
Definition recognized (c : ascii) : bool :=
  match Token.Op_of_char c with
  | Some _ => true
  | None => Ascii.eqb c "=" || Lexer.is_digit c || Lexer.is_letter c
  end.

(** The number of characters from the current one to the end of the
    line. *)
Definition remaining (l : Lexer.t) : nat :=
  (S (String.length (Lexer.input l)) - Lexer.next l)%nat.

(** [ctx'] has every binding of [ctx], and binds each further name to 0. *)
Definition grows (ctx ctx' : gmap string Z) : Prop :=
  ctx ⊆ ctx'
  /\ forall k v, ctx' !! k = Some v -> ctx !! k = None -> v = 0.

(** The tree has a null pointer somewhere. *)
Fixpoint has_null (e : Expression) : bool :=
  match e with
  | nullptr => true
  | AstNode.integer _ => false
  | AstNode.expression _ l r => has_null l || has_null r
  | AstNode.negative child => has_null child
  | AstNode.identifier _ => false
  end.

(** The tokens that can start a prefix term. *)
Definition starts_prefix (tok : Token.t) : bool :=
  match tok with
  | Token.oper Token.Plus | Token.oper Token.Minus | Token.oper Token.Lbrace
  | Token.identifier _ | Token.number _ => true
  | _ => false
  end.

(** The leaf a number or identifier token stands for. *)
Definition leaf (tok : Token.t) : option Expression :=
  match tok with
  | Token.number num => Some (AstNode.integer num)
  | Token.identifier ident => Some (AstNode.identifier ident)
  | _ => None
  end.

(** The binary operator an operator token stands for in infix position. *)
Definition binary_of (tok : Token.t) : option AstNode.BinaryOp :=
  match tok with
  | Token.oper Token.Plus => Some AstNode.Add
  | Token.oper Token.Minus => Some AstNode.Sub
  | Token.oper Token.Asterisk => Some AstNode.Prod
  | Token.oper Token.Slash => Some AstNode.Div
  | Token.oper Token.Percent => Some AstNode.Mod
  | _ => None
  end.

(** What is left to parse: tokens in the lookahead buffer and characters
    in the lexer.  Every [read_token] on a token other than end-of-input
    makes it smaller. *)
Definition weight (p : Parser.t) : nat :=
  ((if Token.not_eof (Parser.cur p) then 1 else 0)
   + (if Token.not_eof (Parser.next p) then 2 else 0)
   + 3 * remaining (Parser.lexer p))%nat.

(** [m] run from [p] does not run out of fuel, and if it returns, [Q]
    holds of its result and final state. *)
Definition runs {A} (m : M Parser.t A) (p : Parser.t)
    (Q : A -> Parser.t -> Prop) : Prop :=
  match m p with
  | (Done a, p') => Q a p'
  | (Undefined _, _) => True
  | (OutOfFuel, _) => False
  end.

(** The postcondition of the parsing functions started in [p]: the lexer
    invariant holds and nothing has been put back. *)
Definition steady {A} (p : Parser.t) : A -> Parser.t -> Prop :=
  fun _ p' => lexer_wf (Parser.lexer p') /\ (weight p' <= weight p)%nat.

(** The result of a binary operator on two [int]s, as the last step of
    [eval_binary] computes it. *)
Definition apply_op (op : AstNode.BinaryOp) (a b : Z) : outcome Z :=
  match op with
  | AstNode.Add => Done (int_add a b)
  | AstNode.Sub => Done (int_sub a b)
  | AstNode.Prod => Done (int_mul a b)
  | AstNode.Div => fst (Evaluator.int_div a b ∅)
  | AstNode.Mod => fst (Evaluator.int_rem a b ∅)
  end.

(** The value of a tree in an environment that is only read, an unbound
    name counting for 0. *)
Fixpoint value (e : Expression) (ctx : gmap string Z) : outcome Z :=
  match e with
  | nullptr => Undefined NullDereference
  | AstNode.integer num => Done num
  | AstNode.identifier ident => Done (default 0 (ctx !! ident))
  | AstNode.negative child =>
      match value child ctx with
      | Done v => Done (int_neg v)
      | o => o
      end
  | AstNode.expression op l r =>
      match value l ctx with
      | Done a =>
          match value r ctx with
          | Done b => apply_op op a b
          | o => o
          end
      | o => o
      end
  end.

(** The identifiers of a tree. *)
Fixpoint names (e : Expression) : gset string :=
  match e with
  | AstNode.identifier ident => {[ident]}
  | AstNode.negative child => names child
  | AstNode.expression _ l r => names l ∪ names r
  | _ => ∅
  end.

(** The environment with the names of [X] that it does not bind bound
    to 0. *)
Definition materialize (X : gset string) (ctx : gmap string Z)
    : gmap string Z :=
  ctx ∪ gset_to_gmap 0 X.

(** The evaluator with the order of the two operands chosen for each
    operator: the orders the language allows for [eval_binary]. *)
Fixpoint eval_ordered (right_first : AstNode.BinaryOp -> bool)
    (node : Expression) : M (gmap string Z) Z :=
  match node with
  | nullptr => undef NullDereference
  | AstNode.expression op l r =>
      if right_first op then
        let* b := eval_ordered right_first r in
        let* a := eval_ordered right_first l in
        fun ctx => (apply_op op a b, ctx)
      else
        let* a := eval_ordered right_first l in
        let* b := eval_ordered right_first r in
        fun ctx => (apply_op op a b, ctx)
  | AstNode.identifier ident => Evaluator.eval_identifier ident
  | AstNode.integer num => Evaluator.eval_literal num
  | AstNode.negative child =>
      Evaluator.eval_negative (eval_ordered right_first) child
  end.

(** A token whose number, if it is one, is an [int]. *)
Definition tok_ok (tok : Token.t) : Prop :=
  match tok with
  | Token.number num => in_int num
  | _ => True
  end.

(** A tree whose literals are [int]s. *)
Fixpoint tree_ok (e : Expression) : Prop :=
  match e with
  | AstNode.integer num => in_int num
  | AstNode.expression _ l r => tree_ok l /\ tree_ok r
  | AstNode.negative child => tree_ok child
  | _ => True
  end.

Definition stmt_ok (stmt : Statement.t) : Prop :=
  match stmt with
  | Statement.expression expr => tree_ok expr
  | Statement.assignment _ rhs => tree_ok rhs
  end.

(** An environment whose values are [int]s. *)
Definition env_ok (ctx : gmap string Z) : Prop :=
  map_Forall (fun _ v => in_int v) ctx.

(** A parser state between two calls: the lexer invariant holds and the
    two tokens of the lookahead buffer came out of the lexer. *)
Definition parser_ok (p : Parser.t) : Prop :=
  lexer_wf (Parser.lexer p) /\ tok_ok (Parser.cur p) /\ tok_ok (Parser.next p).

(** [m] run from [p] returns, and [Q] holds of its result and final
    state: no fuel exhaustion and no undefined behaviour. *)
Definition returns {A} (m : M Parser.t A) (p : Parser.t)
    (Q : A -> Parser.t -> Prop) : Prop :=
  match m p with
  | (Done a, p') => Q a p'
  | _ => False
  end.

(** The loop of [parse_expression] would stop in [p]: the next token is
    end-of-input or does not bind tighter than [prec]. *)
Definition stops (prec : Parser.Precedence) (p : Parser.t) : Prop :=
  Token.not_eof (Parser.next p) && (prec <? Parser.precedence (Parser.next p))
  = false.

(** The decimal value of a string of digits, most significant first,
    continuing from [acc]. *)
Fixpoint decimal (acc : Z) (s : string) : Z :=
  match s with
  | EmptyString => acc
  | String c s' => decimal (acc * 10 + Lexer.digit_value c) s'
  end.

(** Every character of the string satisfies [f]. *)
Fixpoint string_forall (f : ascii -> bool) (s : string) : bool :=
  match s with
  | EmptyString => true
  | String c s' => f c && string_forall f s'
  end.

(** The tree of [a o1 b1 o2 b2 ...] grouped to the left. *)
Definition left_chain (a : Expression)
    (rest : list (AstNode.BinaryOp * Expression)) : Expression :=
  fold_left (fun acc ob => AstNode.expression (fst ob) acc (snd ob)) rest a.

(** The token of a binary operator, and the token of a leaf. *)
Definition op_token (op : AstNode.BinaryOp) : Token.t :=
  Token.oper
    match op with
    | AstNode.Add => Token.Plus
    | AstNode.Sub => Token.Minus
    | AstNode.Prod => Token.Asterisk
    | AstNode.Div => Token.Slash
    | AstNode.Mod => Token.Percent
    end.

Definition leaf_token (e : Expression) : Token.t :=
  match e with
  | AstNode.integer num => Token.number num
  | AstNode.identifier ident => Token.identifier ident
  | _ => Token.eof
  end.

Definition is_leaf (e : Expression) : Prop := leaf (leaf_token e) = Some e.

(** The tokens of [o1 b1 o2 b2 ...]. *)
Definition chain_tokens (rest : list (AstNode.BinaryOp * Expression))
    : list Token.t :=
  flat_map (fun ob => [op_token (fst ob); leaf_token (snd ob)]) rest.

(** No operator of the chain binds tighter than the one before it. *)
Fixpoint descending (rest : list (AstNode.BinaryOp * Expression)) : Prop :=
  match rest with
  | (o1, _) :: (((o2, _) :: _) as rest') =>
      Parser.precedence (op_token o2) <= Parser.precedence (op_token o1)
      /\ descending rest'
  | _ => True
  end.

(** The tokens in front of the parser: its two buffered tokens, then the
    next [n] of the lexer. *)
Definition upcoming (n : nat) (p : Parser.t) : list Token.t :=
  Parser.cur p :: Parser.next p :: Lexer.tokens n (Parser.lexer p).

(** What the parsing functions guarantee on return from [p]. *)
Definition fine (p : Parser.t) (e : Expression) (p' : Parser.t) : Prop :=
  parser_ok p' /\ (weight p' <= weight p)%nat /\ tree_ok e.

Definition good (prec : Parser.Precedence) (p : Parser.t)
    (e : Expression) (p' : Parser.t) : Prop :=
  fine p e p' /\ (starts_prefix (Parser.cur p) = true -> stops prec p').

(** The evaluation of [e] from [ctx] applies [/] or [%] to a right operand
    that has evaluated to 0; [ctx'] is the environment at that point. *)
Inductive zero_division
    : Expression -> gmap string Z -> gmap string Z -> Prop :=
| zero_division_here op l r a ctx ctx1 ctx2 :
    op = AstNode.Div \/ op = AstNode.Mod ->
    Evaluator.eval_expression l ctx = (Done a, ctx1) ->
    Evaluator.eval_expression r ctx1 = (Done 0, ctx2) ->
    zero_division (AstNode.expression op l r) ctx ctx2
| zero_division_left op l r ctx ctx' :
    zero_division l ctx ctx' ->
    zero_division (AstNode.expression op l r) ctx ctx'
| zero_division_right op l r a ctx ctx1 ctx' :
    Evaluator.eval_expression l ctx = (Done a, ctx1) ->
    zero_division r ctx1 ctx' ->
    zero_division (AstNode.expression op l r) ctx ctx'
| zero_division_negative child ctx ctx' :
    zero_division child ctx ctx' ->
    zero_division (AstNode.negative child) ctx ctx'.

(** The identifiers that the evaluation of [e] from [ctx] reads before it
    returns or faults: [eval_identifier] is called on exactly these. *)
Fixpoint reads (e : Expression) (ctx : gmap string Z) : gset string :=
  match e with
  | AstNode.identifier ident => {[ident]}
  | AstNode.negative child => reads child ctx
  | AstNode.expression _ l r =>
      match Evaluator.eval_expression l ctx with
      | (Done _, ctx1) => reads l ctx ∪ reads r ctx1
      | _ => reads l ctx
      end
  | _ => ∅
  end.

(** The identifiers read by the evaluation of a statement. *)
Definition read_by (stmt : Statement.t) (ctx : gmap string Z) : gset string :=
  match stmt with
  | Statement.expression expr => reads expr ctx
  | Statement.assignment _ rhs => reads rhs ctx
  end.

(** The token that is current after [i] calls of [read_token]: the
    tokens in front of the parser, one by one. *)
Definition stream (p : Parser.t) (i : nat) : Token.t :=
  Parser.cur (Nat.iter i Parser.advance p).

(** [q] has in front of it the [m] tokens that [p] has before its end of
    input, and then, where [p] is at the end of its input, a token that is
    not a binary operator. *)
Definition ahead (m : nat) (p q : Parser.t) : Prop :=
  (forall i, (i < m)%nat -> stream q i = stream p i)
  /\ stream p m = Token.eof
  /\ Parser.precedence (stream q m) = Parser.LOWEST.

(** A statement with no null pointer in its tree. *)
Definition complete (stmt : Statement.t) : Prop :=
  match stmt with
  | Statement.expression expr => has_null expr = false
  | Statement.assignment _ rhs => has_null rhs = false
  end.

(** The parsing function [c], run from [q], returns the tree [e] it
    returns from [p], after as many calls of [read_token], which are fewer
    than [m]; [p'] is the state it returns in from [p]. *)
Definition tracks (m : nat) (p q : Parser.t) (c : M Parser.t Expression)
    (e : Expression) (p' : Parser.t) : Prop :=
  exists k, (k < m)%nat
            /\ p' = Nat.iter k Parser.advance p
            /\ c q = (Done e, Nat.iter k Parser.advance q).

(** [m'] does what [m] does whenever [m] does not run out of fuel. *)
Definition refines {S A} (m m' : M S A) : Prop :=
  forall s r s', m s = (r, s') -> r <> OutOfFuel -> m' s = (r, s').

(** * Lexer *)

Section LexerFacts.

Implicit Types l : Lexer.t.

Lemma read_char_wf l : lexer_wf (Lexer.read_char l).
Proof. split; reflexivity. Qed.

Lemma new_wf input : lexer_wf (Lexer.new input).
Proof. apply read_char_wf. Qed.

Lemma wf_in_range l :
  lexer_wf l -> Lexer.ch l <> Lexer.NUL ->
  (Lexer.cur l < String.length (Lexer.input l))%nat.
Proof.
  intros [_ Hch] Hnz. unfold char_at in Hch.
  destruct (Nat.leb_spec (String.length (Lexer.input l)) (Lexer.cur l));
    [congruence | assumption].
Qed.

Lemma wf_at_end l :
  lexer_wf l -> (String.length (Lexer.input l) <= Lexer.cur l)%nat ->
  Lexer.ch l = Lexer.NUL.
Proof.
  intros [_ Hch] Hend. rewrite Hch. unfold char_at.
  destruct (Nat.leb_spec (String.length (Lexer.input l)) (Lexer.cur l));
    [reflexivity | lia].
Qed.

Lemma space_not_NUL c : Ascii.eqb c " " = true -> c <> Lexer.NUL.
Proof. intros H%Ascii.eqb_eq. subst c. discriminate. Qed.

Lemma digit_not_NUL c : Lexer.is_digit c = true -> c <> Lexer.NUL.
Proof. intros H ->. discriminate. Qed.

Lemma letter_not_NUL c : Lexer.is_letter c = true -> c <> Lexer.NUL.
Proof. intros H ->. discriminate. Qed.

(** A loop of the lexer: [read_char] while [cond (ch l)]. *)
Lemma skipspace_loop_spec fuel : forall l,
  lexer_wf l ->
  (String.length (Lexer.input l) - Lexer.cur l <= fuel)%nat ->
  let l' := Lexer.skipspace_loop fuel l in
  Ascii.eqb (Lexer.ch l') " " = false
  /\ lexer_wf l'
  /\ Lexer.input l' = Lexer.input l
  /\ (Lexer.next l <= Lexer.next l')%nat.
Proof.
  induction fuel as [|fuel IH]; intros l Hwf Hfuel; simpl.
  - repeat split; try apply Hwf; try lia.
    rewrite (wf_at_end l Hwf) by lia. reflexivity.
  - destruct (Ascii.eqb (Lexer.ch l) " ") eqn:Hsp.
    + pose proof (wf_in_range l Hwf (space_not_NUL _ Hsp)) as Hlt.
      destruct (IH (Lexer.read_char l) (read_char_wf l)) as (H1 & H2 & H3 & H4).
      { simpl. destruct Hwf as [Hn _]. rewrite Hn. lia. }
      repeat split; try assumption; try apply H2. simpl in H4. lia.
    + repeat split; try assumption; try apply Hwf; lia.
Qed.

Lemma skipspace_spec l :
  lexer_wf l ->
  Ascii.eqb (Lexer.ch (Lexer.skipspace l)) " " = false
  /\ lexer_wf (Lexer.skipspace l)
  /\ Lexer.input (Lexer.skipspace l) = Lexer.input l
  /\ (Lexer.next l <= Lexer.next (Lexer.skipspace l))%nat.
Proof. intros Hwf. apply skipspace_loop_spec; [assumption | lia]. Qed.

Lemma skipspace_loop_id fuel l :
  Ascii.eqb (Lexer.ch l) " " = false -> Lexer.skipspace_loop fuel l = l.
Proof. intros H. destruct fuel; simpl; [|rewrite H]; reflexivity. Qed.

Lemma skipspace_idem l :
  lexer_wf l -> Lexer.skipspace (Lexer.skipspace l) = Lexer.skipspace l.
Proof.
  intros Hwf. destruct (skipspace_spec l Hwf) as (H & _).
  unfold Lexer.skipspace at 1. apply skipspace_loop_id, H.
Qed.

Lemma read_number_loop_spec fuel : forall num l,
  lexer_wf l ->
  (String.length (Lexer.input l) - Lexer.cur l <= fuel)%nat ->
  let l' := snd (Lexer.read_number_loop fuel num l) in
  Lexer.is_digit (Lexer.ch l') = false
  /\ lexer_wf l'
  /\ Lexer.input l' = Lexer.input l
  /\ (Lexer.next l <= Lexer.next l')%nat
  /\ (Lexer.is_digit (Lexer.ch l) = true -> (Lexer.next l < Lexer.next l')%nat).
Proof.
  induction fuel as [|fuel IH]; intros num l Hwf Hfuel; simpl.
  - rewrite (wf_at_end l Hwf) by lia.
    repeat split; first [reflexivity | apply Hwf | discriminate].
  - destruct (Lexer.is_digit (Lexer.ch l)) eqn:Hd.
    + pose proof (wf_in_range l Hwf (digit_not_NUL _ Hd)) as Hlt.
      destruct (IH (int_add (int_mul num 10) (Lexer.digit_value (Lexer.ch l)))
                  (Lexer.read_char l) (read_char_wf l))
        as (H1 & H2 & H3 & H4 & _).
      { simpl. destruct Hwf as [Hn _]. rewrite Hn. lia. }
      simpl in H4.
      repeat split; try assumption; try apply H2; lia.
    + repeat split; first [assumption | reflexivity | apply Hwf | discriminate].
Qed.

Lemma read_identifier_loop_spec fuel : forall l,
  lexer_wf l ->
  (String.length (Lexer.input l) - Lexer.cur l <= fuel)%nat ->
  let l' := Lexer.read_identifier_loop fuel l in
  Lexer.is_letter (Lexer.ch l') = false
  /\ lexer_wf l'
  /\ Lexer.input l' = Lexer.input l
  /\ (Lexer.next l <= Lexer.next l')%nat
  /\ (Lexer.is_letter (Lexer.ch l) = true -> (Lexer.next l < Lexer.next l')%nat).
Proof.
  induction fuel as [|fuel IH]; intros l Hwf Hfuel; simpl.
  - rewrite (wf_at_end l Hwf) by lia.
    repeat split; first [reflexivity | apply Hwf | discriminate].
  - destruct (Lexer.is_letter (Lexer.ch l)) eqn:Hd.
    + pose proof (wf_in_range l Hwf (letter_not_NUL _ Hd)) as Hlt.
      destruct (IH (Lexer.read_char l) (read_char_wf l))
        as (H1 & H2 & H3 & H4 & _).
      { simpl. destruct Hwf as [Hn _]. rewrite Hn. lia. }
      simpl in H4.
      repeat split; try assumption; try apply H2; lia.
    + repeat split; first [assumption | reflexivity | apply Hwf | discriminate].
Qed.

(** The loops end because their condition is false, not because the
    bound was reached. *)
Lemma skipspace_stops l :
  lexer_wf l -> Lexer.ch (Lexer.skipspace l) <> " "%char.
Proof.
  intros Hwf Heq. destruct (skipspace_spec l Hwf) as (H & _).
  rewrite Heq in H. discriminate.
Qed.

Lemma read_number_stops l :
  lexer_wf l -> Lexer.is_digit (Lexer.ch (snd (Lexer.read_number l))) = false.
Proof. intros Hwf. apply read_number_loop_spec; [assumption | lia]. Qed.

Lemma read_identifier_stops l :
  lexer_wf l ->
  Lexer.is_letter (Lexer.ch (snd (Lexer.read_identifier l))) = false.
Proof.
  intros Hwf. unfold Lexer.read_identifier. simpl.
  apply read_identifier_loop_spec; [assumption | lia].
Qed.

Lemma read_char_remaining l :
  lexer_wf l -> Lexer.ch l <> Lexer.NUL ->
  (remaining (Lexer.read_char l) + 1 <= remaining l)%nat.
Proof.
  intros Hwf Hnz. pose proof (wf_in_range l Hwf Hnz).
  destruct Hwf as [Hn _]. unfold remaining. simpl. lia.
Qed.

Lemma Op_of_char_not_NUL c o : Token.Op_of_char c = Some o -> c <> Lexer.NUL.
Proof. intros H ->. discriminate. Qed.

(** [next_token] keeps the invariant and the input, and a token other
    than end-of-input uses up at least one character. *)
Lemma next_token_spec l :
  lexer_wf l ->
  let tok := fst (Lexer.next_token l) in
  let l' := snd (Lexer.next_token l) in
  lexer_wf l'
  /\ Lexer.input l' = Lexer.input l
  /\ (remaining l' + (if Token.not_eof tok then 1 else 0) <= remaining l)%nat.
Proof.
  intros Hwf. unfold Lexer.next_token.
  destruct (skipspace_spec l Hwf) as (_ & Hwf0 & Hin0 & Hnx0).
  set (l0 := Lexer.skipspace l) in *.
  assert (Hrem0 : (remaining l0 <= remaining l)%nat)
    by (unfold remaining; rewrite Hin0; lia).
  destruct (Token.Op_of_char (Lexer.ch l0)) eqn:Hop; simpl.
  { pose proof (read_char_remaining l0 Hwf0 (Op_of_char_not_NUL _ _ Hop)).
    repeat split; try assumption; lia. }
  destruct (Ascii.eqb (Lexer.ch l0) "=") eqn:Heq; simpl.
  { apply Ascii.eqb_eq in Heq.
    assert (Lexer.ch l0 <> Lexer.NUL) by (rewrite Heq; discriminate).
    pose proof (read_char_remaining l0 Hwf0 ltac:(assumption)).
    repeat split; try assumption; lia. }
  destruct (Ascii.eqb (Lexer.ch l0) Lexer.NUL) eqn:Hnul; simpl.
  { repeat split; try apply Hwf0; try assumption; lia. }
  destruct (Lexer.is_digit (Lexer.ch l0)) eqn:Hd.
  { unfold Lexer.read_number.
    destruct (read_number_loop_spec (String.length (Lexer.input l0)) 0 l0 Hwf0
                ltac:(lia)) as (_ & H2 & H3 & H4 & H5).
    specialize (H5 Hd).
    pose proof (wf_in_range l0 Hwf0 (digit_not_NUL _ Hd)) as Hlt.
    destruct (Lexer.read_number_loop _ 0 l0) as [num l1]; simpl in *.
    repeat split; try apply H2; try congruence.
    destruct Hwf0 as [Hn _]. unfold remaining in *. rewrite H3, <- Hin0. lia. }
  destruct (Lexer.is_letter (Lexer.ch l0)) eqn:Hl.
  { unfold Lexer.read_identifier.
    destruct (read_identifier_loop_spec (String.length (Lexer.input l0)) l0 Hwf0
                ltac:(lia)) as (_ & H2 & H3 & H4 & H5).
    specialize (H5 Hl).
    pose proof (wf_in_range l0 Hwf0 (letter_not_NUL _ Hl)) as Hlt.
    simpl.
    repeat split; try apply H2; try congruence.
    destruct Hwf0 as [Hn _]. unfold remaining in *. rewrite H3, <- Hin0. lia. }
  simpl. repeat split; try apply Hwf0; try assumption; lia.
Qed.

Lemma after_spec n : forall l,
  lexer_wf l ->
  lexer_wf (Lexer.after n l) /\ Lexer.input (Lexer.after n l) = Lexer.input l.
Proof.
  induction n as [|n IH]; intros l Hwf; simpl; [split; [assumption|reflexivity]|].
  destruct (next_token_spec l Hwf) as (H1 & H2 & _).
  destruct (IH _ H1) as [H3 H4]. split; [assumption | congruence].
Qed.

(** The indices stay within the line: [cur] never passes its length, so
    for a line shorter than [INT_MAX] the [int] fields never overflow. *)
Lemma read_char_bounded l :
  lexer_wf l -> Lexer.ch l <> Lexer.NUL ->
  (Lexer.cur (Lexer.read_char l) <= String.length (Lexer.input (Lexer.read_char l)))%nat.
Proof.
  intros Hwf Hnz. pose proof (wf_in_range l Hwf Hnz). destruct Hwf as [Hn _].
  simpl. lia.
Qed.

Lemma skipspace_loop_bounded fuel : forall l,
  lexer_wf l -> (Lexer.cur l <= String.length (Lexer.input l))%nat ->
  let l' := Lexer.skipspace_loop fuel l in
  (Lexer.cur l' <= String.length (Lexer.input l'))%nat.
Proof.
  induction fuel as [|fuel IH]; intros l Hwf Hb; simpl; [exact Hb|].
  destruct (Ascii.eqb (Lexer.ch l) " ") eqn:Hsp; [|exact Hb].
  apply IH; [apply read_char_wf | apply read_char_bounded, space_not_NUL, Hsp].
  exact Hwf.
Qed.

Lemma read_number_loop_bounded fuel : forall num l,
  lexer_wf l -> (Lexer.cur l <= String.length (Lexer.input l))%nat ->
  let l' := snd (Lexer.read_number_loop fuel num l) in
  (Lexer.cur l' <= String.length (Lexer.input l'))%nat.
Proof.
  induction fuel as [|fuel IH]; intros num l Hwf Hb; simpl; [exact Hb|].
  destruct (Lexer.is_digit (Lexer.ch l)) eqn:Hd; [|exact Hb].
  apply IH; [apply read_char_wf | apply read_char_bounded, digit_not_NUL, Hd].
  exact Hwf.
Qed.

Lemma read_identifier_loop_bounded fuel : forall l,
  lexer_wf l -> (Lexer.cur l <= String.length (Lexer.input l))%nat ->
  let l' := Lexer.read_identifier_loop fuel l in
  (Lexer.cur l' <= String.length (Lexer.input l'))%nat.
Proof.
  induction fuel as [|fuel IH]; intros l Hwf Hb; simpl; [exact Hb|].
  destruct (Lexer.is_letter (Lexer.ch l)) eqn:Hd; [|exact Hb].
  apply IH; [apply read_char_wf | apply read_char_bounded, letter_not_NUL, Hd].
  exact Hwf.
Qed.

Lemma next_token_bounded l :
  lexer_wf l -> (Lexer.cur l <= String.length (Lexer.input l))%nat ->
  let l' := snd (Lexer.next_token l) in
  (Lexer.cur l' <= String.length (Lexer.input l'))%nat.
Proof.
  intros Hwf Hb. unfold Lexer.next_token.
  destruct (skipspace_spec l Hwf) as (_ & Hwf0 & _).
  pose proof (skipspace_loop_bounded (String.length (Lexer.input l)) l Hwf Hb)
    as Hb0.
  cbv zeta in Hb0. fold (Lexer.skipspace l) in Hb0.
  set (l0 := Lexer.skipspace l) in *.
  destruct (Token.Op_of_char (Lexer.ch l0)) eqn:Hop.
  { apply read_char_bounded; [exact Hwf0 | eapply Op_of_char_not_NUL, Hop]. }
  destruct (Ascii.eqb (Lexer.ch l0) "=") eqn:Heq.
  { apply Ascii.eqb_eq in Heq.
    apply read_char_bounded; [exact Hwf0 | rewrite Heq; discriminate]. }
  destruct (Ascii.eqb (Lexer.ch l0) Lexer.NUL); [exact Hb0|].
  destruct (Lexer.is_digit (Lexer.ch l0)).
  { pose proof (read_number_loop_bounded (String.length (Lexer.input l0)) 0 l0
                  Hwf0 Hb0) as H.
    unfold Lexer.read_number. destruct (Lexer.read_number_loop _ 0 l0). exact H. }
  destruct (Lexer.is_letter (Lexer.ch l0)); [|exact Hb0].
  apply (read_identifier_loop_bounded _ l0 Hwf0 Hb0).
Qed.

Lemma positions_bounded input n :
  let l := Lexer.after n (Lexer.new input) in
  Lexer.next l = S (Lexer.cur l) /\ (Lexer.cur l <= String.length input)%nat.
Proof.
  assert (H : forall l, lexer_wf l ->
            (Lexer.cur l <= String.length (Lexer.input l))%nat ->
            lexer_wf (Lexer.after n l)
            /\ (Lexer.cur (Lexer.after n l)
                <= String.length (Lexer.input (Lexer.after n l)))%nat).
  { induction n as [|n IH]; intros l Hwf Hb; simpl; [split; assumption|].
    apply IH; [apply next_token_spec, Hwf | apply next_token_bounded; assumption]. }
  destruct (H (Lexer.new input) (new_wf input)) as [Hwf Hb]; [simpl; lia|].
  destruct (after_spec n _ (new_wf input)) as [_ Hin].
  rewrite Hin in Hb. split; [apply Hwf | exact Hb].
Qed.

Lemma next_token_unrecognized l :
  recognized (Lexer.ch (Lexer.skipspace l)) = false ->
  Lexer.next_token l = (Token.eof, Lexer.skipspace l).
Proof.
  unfold recognized, Lexer.next_token. intros H.
  destruct (Token.Op_of_char _); [discriminate|].
  apply orb_false_elim in H as [H Hl].
  apply orb_false_elim in H as [He Hd].
  rewrite He, Hd, Hl. destruct (Ascii.eqb _ Lexer.NUL); reflexivity.
Qed.

(** Once [next_token] has returned end-of-input the lexer is stuck. *)
Lemma after_stuck l :
  lexer_wf l ->
  recognized (Lexer.ch (Lexer.skipspace l)) = false ->
  forall k, Lexer.after (S k) l = Lexer.skipspace l.
Proof.
  intros Hwf Hun k. simpl. rewrite (next_token_unrecognized l Hun). simpl.
  assert (Hfix : snd (Lexer.next_token (Lexer.skipspace l)) = Lexer.skipspace l).
  { rewrite next_token_unrecognized; rewrite (skipspace_idem l Hwf);
      [reflexivity | assumption]. }
  induction k as [|k IH]; simpl; [reflexivity|]. rewrite Hfix. exact IH.
Qed.

End LexerFacts.

(** C8.  For every input string and every state of its lexer between two
    calls of [next_token]: if the lexer has reached the end of the input, or
    the character it finds after skipping spaces starts no token (an
    unrecognized character), then this call and every later call of
    [next_token] return the end-of-input token, and the lexer no longer
    moves. *)
Theorem next_token_eof_idempotent (input : string) (n k : nat) :
  let l := Lexer.after n (Lexer.new input) in
  (String.length input <= Lexer.cur l)%nat
  \/ recognized (Lexer.ch (Lexer.skipspace l)) = false ->
  fst (Lexer.next_token (Lexer.after k l)) = Token.eof
  /\ Lexer.after (S k) l = Lexer.skipspace l.
Proof.
  intros l Hend.
  destruct (after_spec n (Lexer.new input) (new_wf input)) as [Hwf Hin].
  fold l in Hwf, Hin. change (Lexer.input (Lexer.new input)) with input in Hin.
  assert (Hun : recognized (Lexer.ch (Lexer.skipspace l)) = false).
  { destruct Hend as [Hend | Hun]; [|exact Hun].
    assert (Hnul : Lexer.ch l = Lexer.NUL) by (apply wf_at_end; [exact Hwf | rewrite Hin; exact Hend]).
    unfold Lexer.skipspace. rewrite skipspace_loop_id; rewrite Hnul; reflexivity. }
  split; [|apply after_stuck; assumption].
  destruct k as [|k].
  - simpl. rewrite next_token_unrecognized by exact Hun. reflexivity.
  - rewrite (after_stuck l Hwf Hun k).
    rewrite next_token_unrecognized; [reflexivity|].
    rewrite (skipspace_idem l Hwf). exact Hun.
Qed.

(** On the line 1 $ 2, after the first token, the lexer is at the character $. *)
Lemma next_token_eof_idempotent_witness :
  recognized (Lexer.ch (Lexer.skipspace (Lexer.after 1 (Lexer.new "1 $ 2")))) = false
  /\ fst (Lexer.next_token (Lexer.after 2 (Lexer.after 1 (Lexer.new "1 $ 2"))))
     = Token.eof
  /\ Lexer.after 3 (Lexer.after 1 (Lexer.new "1 $ 2"))
     = Lexer.skipspace (Lexer.after 1 (Lexer.new "1 $ 2")).
Proof.
  split; [reflexivity|].
  apply (next_token_eof_idempotent "1 $ 2" 1 2). right. reflexivity.
Defined.

(** * Evaluator *)

Section EvaluatorFacts.

Implicit Types (ctx : gmap string Z) (e : Expression).

Lemma eval_expression_binary op e1 e2 :
  Evaluator.eval_expression (AstNode.expression op e1 e2)
  = Evaluator.eval_binary Evaluator.eval_expression op e1 e2.
Proof. reflexivity. Qed.

Lemma grows_refl ctx : grows ctx ctx.
Proof. split; [reflexivity | intros k v H1 H2; congruence]. Qed.

Lemma grows_trans ctx1 ctx2 ctx3 :
  grows ctx1 ctx2 -> grows ctx2 ctx3 -> grows ctx1 ctx3.
Proof.
  intros [Hs1 Hz1] [Hs2 Hz2]. split; [etrans; eassumption|].
  intros k v H3 H1. destruct (ctx2 !! k) as [w|] eqn:H2.
  - pose proof (lookup_weaken _ _ _ _ H2 Hs2) as H3'.
    rewrite H3 in H3'. injection H3' as ->. eapply Hz1; eassumption.
  - eapply Hz2; eassumption.
Qed.

Lemma subscript_grows ident ctx :
  grows ctx (snd (Evaluator.subscript ident ctx)).
Proof.
  unfold Evaluator.subscript. destruct (ctx !! ident) eqn:Hl; simpl.
  - apply grows_refl.
  - split; [apply insert_subseteq, Hl|].
    intros k v Hk Hn. destruct (decide (ident = k)) as [->|Hne].
    + rewrite lookup_insert_eq in Hk. congruence.
    + rewrite lookup_insert_ne in Hk by assumption. congruence.
Qed.

(** Evaluating an expression only adds bindings, all of them to 0,
    whether it returns or not. *)
Lemma eval_expression_grows e : forall ctx,
  grows ctx (snd (Evaluator.eval_expression e ctx)).
Proof.
  assert (Hbin : forall e1 e2 (f : Z -> Z -> M (gmap string Z) Z),
    (forall ctx, grows ctx (snd (Evaluator.eval_expression e1 ctx))) ->
    (forall ctx, grows ctx (snd (Evaluator.eval_expression e2 ctx))) ->
    (forall a b ctx, snd (f a b ctx) = ctx) ->
    forall ctx,
      grows ctx (snd ((let* l := Evaluator.eval_expression e1 in
                       let* r := Evaluator.eval_expression e2 in f l r) ctx))).
  { intros e1 e2 f H1 H2 Hf ctx. unfold bind.
    specialize (H1 ctx).
    destruct (Evaluator.eval_expression e1 ctx) as [[a|u|] ctx1]; try exact H1.
    specialize (H2 ctx1).
    destruct (Evaluator.eval_expression e2 ctx1) as [[b|u|] ctx2];
      simpl in *; try (eapply grows_trans; eassumption).
    rewrite Hf. eapply grows_trans; eassumption. }
  induction e as [|num|op e1 IH1 e2 IH2|e IH|ident]; intros ctx.
  - apply grows_refl.
  - apply grows_refl.
  - rewrite eval_expression_binary.
    destruct op; simpl; apply Hbin; try assumption; try reflexivity.
    + intros a b c. unfold Evaluator.int_div.
      destruct (b =? 0); [reflexivity|].
      destruct ((a =? INT_MIN) && (b =? -1)); reflexivity.
    + intros a b c. unfold Evaluator.int_rem.
      destruct (b =? 0); [reflexivity|].
      destruct ((a =? INT_MIN) && (b =? -1)); reflexivity.
  - simpl. unfold Evaluator.eval_negative, bind. specialize (IH ctx).
    destruct (Evaluator.eval_expression e ctx) as [[a|u|] ctx1]; exact IH.
  - apply subscript_grows.
Qed.

Lemma eval_statment_failure_grows stmt ctx u ctx' :
  Evaluator.eval_statment stmt ctx = (Undefined u, ctx') -> grows ctx ctx'.
Proof.
  destruct stmt as [expr | lhs rhs]; simpl; intros H.
  - pose proof (eval_expression_grows expr ctx) as Hg.
    rewrite H in Hg. exact Hg.
  - unfold bind in H. pose proof (eval_expression_grows rhs ctx) as Hg.
    destruct (Evaluator.eval_expression rhs ctx) as [[a|v|] ctx1]; simpl in *;
      [discriminate | | discriminate].
    injection H as _ <-. exact Hg.
Qed.

(** The evaluator is a structural recursion: it needs no fuel; and a tree
    that holds a null pointer never evaluates to a value. *)
Lemma eval_expression_null e : forall ctx,
  fst (Evaluator.eval_expression e ctx) <> OutOfFuel
  /\ (has_null e = true ->
      exists u, fst (Evaluator.eval_expression e ctx) = Undefined u).
Proof.
  assert (Hbin : forall e1 e2 (f : Z -> Z -> M (gmap string Z) Z),
    (forall ctx, fst (Evaluator.eval_expression e1 ctx) <> OutOfFuel
       /\ (has_null e1 = true ->
           exists u, fst (Evaluator.eval_expression e1 ctx) = Undefined u)) ->
    (forall ctx, fst (Evaluator.eval_expression e2 ctx) <> OutOfFuel
       /\ (has_null e2 = true ->
           exists u, fst (Evaluator.eval_expression e2 ctx) = Undefined u)) ->
    (forall a b ctx, fst (f a b ctx) <> OutOfFuel) ->
    forall ctx,
      let m := (let* l := Evaluator.eval_expression e1 in
                let* r := Evaluator.eval_expression e2 in f l r) in
      fst (m ctx) <> OutOfFuel
      /\ (has_null e1 || has_null e2 = true -> exists u, fst (m ctx) = Undefined u)).
  { intros e1 e2 f H1 H2 Hf ctx. unfold bind.
    destruct (H1 ctx) as [H1a H1b].
    destruct (Evaluator.eval_expression e1 ctx) as [[a|u|] ctx1]; simpl in *;
      [| split; [discriminate | eauto] | congruence].
    destruct (H2 ctx1) as [H2a H2b].
    destruct (Evaluator.eval_expression e2 ctx1) as [[b|u|] ctx2]; simpl in *;
      [| split; [discriminate | eauto] | congruence].
    split; [apply Hf|]. intros [Hn|Hn]%orb_true_iff.
    - destruct (H1b Hn) as [u Hu]. discriminate.
    - destruct (H2b Hn) as [u Hu]. discriminate. }
  induction e as [|num|op e1 IH1 e2 IH2|e IH|ident]; intros ctx.
  - simpl. split; [discriminate | eauto].
  - simpl. split; [discriminate | discriminate].
  - rewrite eval_expression_binary. simpl has_null.
    destruct op; simpl; apply Hbin; try assumption;
      intros a b c; unfold Evaluator.int_div, Evaluator.int_rem;
      try discriminate;
      destruct (b =? 0); try discriminate;
      destruct ((a =? INT_MIN) && (b =? -1)); discriminate.
  - simpl. unfold Evaluator.eval_negative, bind. destruct (IH ctx) as [Ha Hb].
    destruct (Evaluator.eval_expression e ctx) as [[a|u|] ctx1]; simpl in *.
    + split; [discriminate|]. intros Hn. destruct (Hb Hn) as [u Hu]. discriminate.
    + split; [discriminate | eauto].
    + congruence.
  - simpl. unfold Evaluator.eval_identifier, Evaluator.subscript.
    destruct (ctx !! ident); simpl; split; discriminate.
Qed.

(** *** The order of the operands *)

Lemma eval_ordered_left e : forall ctx,
  Evaluator.eval_expression e ctx = eval_ordered (fun _ => false) e ctx.
Proof.
  induction e as [|num|op e1 IH1 e2 IH2|e IH|ident]; intros ctx; try reflexivity.
  - simpl. unfold Evaluator.eval_binary, bind.
    destruct op; rewrite IH1;
      destruct (eval_ordered _ e1 ctx) as [[a|u|] ctx1]; try reflexivity;
      rewrite IH2;
      destruct (eval_ordered _ e2 ctx1) as [[b|u|] ctx2]; try reflexivity;
      unfold apply_op, Evaluator.int_div, Evaluator.int_rem;
      destruct (b =? 0); try reflexivity;
      destruct ((a =? INT_MIN) && (b =? -1)); reflexivity.
  - simpl. unfold Evaluator.eval_negative, bind. rewrite IH. reflexivity.
Qed.

Lemma zeros_lookup (X : gset string) i :
  gset_to_gmap 0 X !! i = if decide (i ∈ X) then Some 0 else None.
Proof.
  destruct (decide (i ∈ X)).
  - apply lookup_gset_to_gmap_Some. split; [assumption | reflexivity].
  - apply lookup_gset_to_gmap_None. assumption.
Qed.

Lemma materialize_materialize X Y ctx :
  materialize Y (materialize X ctx) = materialize (X ∪ Y) ctx.
Proof.
  unfold materialize. apply map_eq. intros i.
  rewrite !lookup_union, !zeros_lookup.
  destruct (ctx !! i) as [v|], (decide (i ∈ X)) as [HX|HX],
    (decide (i ∈ Y)) as [HY|HY], (decide (i ∈ X ∪ Y)) as [HXY|HXY];
    try reflexivity; exfalso; rewrite elem_of_union in HXY; tauto.
Qed.

Lemma materialize_lookup X ctx x :
  default 0 (materialize X ctx !! x) = default 0 (ctx !! x).
Proof.
  unfold materialize. rewrite lookup_union, zeros_lookup.
  destruct (ctx !! x) as [v|], (decide (x ∈ X)); reflexivity.
Qed.

Lemma value_ext e ctx ctx' :
  (forall x, default 0 (ctx !! x) = default 0 (ctx' !! x)) ->
  value e ctx = value e ctx'.
Proof.
  intros H. induction e as [|num|op e1 IH1 e2 IH2|e IH|ident]; simpl;
    try reflexivity.
  - rewrite IH1, IH2. reflexivity.
  - rewrite IH. reflexivity.
  - rewrite H. reflexivity.
Qed.

Lemma subscript_materialize ident ctx :
  Evaluator.subscript ident ctx
  = (Done (default 0 (ctx !! ident)), materialize {[ident]} ctx).
Proof.
  unfold Evaluator.subscript, materialize. rewrite gset_to_gmap_singleton.
  destruct (ctx !! ident) as [v|] eqn:Hl; simpl; f_equal.
  - apply map_eq. intros i. rewrite lookup_union.
    destruct (decide (ident = i)) as [<-|Hne].
    + rewrite Hl, lookup_singleton_eq. reflexivity.
    + rewrite lookup_singleton_ne by assumption. destruct (ctx !! i); reflexivity.
  - apply insert_union_singleton_r, Hl.
Qed.

(** When the tree has a value, the evaluator returns it, in any order of
    the operands, and leaves the environment with the names of the tree
    materialized. *)
Lemma eval_ordered_returns rf e : forall ctx v,
  value e ctx = Done v ->
  eval_ordered rf e ctx = (Done v, materialize (names e) ctx).
Proof.
  induction e as [|num|op e1 IH1 e2 IH2|e IH|ident]; intros ctx v Hv; simpl in *.
  - discriminate.
  - injection Hv as <-. unfold Evaluator.eval_literal, ret, materialize.
    rewrite gset_to_gmap_empty, (right_id_L ∅ (∪)). reflexivity.
  - destruct (value e1 ctx) as [a| |] eqn:H1; try discriminate.
    destruct (value e2 ctx) as [b| |] eqn:H2; try discriminate.
    destruct (rf op); unfold bind.
    + rewrite (IH2 ctx b H2).
      rewrite (IH1 _ a) by (rewrite <- H1; apply value_ext; intros x;
                            apply materialize_lookup).
      rewrite Hv, materialize_materialize.
      rewrite (comm_L (∪) (names e2)). reflexivity.
    + rewrite (IH1 ctx a H1).
      rewrite (IH2 _ b) by (rewrite <- H2; apply value_ext; intros x;
                            apply materialize_lookup).
      rewrite Hv, materialize_materialize. reflexivity.
  - destruct (value e ctx) as [a| |] eqn:H1; try discriminate.
    injection Hv as <-. unfold Evaluator.eval_negative, bind.
    rewrite (IH ctx a H1). reflexivity.
  - injection Hv as <-. apply subscript_materialize.
Qed.

Lemma eval_ordered_value rf e : forall ctx v ctx',
  eval_ordered rf e ctx = (Done v, ctx') -> value e ctx = Done v.
Proof.
  induction e as [|num|op e1 IH1 e2 IH2|e IH|ident]; intros ctx v ctx' Hv;
    simpl in *.
  - discriminate.
  - injection Hv as <- _. reflexivity.
  - destruct (rf op); unfold bind in Hv.
    + destruct (eval_ordered rf e2 ctx) as [[b|u|] ctx1] eqn:H2; try discriminate.
      destruct (eval_ordered rf e1 ctx1) as [[a|u|] ctx2] eqn:H1; try discriminate.
      pose proof (IH2 _ _ _ H2) as Hb.
      pose proof (eval_ordered_returns rf e2 ctx b Hb) as Hr.
      rewrite H2 in Hr. injection Hr as ->.
      pose proof (IH1 _ _ _ H1) as Ha.
      rewrite (value_ext e1 _ ctx) in Ha by (intros x; apply materialize_lookup).
      rewrite Ha, Hb. injection Hv as -> _. reflexivity.
    + destruct (eval_ordered rf e1 ctx) as [[a|u|] ctx1] eqn:H1; try discriminate.
      destruct (eval_ordered rf e2 ctx1) as [[b|u|] ctx2] eqn:H2; try discriminate.
      pose proof (IH1 _ _ _ H1) as Ha.
      pose proof (eval_ordered_returns rf e1 ctx a Ha) as Hr.
      rewrite H1 in Hr. injection Hr as ->.
      pose proof (IH2 _ _ _ H2) as Hb.
      rewrite (value_ext e2 _ ctx) in Hb by (intros x; apply materialize_lookup).
      rewrite Ha, Hb. injection Hv as -> _. reflexivity.
  - unfold Evaluator.eval_negative, bind in Hv.
    destruct (eval_ordered rf e ctx) as [[a|u|] ctx1] eqn:H1; try discriminate.
    injection Hv as <- _. rewrite (IH _ _ _ H1). reflexivity.
  - unfold Evaluator.eval_identifier in Hv.
    rewrite subscript_materialize in Hv. injection Hv as <- _. reflexivity.
Qed.

(** What [eval_expression] returns does not depend on the order in which
    the operands of the binary operators are evaluated. *)
Lemma operand_order_irrelevant rf e ctx ctx' v :
  Evaluator.eval_expression e ctx = (Done v, ctx') ->
  eval_ordered rf e ctx = (Done v, ctx')
  /\ value e ctx = Done v /\ ctx' = materialize (names e) ctx.
Proof.
  rewrite eval_ordered_left. intros H.
  pose proof (eval_ordered_value _ _ _ _ _ H) as Hv.
  pose proof (eval_ordered_returns (fun _ => false) e ctx v Hv) as Hl.
  rewrite H in Hl. injection Hl as ->.
  split; [apply eval_ordered_returns, Hv | split; [exact Hv | reflexivity]].
Qed.

End EvaluatorFacts.

(** C1 (as stated, refuted).  On the inputs 5/0 and 5%0 the evaluator
    runs the built-in division on a zero divisor: the outcome is undefined
    behaviour, not a reported division-by-zero error. *)
Lemma division_by_zero_not_reported :
  Repl.evaluate "5/0" ∅ = (Undefined ZeroDivisor, ∅)
  /\ Repl.evaluate "5%0" ∅ = (Undefined ZeroDivisor, ∅).
Proof. split; reflexivity. Qed.

(** A fault in the left operand is the fault of the binary expression. *)
Lemma eval_binary_left_fault op l r u ctx ctx' :
  Evaluator.eval_expression l ctx = (Undefined u, ctx') ->
  Evaluator.eval_expression (AstNode.expression op l r) ctx = (Undefined u, ctx').
Proof.
  intros H. rewrite eval_expression_binary.
  destruct op; simpl; unfold bind; rewrite H; reflexivity.
Qed.

(** So is a fault in the right operand, once the left one has returned. *)
Lemma eval_binary_right_fault op l r a u ctx ctx1 ctx' :
  Evaluator.eval_expression l ctx = (Done a, ctx1) ->
  Evaluator.eval_expression r ctx1 = (Undefined u, ctx') ->
  Evaluator.eval_expression (AstNode.expression op l r) ctx = (Undefined u, ctx').
Proof.
  intros Hl Hr. rewrite eval_expression_binary.
  destruct op; simpl; unfold bind; rewrite Hl, Hr; reflexivity.
Qed.

Lemma zero_division_faults e ctx ctx' :
  zero_division e ctx ctx' ->
  Evaluator.eval_expression e ctx = (Undefined ZeroDivisor, ctx').
Proof.
  induction 1 as [op l r a ctx ctx1 ctx2 Hop Hl Hr
                 | op l r ctx ctx' _ IH
                 | op l r a ctx ctx1 ctx' Hl _ IH
                 | child ctx ctx' _ IH].
  - rewrite eval_expression_binary.
    destruct Hop as [-> | ->]; simpl; unfold bind; rewrite Hl, Hr; reflexivity.
  - apply eval_binary_left_fault, IH.
  - eapply eval_binary_right_fault; [exact Hl | exact IH].
  - cbn [Evaluator.eval_expression]. unfold Evaluator.eval_negative, bind.
    rewrite IH. reflexivity.
Qed.

(** The only source of [ZeroDivisor] is such an application. *)
Lemma zero_division_complete e : forall ctx ctx',
  Evaluator.eval_expression e ctx = (Undefined ZeroDivisor, ctx') ->
  zero_division e ctx ctx'.
Proof.
  induction e as [|num|op l IHl r IHr|child IH|ident]; intros ctx ctx' H.
  - discriminate H.
  - discriminate H.
  - rewrite eval_expression_binary in H.
    destruct (Evaluator.eval_expression l ctx) as [[a|u|] ctx1] eqn:Hl.
    + destruct (Evaluator.eval_expression r ctx1) as [[b|u|] ctx2] eqn:Hr.
      * destruct op; simpl in H; unfold bind in H; rewrite Hl, Hr in H;
          try discriminate H;
          unfold Evaluator.int_div, Evaluator.int_rem in H;
          destruct (Z.eqb_spec b 0) as [->|Hb];
          try (destruct ((a =? INT_MIN) && (b =? -1)); discriminate H);
          injection H as <-;
          (eapply zero_division_here; [|exact Hl | exact Hr]); auto.
      * assert (H' : (Undefined u, ctx2) = (Undefined ZeroDivisor, ctx'))
          by (destruct op; simpl in H; unfold bind in H; rewrite Hl, Hr in H;
              exact H).
        injection H' as -> ->.
        eapply zero_division_right; [exact Hl | apply IHr, Hr].
      * destruct op; simpl in H; unfold bind in H; rewrite Hl, Hr in H;
          discriminate H.
    + assert (H' : (Undefined u, ctx1) = (Undefined ZeroDivisor, ctx'))
        by (destruct op; simpl in H; unfold bind in H; rewrite Hl in H;
            exact H).
      injection H' as -> ->. apply zero_division_left, IHl, Hl.
    + destruct op; simpl in H; unfold bind in H; rewrite Hl in H;
        discriminate H.
  - cbn [Evaluator.eval_expression] in H.
    unfold Evaluator.eval_negative, bind in H.
    destruct (Evaluator.eval_expression child ctx) as [[a|u|] ctx1] eqn:Hc;
      try discriminate H.
    injection H as -> ->. apply zero_division_negative, IH, Hc.
  - cbn [Evaluator.eval_expression] in H.
    unfold Evaluator.eval_identifier in H. rewrite subscript_materialize in H.
    discriminate H.
Qed.

(** C1 (amended).  Whenever the evaluation of a statement applies [/] or
    [%] to a right operand that evaluates to 0, wherever in the tree the
    operator stands, [eval_binary] performs the built-in division without
    any check and the behaviour is undefined: for the expression, for the
    expression statement and for the assignment statement made of it, no
    value is returned, no error is reported, and the assignment stores
    nothing: the environment is the one in which the division was applied.
    So it is on the lines 5/0, 5%0, 1 + 5/0, 5/0/2, x = 1 - 5%0 and
    x = -(5%0) + 7. *)
Theorem division_by_zero_undefined
    (e : Expression) (ctx ctx' : gmap string Z) (name : string) :
  zero_division e ctx ctx' ->
  Evaluator.eval_expression e ctx = (Undefined ZeroDivisor, ctx')
  /\ Evaluator.eval_statment (Statement.expression e) ctx
     = (Undefined ZeroDivisor, ctx')
  /\ Evaluator.eval_statment (Statement.assignment name e) ctx
     = (Undefined ZeroDivisor, ctx')
  /\ Forall (fun line => Repl.evaluate line ∅ = (Undefined ZeroDivisor, ∅))
       ["5/0"; "5%0"; "1 + 5/0"; "5/0/2"; "x = 1 - 5%0"; "x = -(5%0) + 7"].
Proof.
  intros Hz. pose proof (zero_division_faults e ctx ctx' Hz) as H.
  split; [exact H|]. split; [exact H|]. split.
  - unfold Evaluator.eval_statment, bind. rewrite H. reflexivity.
  - repeat constructor.
Qed.

(** The assignment x = -(y % 0) + 7 in the empty environment: the fault
    is under a negation and a sum, and y has been read. *)
Lemma division_by_zero_undefined_witness :
  Evaluator.eval_statment
    (Statement.assignment "x"
       (AstNode.expression AstNode.Add
          (AstNode.negative
             (AstNode.expression AstNode.Mod (AstNode.identifier "y")
                (AstNode.integer 0)))
          (AstNode.integer 7))) ∅
  = (Undefined ZeroDivisor, {["y" := 0]}).
Proof.
  refine (proj1 (proj2 (proj2 (division_by_zero_undefined _ ∅ {["y" := 0]} "x" _)))).
  apply zero_division_left, zero_division_negative.
  apply (zero_division_here AstNode.Mod _ _ 0 ∅ {["y" := 0]} {["y" := 0]});
    [right; reflexivity | reflexivity | reflexivity].
Defined.

(** C3.  Reading an identifier that the environment does not bind inserts
    it with value 0 and returns 0; the line y+1 evaluated in the empty
    environment returns 1 and leaves the environment with exactly y bound
    to 0. *)
Theorem identifier_read_materializes (name : string) (ctx : gmap string Z) :
  ctx !! name = None ->
  Evaluator.eval_expression (AstNode.identifier name) ctx
  = (Done 0, <[name := 0]> ctx)
  /\ Repl.evaluate "y+1" ∅ = (Done 1, {["y" := 0]}).
Proof.
  intros Hnone. split; [|reflexivity].
  simpl. unfold Evaluator.eval_identifier, Evaluator.subscript.
  rewrite Hnone. reflexivity.
Qed.

(** The identifier y in the empty environment. *)
Lemma identifier_read_materializes_witness :
  Evaluator.eval_expression (AstNode.identifier "y") ∅ = (Done 0, {["y" := 0]})
  /\ Repl.evaluate "y+1" ∅ = (Done 1, {["y" := 0]}).
Proof. apply (identifier_read_materializes "y" ∅). reflexivity. Defined.

(** C4.  An assignment statement evaluates its right-hand side first, then
    stores the value under the name on top of the environment that
    evaluation left (so a prior binding of the name is overwritten), and
    returns that value.  The line x = 5 returns 5 and binds x to 5; the
    line x+1 after it returns 6. *)
Theorem assignment_stores_result
    (name : string) (expr : Expression) (v : Z) (ctx ctx' : gmap string Z) :
  Evaluator.eval_expression expr ctx = (Done v, ctx') ->
  Evaluator.eval_statment (Statement.assignment name expr) ctx
  = (Done v, <[name := v]> ctx')
  /\ (<[name := v]> ctx') !! name = Some v
  /\ Repl.evaluate "x = 5" ∅ = (Done 5, {["x" := 5]})
  /\ (Repl.evaluate "x = 5" ;; Repl.evaluate "x+1") ∅ = (Done 6, {["x" := 5]}).
Proof.
  intros Hval. repeat split.
  - unfold Evaluator.eval_statment, bind. rewrite Hval. reflexivity.
  - apply lookup_insert_eq.
Qed.

(** The assignment x = -x where x is bound to 7. *)
Lemma assignment_stores_result_witness :
  Evaluator.eval_statment
    (Statement.assignment "x" (AstNode.negative (AstNode.identifier "x")))
    {["x" := 7]}
  = (Done (-7), <["x" := -7]> {["x" := 7]}).
Proof.
  refine (proj1 (assignment_stores_result "x"
                   (AstNode.negative (AstNode.identifier "x"))
                   (-7) {["x" := 7]} {["x" := 7]} _)).
  reflexivity.
Defined.

(** C6 (as stated, refuted).  The line y/0 fails in the empty environment,
    and at the fault the environment binds y: it is not the environment
    the statement started from.  Both operands are evaluated before the
    division, so this holds in either order of the operands. *)
Lemma failed_statement_changes_environment :
  Repl.evaluate "y/0" ∅ = (Undefined ZeroDivisor, {["y" := 0]})
  /\ eval_ordered (fun _ => true)
       (AstNode.expression AstNode.Div (AstNode.identifier "y")
          (AstNode.integer 0)) ∅
     = (Undefined ZeroDivisor, {["y" := 0]})
  /\ ({["y" := 0]} : gmap string Z) !! "y" = Some 0
  /\ (∅ : gmap string Z) !! "y" = None.
Proof. repeat split. Qed.

Lemma materialize_empty (ctx : gmap string Z) : materialize ∅ ctx = ctx.
Proof.
  unfold materialize. rewrite gset_to_gmap_empty. apply (right_id _ _).
Qed.

(** Whether it returns or faults, the evaluation of an expression leaves
    the environment it started from with, in addition, the identifiers it
    has read bound to 0 where they were not bound. *)
Lemma eval_expression_reads e : forall ctx,
  snd (Evaluator.eval_expression e ctx) = materialize (reads e ctx) ctx.
Proof.
  induction e as [|num|op l IHl r IHr|child IH|ident]; intros ctx.
  - symmetry. apply materialize_empty.
  - symmetry. apply materialize_empty.
  - rewrite eval_expression_binary. cbn [reads].
    specialize (IHl ctx).
    destruct (Evaluator.eval_expression l ctx) as [[a|u|] ctx1] eqn:Hl;
      cbn [snd] in IHl.
    + specialize (IHr ctx1).
      rewrite <- materialize_materialize, <- IHl, <- IHr.
      destruct (Evaluator.eval_expression r ctx1) as [[b|u|] ctx2] eqn:Hr;
        destruct op; simpl; unfold bind; rewrite Hl, Hr; try reflexivity;
        unfold Evaluator.int_div, Evaluator.int_rem;
        destruct (b =? 0); try reflexivity;
        destruct ((a =? INT_MIN) && (b =? -1)); reflexivity.
    + rewrite <- IHl.
      destruct op; simpl; unfold bind; rewrite Hl; reflexivity.
    + rewrite <- IHl.
      destruct op; simpl; unfold bind; rewrite Hl; reflexivity.
  - cbn [Evaluator.eval_expression reads]. rewrite <- IH.
    unfold Evaluator.eval_negative, bind.
    destruct (Evaluator.eval_expression child ctx) as [[a|u|] ctx1]; reflexivity.
  - cbn [Evaluator.eval_expression reads].
    unfold Evaluator.eval_identifier. rewrite subscript_materialize. reflexivity.
Qed.

(** What is read stands in the tree. *)
Lemma reads_names e : forall ctx, reads e ctx ⊆ names e.
Proof.
  induction e as [|num|op l IHl r IHr|child IH|ident]; intros ctx; cbn [reads names].
  - reflexivity.
  - reflexivity.
  - destruct (Evaluator.eval_expression l ctx) as [[a|u|] ctx1].
    + apply union_mono; [apply IHl | apply IHr].
    + etrans; [apply IHl | apply union_subseteq_l].
    + etrans; [apply IHl | apply union_subseteq_l].
  - apply IH.
  - reflexivity.
Qed.

(** A name that an environment binds after [materialize] and not before
    is one of the names added, and it is bound to 0. *)
Lemma materialize_new X (ctx : gmap string Z) k :
  ctx !! k = None -> is_Some (materialize X ctx !! k) ->
  k ∈ X /\ materialize X ctx !! k = Some 0.
Proof.
  unfold materialize. rewrite lookup_union, zeros_lookup. intros ->.
  destruct (decide (k ∈ X)) as [Hin|Hout]; intros [v Hv];
    [split; [exact Hin | reflexivity] | discriminate Hv].
Qed.

(** A failing statement leaves what evaluating its expression leaves. *)
Lemma eval_statment_failure_reads stmt ctx u ctx' :
  Evaluator.eval_statment stmt ctx = (Undefined u, ctx') ->
  ctx' = materialize (read_by stmt ctx) ctx.
Proof.
  destruct stmt as [expr | lhs rhs]; simpl; intros H.
  - rewrite <- eval_expression_reads, H. reflexivity.
  - rewrite <- eval_expression_reads. unfold bind in H.
    destruct (Evaluator.eval_expression rhs ctx) as [[a|v|] ctx1];
      [discriminate H | injection H as _ <-; reflexivity | discriminate H].
Qed.

(** C6 (amended).  A line whose processing fails (undefined behaviour in
    the parser or the evaluator; nothing is rolled back) keeps every binding
    the environment had; any name it has added on the way is an identifier
    that the evaluation of the statement has read before the fault, and it
    is bound to 0.  When the line is an assignment, the fault is that of its
    right-hand side and the store is not performed. *)
Theorem failure_only_materializes
    (line : string) (u : undefined) (ctx ctx' : gmap string Z) :
  Repl.evaluate line ctx = (Undefined u, ctx') ->
  grows ctx ctx'
  /\ (forall k, ctx !! k = None -> is_Some (ctx' !! k) ->
      exists stmt,
        fst (Parser.parse_statment (Parser.new line)) = Done stmt
        /\ k ∈ read_by stmt ctx /\ ctx' !! k = Some 0)
  /\ forall name rhs,
       fst (Parser.parse_statment (Parser.new line))
       = Done (Statement.assignment name rhs) ->
       Evaluator.eval_expression rhs ctx = (Undefined u, ctx').
Proof.
  unfold Repl.evaluate. intros H.
  destruct (Parser.parse_statment (Parser.new line)) as [[stmt|v|] p'].
  - split; [eapply eval_statment_failure_grows; exact H|]. split.
    + intros k Hk Hsome. exists stmt.
      rewrite (eval_statment_failure_reads _ _ _ _ H) in Hsome |- *.
      destruct (materialize_new _ _ _ Hk Hsome) as [Hin H0].
      split; [reflexivity | split; assumption].
    + intros name rhs [= ->]. simpl in H. unfold bind in H.
      destruct (Evaluator.eval_expression rhs ctx) as [[a|w|] ctx1];
        [discriminate | exact H | discriminate].
  - injection H as _ <-. split; [apply grows_refl|]. split.
    + intros k Hk [w Hw]. congruence.
    + discriminate.
  - discriminate.
Qed.

(** The line z = x % y + w where only x is bound: y is added, bound to
    0; w, which stands after the fault, and z are not. *)
Lemma failure_only_materializes_witness :
  grows ({["x" := 3]} : gmap string Z) (<["y" := 0]> {["x" := 3]})
  /\ (exists stmt,
        fst (Parser.parse_statment (Parser.new "z = x % y + w")) = Done stmt
        /\ "y" ∈ read_by stmt {["x" := 3]}
        /\ (<["y" := 0]> {["x" := 3]} : gmap string Z) !! "y" = Some 0)
  /\ Evaluator.eval_expression
       (AstNode.expression AstNode.Add
          (AstNode.expression AstNode.Mod (AstNode.identifier "x")
             (AstNode.identifier "y"))
          (AstNode.identifier "w")) {["x" := 3]}
     = (Undefined ZeroDivisor, <["y" := 0]> {["x" := 3]}).
Proof.
  assert (H : Repl.evaluate "z = x % y + w" {["x" := 3]}
              = (Undefined ZeroDivisor, <["y" := 0]> {["x" := 3]}))
    by reflexivity.
  destruct (failure_only_materializes _ _ _ _ H) as (Hg & Hr & Ha).
  split; [exact Hg|]. split.
  - apply Hr; [reflexivity | eexists; reflexivity].
  - apply (Ha "z"). reflexivity.
Defined.

Lemma int_neg_exact (v : Z) : INT_MIN < v -> in_int v -> int_neg v = - v.
Proof.
  unfold int_neg, wrap, in_int, INT_MIN, INT_MAX. intros Hmin [_ Hmax].
  rewrite Z.mod_small; lia.
Qed.

(** C9.  In [parse_prefix_expression] a prefix [+] returns the operand
    parsed at PREFIX precedence as it is, and a prefix [-] wraps that
    operand in a NegativeExpression; a NegativeExpression evaluates to the
    [int] negation of its operand (the mathematical negation whenever the
    operand is not INT_MIN).  The lines -5+2, +5 and --5 evaluate
    to -3, 5 and 5; --5 is accepted and parses to two nested negations. *)
Theorem unary_prefix_operators
    (rec : Parser.Precedence -> M Parser.t Expression) (p : Parser.t)
    (e : Expression) (v : Z) (ctx ctx' : gmap string Z) :
  (Parser.cur p = Token.oper Token.Plus ->
   Parser.parse_prefix_expression rec p = rec Parser.PREFIX (Parser.advance p))
  /\ (Parser.cur p = Token.oper Token.Minus ->
      Parser.parse_prefix_expression rec p
      = (let* child := rec Parser.PREFIX in ret (AstNode.negative child))
          (Parser.advance p))
  /\ (Evaluator.eval_expression e ctx = (Done v, ctx') ->
      Evaluator.eval_expression (AstNode.negative e) ctx = (Done (int_neg v), ctx')
      /\ (INT_MIN < v -> in_int v -> int_neg v = - v))
  /\ Repl.evaluate "-5+2" ∅ = (Done (-3), ∅)
  /\ Repl.evaluate "+5" ∅ = (Done 5, ∅)
  /\ Repl.evaluate "--5" ∅ = (Done 5, ∅)
  /\ fst (Parser.parse_statment (Parser.new "--5"))
     = Done (Statement.expression
               (AstNode.negative (AstNode.negative (AstNode.integer 5)))).
Proof.
  split; [|split; [|split; [|repeat split]]].
  - intros Hcur. unfold Parser.parse_prefix_expression, bind, get_state.
    rewrite Hcur. reflexivity.
  - intros Hcur. unfold Parser.parse_prefix_expression, bind, get_state.
    rewrite Hcur. reflexivity.
  - intros He. split; [|apply int_neg_exact].
    simpl. unfold Evaluator.eval_negative, bind. rewrite He. reflexivity.
Qed.

(** The line -x, and its tree where x is bound to 2. *)
Lemma unary_prefix_operators_witness :
  Parser.parse_prefix_expression (Parser.parse_expression 4) (Parser.new "-x")
  = (Done (AstNode.negative (AstNode.identifier "x")),
     Parser.advance (Parser.new "-x"))
  /\ Evaluator.eval_expression (AstNode.negative (AstNode.identifier "x"))
       {["x" := 2]}
     = (Done (-2), {["x" := 2]}).
Proof.
  pose proof (unary_prefix_operators (Parser.parse_expression 4) (Parser.new "-x")
                (AstNode.identifier "x") 2 {["x" := 2]} {["x" := 2]})
    as (_ & Hminus & Hneg & _).
  split.
  - rewrite Hminus by reflexivity. reflexivity.
  - apply Hneg. reflexivity.
Defined.

(** * Parser *)

Section ParserFacts.

Implicit Types (p : Parser.t) (rec : Parser.Precedence -> M Parser.t Expression).

Lemma parse_expression_S fuel prec :
  Parser.parse_expression (S fuel) prec
  = Parser.parse_expression_body (Parser.parse_expression fuel) (S fuel) prec.
Proof. reflexivity. Qed.

Lemma binary_precedence tok b :
  binary_of tok = Some b -> 0 < Parser.precedence tok /\ Token.not_eof tok = true.
Proof.
  destruct tok as [|[]| | |]; simpl; intros H; try discriminate;
    split; reflexivity.
Qed.

(** No prefix term: the first [switch] returns [nullptr] at once. *)
Lemma parse_expression_no_prefix rec fuel prec p :
  starts_prefix (Parser.cur p) = false ->
  Parser.parse_expression_body rec fuel prec p = (Done nullptr, p).
Proof.
  intros H. destruct p as [l c n]. simpl in H.
  unfold Parser.parse_expression_body, bind, get_state.
  destruct c as [|[]| | |]; try discriminate; reflexivity.
Qed.

(** A number or identifier: the leaf, then the loop. *)
Lemma parse_expression_leaf rec fuel prec p e :
  leaf (Parser.cur p) = Some e ->
  Parser.parse_expression_body rec fuel prec p
  = Parser.parse_infix_loop rec fuel prec e p.
Proof.
  intros H. destruct p as [l c n]. simpl in H.
  unfold Parser.parse_expression_body, bind, get_state.
  unfold Parser.parse_identifier, Parser.parse_integer_literal, bind, get_state.
  destruct c as [|[]| | |]; try discriminate; injection H as <-; simpl;
    destruct (Parser.parse_infix_loop rec fuel prec _ _) as [[?|?|] ?];
    reflexivity.
Qed.

(** The loop ends when the next token does not bind tighter. *)
Lemma parse_infix_loop_stop rec fuel prec left p :
  Token.not_eof (Parser.next p) && (prec <? Parser.precedence (Parser.next p))
  = false ->
  Parser.parse_infix_loop rec (S fuel) prec left p = (Done left, p).
Proof.
  intros H. simpl. unfold bind, get_state. rewrite H. reflexivity.
Qed.

(** One iteration: the operator is consumed, the right operand is parsed
    at the precedence of that operator, and the loop goes on with the
    BinaryExpression as the new left operand. *)
Lemma parse_infix_loop_step rec fuel prec left p b :
  binary_of (Parser.next p) = Some b ->
  prec < Parser.precedence (Parser.next p) ->
  Parser.parse_infix_loop rec (S fuel) prec left p
  = (let* right := rec (Parser.precedence (Parser.next p)) in
     Parser.parse_infix_loop rec fuel prec (AstNode.expression b left right))
      (Parser.advance (Parser.advance p)).
Proof.
  intros Hb Hlt. apply Z.ltb_lt in Hlt.
  destruct (binary_precedence _ _ Hb) as [_ Hne].
  destruct p as [l c n]. simpl in *.
  unfold bind at 1, get_state. simpl. rewrite Hne, Hlt. simpl.
  unfold Parser.parse_infix_expression, Parser.cur_precedence,
    Parser.read_token, modify, bind, get_state, ret, Parser.advance.
  simpl. destruct (Lexer.next_token l) as [t1 l1]. simpl.
  destruct n as [|[]| | |]; simpl in Hb; try discriminate;
    injection Hb as <-; simpl;
    destruct (Lexer.next_token l1) as [t2 l2];
    repeat match goal with
           | |- context [rec ?a ?b] => destruct (rec a b) as [[?|?|] ?]
           end; reflexivity.
Qed.

Lemma advance_cur p : Parser.cur (Parser.advance p) = Parser.next p.
Proof. unfold Parser.advance. destruct (Lexer.next_token _). reflexivity. Qed.

Lemma advance_next p :
  Parser.next (Parser.advance p) = fst (Lexer.next_token (Parser.lexer p)).
Proof. unfold Parser.advance. destruct (Lexer.next_token _). reflexivity. Qed.

Lemma advance_lexer p :
  Parser.lexer (Parser.advance p) = snd (Lexer.next_token (Parser.lexer p)).
Proof. unfold Parser.advance. destruct (Lexer.next_token _). reflexivity. Qed.

(** A leaf followed by a token that does not bind tighter than [prec] is
    returned as it is, and nothing is consumed. *)
Lemma parse_expression_leaf_stop fuel prec p e :
  leaf (Parser.cur p) = Some e ->
  Token.not_eof (Parser.next p) && (prec <? Parser.precedence (Parser.next p))
  = false ->
  Parser.parse_expression (S fuel) prec p = (Done e, p).
Proof.
  intros Hleaf Hstop. rewrite parse_expression_S.
  rewrite (parse_expression_leaf _ _ _ _ _ Hleaf).
  apply parse_infix_loop_stop, Hstop.
Qed.

(** Three operands and two operators: the second operator takes the
    middle operand only if it binds strictly tighter than the first. *)
Lemma parse_expression_three fuel p tb tc o2 a b c op1 op2 :
  leaf (Parser.cur p) = Some a ->
  binary_of (Parser.next p) = Some op1 ->
  Lexer.tokens 4 (Parser.lexer p) = [tb; o2; tc; Token.eof] ->
  leaf tb = Some b -> binary_of o2 = Some op2 -> leaf tc = Some c ->
  fst (Parser.parse_expression (S (S (S fuel))) Parser.LOWEST p)
  = Done (if Parser.precedence (Parser.next p) <? Parser.precedence o2
          then AstNode.expression op1 a (AstNode.expression op2 b c)
          else AstNode.expression op2 (AstNode.expression op1 a b) c).
Proof.
  intros Ha Hop1 Htoks Hb Hop2 Hc.
  simpl in Htoks. injection Htoks as Htb Ho2 Htc Heof.
  set (p2 := Parser.advance (Parser.advance p)).
  set (p4 := Parser.advance (Parser.advance p2)).
  assert (Hcur2 : Parser.cur p2 = tb).
  { unfold p2. rewrite advance_cur, advance_next. exact Htb. }
  assert (Hnext2 : Parser.next p2 = o2).
  { unfold p2. rewrite advance_next, advance_lexer. exact Ho2. }
  assert (Hcur4 : Parser.cur p4 = tc).
  { unfold p4, p2. rewrite advance_cur, advance_next, !advance_lexer. exact Htc. }
  assert (Hnext4 : Parser.next p4 = Token.eof).
  { unfold p4, p2. rewrite advance_next, !advance_lexer. exact Heof. }
  destruct (binary_precedence _ _ Hop1) as [Hp1 _].
  destruct (binary_precedence _ _ Hop2) as [Hp2 _].
  assert (Hend : forall n prec, Parser.parse_expression (S n) prec p4 = (Done c, p4)).
  { intros n prec. apply parse_expression_leaf_stop.
    - rewrite Hcur4. exact Hc.
    - rewrite Hnext4. reflexivity. }
  rewrite parse_expression_S, (parse_expression_leaf _ _ _ _ _ Ha).
  rewrite (parse_infix_loop_step _ _ _ _ _ _ Hop1 Hp1). fold p2.
  unfold bind at 1.
  destruct (Z.ltb_spec (Parser.precedence (Parser.next p)) (Parser.precedence o2))
    as [Hlt | Hge].
  - (* the second operator binds tighter *)
    rewrite parse_expression_S, (parse_expression_leaf _ _ _ _ b)
      by (rewrite Hcur2; exact Hb).
    rewrite (parse_infix_loop_step _ _ _ _ p2 op2)
      by (rewrite Hnext2; assumption).
    fold p4. unfold bind at 1. rewrite Hend.
    rewrite parse_infix_loop_stop by (rewrite Hnext4; reflexivity).
    rewrite parse_infix_loop_stop by (rewrite Hnext4; reflexivity).
    reflexivity.
  - (* same or lower precedence: the loop of the caller takes it *)
    rewrite (parse_expression_leaf_stop _ _ p2 b).
    + rewrite (parse_infix_loop_step _ _ _ _ p2 op2)
        by (rewrite Hnext2; assumption).
      fold p4. unfold bind at 1. rewrite Hend.
      rewrite parse_infix_loop_stop by (rewrite Hnext4; reflexivity).
      reflexivity.
    + rewrite Hcur2. exact Hb.
    + rewrite Hnext2. apply andb_false_intro2, Z.ltb_ge, Hge.
Qed.

(** The right operand of an infix operator is parsed at the precedence
    of that operator. *)
Lemma parse_infix_expression_spec rec left p op :
  binary_of (Parser.cur p) = Some op ->
  Parser.parse_infix_expression rec left p
  = (let* right := rec (Parser.precedence (Parser.cur p)) in
     ret (AstNode.expression op left right)) (Parser.advance p).
Proof.
  intros Hop. destruct p as [l c n]. simpl in Hop.
  unfold Parser.parse_infix_expression, Parser.cur_precedence,
    Parser.read_token, modify, bind, get_state, ret.
  destruct c as [|[]| | |]; simpl in Hop; try discriminate;
    injection Hop as <-; reflexivity.
Qed.

Lemma parse_grouped_expression_unclosed rec p e p' :
  rec Parser.LOWEST (Parser.advance p) = (Done e, p') ->
  Parser.next p' <> Token.oper Token.Rbrace ->
  Parser.parse_grouped_expression rec p = (Done nullptr, p').
Proof.
  intros Hrec Hnext.
  unfold Parser.parse_grouped_expression, Parser.read_token, modify, bind,
    get_state.
  rewrite Hrec.
  destruct (Parser.next p') as [|[]| | |]; simpl; try congruence; reflexivity.
Qed.

Lemma budget_S p : exists fuel, Parser.budget p = S (S (S fuel)).
Proof. unfold Parser.budget. simpl. eexists. reflexivity. Qed.

Lemma parse_statment_expression p :
  Token.type (Parser.next p) <> Token.Assign ->
  Parser.parse_statment p
  = (let* expr := Parser.parse_expression (Parser.budget p) Parser.LOWEST in
     ret (Statement.expression expr)) p.
Proof.
  intros Hne. unfold Parser.parse_statment, bind at 1, get_state.
  destruct (Token.type (Parser.next p)); try congruence; reflexivity.
Qed.

Lemma binary_not_assign tok b :
  binary_of tok = Some b -> Token.type tok <> Token.Assign.
Proof. destruct tok; simpl; congruence. Qed.

(** *** Termination: the fuel of [parse_statment] is never exhausted *)

Lemma runs_ret {A} (a : A) p (Q : A -> Parser.t -> Prop) :
  Q a p -> runs (ret a) p Q.
Proof. intros H. exact H. Qed.

Lemma runs_bind {A B} (m : M Parser.t A) (k : A -> M Parser.t B) p
    (Q : B -> Parser.t -> Prop) :
  runs m p (fun a p1 => runs (k a) p1 Q) -> runs (bind m k) p Q.
Proof.
  unfold runs, bind. destruct (m p) as [[a|u|] p1]; intros H; exact H.
Qed.

Lemma runs_weaken {A} (m : M Parser.t A) p (Q Q' : A -> Parser.t -> Prop) :
  runs m p Q -> (forall a p', Q a p' -> Q' a p') -> runs m p Q'.
Proof.
  unfold runs. destruct (m p) as [[a|u|] p1]; intros H HQ; auto.
Qed.

Lemma runs_get_state p (Q : Parser.t -> Parser.t -> Prop) :
  Q p p -> runs get_state p Q.
Proof. intros H. exact H. Qed.

Lemma runs_read_token p (Q : unit -> Parser.t -> Prop) :
  Q tt (Parser.advance p) -> runs Parser.read_token p Q.
Proof. intros H. exact H. Qed.

Lemma runs_active {A} (member : option A) p (Q : A -> Parser.t -> Prop) :
  (forall a, member = Some a -> Q a p) -> runs (active member) p Q.
Proof. intros H. destruct member as [a|]; [apply H; reflexivity | exact I]. Qed.

Lemma steady_trans {A B} p p1 (a : A) (b : B) p2 :
  (weight p1 <= weight p)%nat -> steady p1 a p2 -> steady p b p2.
Proof. intros Hle [Hwf Hw]. split; [exact Hwf | lia]. Qed.

(** [read_token] keeps the lexer invariant, and drops the weight of the
    current token, plus one if the next token is not end-of-input. *)
Lemma advance_weight p :
  lexer_wf (Parser.lexer p) ->
  lexer_wf (Parser.lexer (Parser.advance p))
  /\ (weight (Parser.advance p)
      + (if Token.not_eof (Parser.cur p) then 1 else 0)
      + (if Token.not_eof (Parser.next p) then 1 else 0) <= weight p)%nat.
Proof.
  intros Hwf. destruct (next_token_spec _ Hwf) as (Hwf' & _ & Hrem).
  unfold Parser.advance, weight.
  destruct (Lexer.next_token (Parser.lexer p)) as [tok l']. simpl in *.
  split; [exact Hwf'|].
  destruct (Token.not_eof (Parser.cur p)), (Token.not_eof (Parser.next p)),
    (Token.not_eof tok); lia.
Qed.

Section Termination.

Variable rec : Parser.Precedence -> M Parser.t Expression.
Variable fuel : nat.
Hypothesis rec_runs : forall prec p,
  lexer_wf (Parser.lexer p) -> (weight p < fuel)%nat ->
  runs (rec prec) p (steady p).

Lemma parse_prefix_expression_runs p :
  lexer_wf (Parser.lexer p) -> Token.not_eof (Parser.cur p) = true ->
  (weight p < S fuel)%nat ->
  runs (Parser.parse_prefix_expression rec) p (steady p).
Proof.
  intros Hwf Hcur Hw. destruct (advance_weight p Hwf) as [Hwf1 Hw1].
  rewrite Hcur in Hw1.
  assert (Hrec : forall prec, runs (rec prec) (Parser.advance p) (steady p)).
  { intros prec. eapply runs_weaken; [apply rec_runs; [exact Hwf1 | lia]|].
    intros a p'. apply steady_trans. lia. }
  unfold Parser.parse_prefix_expression.
  apply runs_bind, runs_get_state, runs_bind, runs_active. intros op _.
  apply runs_bind, runs_read_token.
  destruct op; try (apply runs_ret; split; [exact Hwf1 | lia]).
  - apply Hrec.
  - apply runs_bind. eapply runs_weaken; [apply Hrec|].
    intros a p' H. apply runs_ret. exact H.
Qed.

Lemma parse_grouped_expression_runs p :
  lexer_wf (Parser.lexer p) -> Token.not_eof (Parser.cur p) = true ->
  (weight p < S fuel)%nat ->
  runs (Parser.parse_grouped_expression rec) p (steady p).
Proof.
  intros Hwf Hcur Hw. destruct (advance_weight p Hwf) as [Hwf1 Hw1].
  rewrite Hcur in Hw1.
  unfold Parser.parse_grouped_expression.
  apply runs_bind, runs_read_token, runs_bind.
  eapply runs_weaken; [apply rec_runs; [exact Hwf1 | lia]|].
  intros expr p2 [Hwf2 Hw2]. apply runs_bind, runs_get_state.
  destruct (advance_weight p2 Hwf2) as [Hwf3 Hw3].
  destruct (Token.type (Parser.next p2));
    try (apply runs_ret; split; [exact Hwf2 | lia]).
  apply runs_bind, runs_active. intros op _.
  destruct op; try (apply runs_ret; split; [exact Hwf2 | lia]).
  apply runs_bind, runs_read_token, runs_ret. split; [exact Hwf3 | lia].
Qed.

Lemma parse_infix_expression_runs left p :
  lexer_wf (Parser.lexer p) -> Token.not_eof (Parser.cur p) = true ->
  (weight p < S fuel)%nat ->
  runs (Parser.parse_infix_expression rec left) p (steady p).
Proof.
  intros Hwf Hcur Hw. destruct (advance_weight p Hwf) as [Hwf1 Hw1].
  rewrite Hcur in Hw1.
  unfold Parser.parse_infix_expression, Parser.cur_precedence.
  apply runs_bind, runs_get_state, runs_bind, runs_active. intros op _.
  assert (Hgo : forall b : AstNode.BinaryOp,
    runs (let* precedence := (let* p0 := get_state in
                              ret (Parser.precedence (Parser.cur p0))) in
          Parser.read_token ;;
          let* right := rec precedence in
          ret (AstNode.expression b left right)) p (steady p)).
  { intros b. apply runs_bind, runs_bind, runs_get_state, runs_ret.
    apply runs_bind, runs_read_token, runs_bind.
    eapply runs_weaken; [apply rec_runs; [exact Hwf1 | lia]|].
    intros right p2 [Hwf2 Hw2]. apply runs_ret. split; [exact Hwf2 | lia]. }
  destruct op; first [apply Hgo | apply runs_ret; split; [exact Hwf | lia]].
Qed.

Lemma parse_infix_loop_runs n : forall prec left p,
  lexer_wf (Parser.lexer p) -> (weight p < n)%nat -> (n <= S fuel)%nat ->
  runs (Parser.parse_infix_loop rec n prec left) p (steady p).
Proof.
  induction n as [|n IH]; intros prec left p Hwf Hw Hn; [lia|].
  simpl. apply runs_bind, runs_get_state.
  destruct (Token.not_eof (Parser.next p)) eqn:Hnext; simpl;
    [|apply runs_ret; split; [exact Hwf | lia]].
  destruct (prec <? Parser.precedence (Parser.next p));
    [|apply runs_ret; split; [exact Hwf | lia]].
  destruct (advance_weight p Hwf) as [Hwf1 Hw1]. rewrite Hnext in Hw1.
  apply runs_bind, runs_read_token, runs_bind, runs_get_state.
  apply runs_bind, runs_active. intros op _.
  assert (Hgo : runs (let* left' := Parser.parse_infix_expression rec left in
                      Parser.parse_infix_loop rec n prec left')
                  (Parser.advance p) (steady p)).
  { apply runs_bind.
    eapply runs_weaken;
      [apply parse_infix_expression_runs;
         [exact Hwf1 | rewrite advance_cur; exact Hnext | lia]|].
    intros left' p2 [Hwf2 Hw2].
    eapply runs_weaken; [apply IH; [exact Hwf2 | lia | lia]|].
    intros a p3. apply steady_trans. lia. }
  destruct op; first [exact Hgo | apply runs_ret; split; [exact Hwf1 | lia]].
Qed.

Lemma parse_expression_body_runs prec p :
  lexer_wf (Parser.lexer p) -> (weight p < S fuel)%nat ->
  runs (Parser.parse_expression_body rec (S fuel) prec) p (steady p).
Proof.
  intros Hwf Hw.
  assert (Hcont : forall prefix : M Parser.t Expression,
    runs prefix p (steady p) ->
    runs (let* left := prefix in Parser.parse_infix_loop rec (S fuel) prec left)
      p (steady p)).
  { intros prefix Hprefix. apply runs_bind.
    eapply runs_weaken; [exact Hprefix|].
    intros left p1 [Hwf1 Hw1].
    eapply runs_weaken; [apply parse_infix_loop_runs; [exact Hwf1 | lia | lia]|].
    intros a p2. apply steady_trans. exact Hw1. }
  unfold Parser.parse_expression_body. cbv beta zeta.
  apply runs_bind, runs_get_state.
  destruct (Parser.cur p) as [|op|num|ident|] eqn:Hcur; cbn [Token.type];
    try (apply runs_ret; split; [exact Hwf | lia]).
  - apply runs_bind, runs_active. intros op' [= <-].
    destruct op; try (apply runs_ret; split; [exact Hwf | lia]);
      apply Hcont;
      first [apply parse_prefix_expression_runs
            | apply parse_grouped_expression_runs];
      try assumption; rewrite Hcur; reflexivity.
  - apply Hcont. unfold Parser.parse_integer_literal.
    apply runs_bind, runs_get_state, runs_bind, runs_active. intros n _.
    apply runs_ret. split; [exact Hwf | lia].
  - apply Hcont. unfold Parser.parse_identifier.
    apply runs_bind, runs_get_state, runs_bind, runs_active. intros n _.
    apply runs_ret. split; [exact Hwf | lia].
Qed.

End Termination.

Lemma parse_expression_runs fuel : forall prec p,
  lexer_wf (Parser.lexer p) -> (weight p < fuel)%nat ->
  runs (Parser.parse_expression fuel prec) p (steady p).
Proof.
  induction fuel as [|fuel IH]; intros prec p Hwf Hw; [lia|].
  rewrite parse_expression_S. apply parse_expression_body_runs; assumption.
Qed.

Lemma weight_budget p :
  lexer_wf (Parser.lexer p) -> (weight p < Parser.budget p)%nat.
Proof.
  intros _. unfold weight, Parser.budget, remaining.
  destruct (Token.not_eof (Parser.cur p)), (Token.not_eof (Parser.next p)); lia.
Qed.

Lemma new_parser_wf input : lexer_wf (Parser.lexer (Parser.new input)).
Proof.
  unfold Parser.new.
  pose proof (next_token_spec _ (new_wf input)) as (H1 & _).
  destruct (Lexer.next_token (Lexer.new input)) as [c l1]. simpl in H1.
  pose proof (next_token_spec _ H1) as (H2 & _).
  destruct (Lexer.next_token l1) as [n l2]. exact H2.
Qed.

Lemma advance_input p :
  lexer_wf (Parser.lexer p) ->
  Lexer.input (Parser.lexer (Parser.advance p)) = Lexer.input (Parser.lexer p).
Proof.
  intros Hwf. rewrite advance_lexer. apply next_token_spec, Hwf.
Qed.

(** [parse_statment] returns (or hits undefined behaviour) within its
    budget, from every parser state whose lexer satisfies the invariant. *)
Lemma parse_statment_runs p :
  lexer_wf (Parser.lexer p) ->
  runs Parser.parse_statment p (fun _ _ => True).
Proof.
  intros Hwf. unfold Parser.parse_statment.
  apply runs_bind, runs_get_state.
  assert (Hexpr : runs (let* expr := Parser.parse_expression (Parser.budget p)
                                       Parser.LOWEST in
                        ret (Statement.expression expr)) p (fun _ _ => True)).
  { apply runs_bind.
    eapply runs_weaken;
      [apply parse_expression_runs; [exact Hwf | apply weight_budget, Hwf]|].
    intros e p' _. exact I. }
  destruct (Token.type (Parser.next p)); try exact Hexpr.
  apply runs_bind, runs_active. intros ident _.
  apply runs_bind, runs_read_token, runs_bind, runs_read_token, runs_bind.
  destruct (advance_weight p Hwf) as [Hwf1 Hw1].
  destruct (advance_weight _ Hwf1) as [Hwf2 Hw2].
  eapply runs_weaken; [apply parse_expression_runs; [exact Hwf2|]|].
  - pose proof (weight_budget p Hwf). lia.
  - intros e p' _. exact I.
Qed.

(** Parsing a line terminates: the fuel is an artefact of the embedding. *)
Lemma parse_total input :
  fst (Parser.parse_statment (Parser.new input)) <> OutOfFuel.
Proof.
  pose proof (parse_statment_runs _ (new_parser_wf input)) as H.
  unfold runs in H.
  destruct (Parser.parse_statment (Parser.new input)) as [[stmt|u|] p'];
    simpl; [discriminate | discriminate | contradiction].
Qed.

End ParserFacts.

(** C2.  [*], [/] and [%] have a higher precedence than [+] and [-]; the
    right operand of an infix operator is parsed at the precedence of that
    very operator, so that in [a o1 b o2 c] the operator [o2] takes [b]
    only when it binds strictly tighter than [o1], and otherwise (same
    level, or lower) the result groups to the left: [(a o1 b) o2 c].  The
    lines 2+3*4, (2+3)*4 and 10-3-2 evaluate to 14, 20 and 5. *)
Theorem precedence_and_left_associativity
    (p : Parser.t) (tb o2 tc : Token.t) (a b c : Expression)
    (op1 op2 : AstNode.BinaryOp) :
  leaf (Parser.cur p) = Some a ->
  binary_of (Parser.next p) = Some op1 ->
  Lexer.tokens 4 (Parser.lexer p) = [tb; o2; tc; Token.eof] ->
  leaf tb = Some b -> binary_of o2 = Some op2 -> leaf tc = Some c ->
  fst (Parser.parse_statment p)
  = Done (Statement.expression
            (if Parser.precedence (Parser.next p) <? Parser.precedence o2
             then AstNode.expression op1 a (AstNode.expression op2 b c)
             else AstNode.expression op2 (AstNode.expression op1 a b) c))
  /\ (forall rec left,
        Parser.parse_infix_expression rec left (Parser.advance p)
        = (let* right := rec (Parser.precedence (Parser.next p)) in
           ret (AstNode.expression op1 left right))
            (Parser.advance (Parser.advance p)))
  /\ (forall t1 t2,
        In t1 [Token.Plus; Token.Minus] ->
        In t2 [Token.Asterisk; Token.Slash; Token.Percent] ->
        Parser.precedence (Token.oper t1) = Parser.ADD_SUB
        /\ Parser.precedence (Token.oper t2) = Parser.PROD_DIV_MOD
        /\ Parser.precedence (Token.oper t1) < Parser.precedence (Token.oper t2))
  /\ Repl.evaluate "2+3*4" ∅ = (Done 14, ∅)
  /\ Repl.evaluate "(2+3)*4" ∅ = (Done 20, ∅)
  /\ Repl.evaluate "10-3-2" ∅ = (Done 5, ∅).
Proof.
  intros Ha Hop1 Htoks Hb Hop2 Hc.
  split; [|split; [|split; [|repeat split]]].
  - rewrite parse_statment_expression by (eapply binary_not_assign; eassumption).
    destruct (budget_S p) as [fuel ->].
    pose proof (parse_expression_three fuel p tb tc o2 a b c op1 op2
                  Ha Hop1 Htoks Hb Hop2 Hc) as H.
    unfold bind.
    destruct (Parser.parse_expression _ _ p) as [[e|u|] p']; simpl in H;
      try discriminate.
    injection H as ->. reflexivity.
  - intros rec left.
    rewrite (parse_infix_expression_spec rec left (Parser.advance p) op1);
      rewrite advance_cur; [reflexivity | exact Hop1].
  - intros t1 t2 H1 H2. simpl in H1, H2.
    destruct H1 as [<-|[<-|[]]]; destruct H2 as [<-|[<-|[<-|[]]]];
      repeat split.
Qed.

(** The lines a - 3 - c and a - 3 % c. *)
Lemma precedence_and_left_associativity_witness :
  fst (Parser.parse_statment (Parser.new "a - 3 - c"))
  = Done (Statement.expression
            (AstNode.expression AstNode.Sub
               (AstNode.expression AstNode.Sub
                  (AstNode.identifier "a") (AstNode.integer 3))
               (AstNode.identifier "c")))
  /\ fst (Parser.parse_statment (Parser.new "a - 3 % c"))
     = Done (Statement.expression
               (AstNode.expression AstNode.Sub
                  (AstNode.identifier "a")
                  (AstNode.expression AstNode.Mod
                     (AstNode.integer 3) (AstNode.identifier "c")))).
Proof.
  split.
  - refine (proj1 (precedence_and_left_associativity (Parser.new "a - 3 - c")
                     (Token.number 3) (Token.oper Token.Minus)
                     (Token.identifier "c")
                     (AstNode.identifier "a") (AstNode.integer 3)
                     (AstNode.identifier "c") AstNode.Sub AstNode.Sub
                     _ _ _ _ _ _)); reflexivity.
  - refine (proj1 (precedence_and_left_associativity (Parser.new "a - 3 % c")
                     (Token.number 3) (Token.oper Token.Percent)
                     (Token.identifier "c")
                     (AstNode.identifier "a") (AstNode.integer 3)
                     (AstNode.identifier "c") AstNode.Sub AstNode.Mod
                     _ _ _ _ _ _)); reflexivity.
Defined.

(** C5 (as stated, refuted).  On the line *5 the parser reports no error:
    it returns a Statement whose tree is the null pointer, and the REPL
    hands it to the evaluator, which dereferences it. *)
Lemma malformed_input_reaches_evaluator :
  fst (Parser.parse_statment (Parser.new "*5"))
  = Done (Statement.expression nullptr)
  /\ Evaluator.eval_statment (Statement.expression nullptr) ∅
     = (Undefined NullDereference, ∅)
  /\ Repl.evaluate "*5" ∅ = (Undefined NullDereference, ∅).
Proof. repeat split. Qed.

(** C5 (amended).  Malformed input is signalled by a null pointer only.  A
    token that cannot start a prefix term makes [parse_expression] return
    the null pointer at once; after an infix operator such a token leaves
    the null pointer as the right child of the BinaryExpression; a grouped
    expression whose closing parenthesis is missing is replaced by the
    null pointer.  [parse_statment] wraps the tree without a check, and
    evaluating a tree that holds a null pointer is undefined behaviour.  So
    it is for the lines *5, 1+ and (1+2. *)
Theorem malformed_input_yields_null_tree
    (rec : Parser.Precedence -> M Parser.t Expression)
    (fuel : nat) (prec : Parser.Precedence) (p p' : Parser.t)
    (left e : Expression) (op : AstNode.BinaryOp) (ctx : gmap string Z) :
  (starts_prefix (Parser.cur p) = false ->
   Parser.parse_expression (S fuel) prec p = (Done nullptr, p))
  /\ (binary_of (Parser.cur p) = Some op ->
      starts_prefix (Parser.next p) = false ->
      Parser.parse_infix_expression (Parser.parse_expression (S fuel)) left p
      = (Done (AstNode.expression op left nullptr), Parser.advance p))
  /\ (rec Parser.LOWEST (Parser.advance p) = (Done e, p') ->
      Parser.next p' <> Token.oper Token.Rbrace ->
      Parser.parse_grouped_expression rec p = (Done nullptr, p'))
  /\ (has_null e = true ->
      exists u, fst (Evaluator.eval_expression e ctx) = Undefined u)
  /\ fst (Parser.parse_statment (Parser.new "*5"))
     = Done (Statement.expression nullptr)
  /\ fst (Parser.parse_statment (Parser.new "1+"))
     = Done (Statement.expression
               (AstNode.expression AstNode.Add (AstNode.integer 1) nullptr))
  /\ fst (Parser.parse_statment (Parser.new "(1+2"))
     = Done (Statement.expression nullptr)
  /\ Repl.evaluate "*5" ∅ = (Undefined NullDereference, ∅)
  /\ Repl.evaluate "1+" ∅ = (Undefined NullDereference, ∅)
  /\ Repl.evaluate "(1+2" ∅ = (Undefined NullDereference, ∅).
Proof.
  split; [|split; [|split; [|split; [|repeat split]]]].
  - intros H. rewrite parse_expression_S. apply parse_expression_no_prefix, H.
  - intros Hop Hnext.
    rewrite (parse_infix_expression_spec _ left p op Hop). unfold bind.
    rewrite parse_expression_S, parse_expression_no_prefix
      by (rewrite advance_cur; exact Hnext).
    reflexivity.
  - apply parse_grouped_expression_unclosed.
  - apply eval_expression_null.
Qed.

(** The lines =, 1+ and (7, and the tree of a negation with no operand. *)
Lemma malformed_input_yields_null_tree_witness :
  Parser.parse_expression 1 Parser.LOWEST (Parser.new "=")
  = (Done nullptr, Parser.new "=")
  /\ Parser.parse_infix_expression (Parser.parse_expression 1)
       (AstNode.integer 1) (Parser.advance (Parser.new "1+"))
     = (Done (AstNode.expression AstNode.Add (AstNode.integer 1) nullptr),
        Parser.advance (Parser.advance (Parser.new "1+")))
  /\ Parser.parse_grouped_expression (Parser.parse_expression 3) (Parser.new "(7")
     = (Done nullptr, Parser.advance (Parser.new "(7"))
  /\ exists u,
       fst (Evaluator.eval_expression (AstNode.negative nullptr) ∅) = Undefined u.
Proof.
  split; [|split; [|split]].
  - apply (malformed_input_yields_null_tree (Parser.parse_expression 1) 0
             Parser.LOWEST (Parser.new "=") (Parser.new "=") nullptr nullptr
             AstNode.Add ∅).
    reflexivity.
  - apply (malformed_input_yields_null_tree (Parser.parse_expression 1) 0
             Parser.LOWEST (Parser.advance (Parser.new "1+")) (Parser.new "1+")
             (AstNode.integer 1) nullptr AstNode.Add ∅); reflexivity.
  - apply (malformed_input_yields_null_tree (Parser.parse_expression 3) 0
             Parser.LOWEST (Parser.new "(7") (Parser.advance (Parser.new "(7"))
             nullptr (AstNode.integer 7) AstNode.Add ∅);
      [reflexivity | discriminate].
  - apply (malformed_input_yields_null_tree (Parser.parse_expression 1) 0
             Parser.LOWEST (Parser.new "=") (Parser.new "=") nullptr
             (AstNode.negative nullptr) AstNode.Add ∅).
    reflexivity.
Defined.

(** C7 (as stated, refuted).  The line 1 2 yields no error: the parser
    returns the statement made of the first token, leaves the second one
    in its lookahead buffer, and the line evaluates to 1. *)
Lemma trailing_tokens_accepted :
  fst (Parser.parse_statment (Parser.new "1 2"))
  = Done (Statement.expression (AstNode.integer 1))
  /\ Parser.next (snd (Parser.parse_statment (Parser.new "1 2"))) = Token.number 2
  /\ Repl.evaluate "1 2" ∅ = (Done 1, ∅).
Proof. repeat split. Qed.

(** C10.  When the second token is [=], [parse_statment] takes the
    assignment branch whatever the first token is, and its first action is
    to read the member [ident] of the first token.  For an identifier the
    name is that identifier and the right-hand side is parsed after both
    tokens; for any other token (a number, as in the line 5 = 3) the member
    read is not the active one: the name comes from storage that holds no
    string, which is undefined behaviour, and the line is not rejected as
    a parse failure. *)
Theorem assignment_branch_unchecked (p : Parser.t) (name : string) :
  Token.type (Parser.next p) = Token.Assign ->
  (Parser.cur p = Token.identifier name ->
   Parser.parse_statment p
   = (let* expr := Parser.parse_expression (Parser.budget p) Parser.LOWEST in
      ret (Statement.assignment name expr))
       (Parser.advance (Parser.advance p)))
  /\ (Token.ident (Parser.cur p) = None ->
      Parser.parse_statment p = (Undefined InactiveMember, p))
  /\ Parser.cur (Parser.new "5 = 3") = Token.number 5
  /\ Parser.next (Parser.new "5 = 3") = Token.assign
  /\ Parser.parse_statment (Parser.new "5 = 3")
     = (Undefined InactiveMember, Parser.new "5 = 3").
Proof.
  intros Hassign. split; [|split; [|repeat split]].
  - intros Hcur. unfold Parser.parse_statment, bind at 1, get_state.
    rewrite Hassign, Hcur. reflexivity.
  - intros Hnone. unfold Parser.parse_statment, bind at 1, get_state.
    rewrite Hassign. unfold bind. rewrite Hnone. reflexivity.
Qed.

(** The lines ( = 3 and x = 3. *)
Lemma assignment_branch_unchecked_witness :
  Parser.parse_statment (Parser.new "( = 3")
  = (Undefined InactiveMember, Parser.new "( = 3")
  /\ fst (Parser.parse_statment (Parser.new "x = 3"))
     = Done (Statement.assignment "x" (AstNode.integer 3)).
Proof.
  pose proof (assignment_branch_unchecked (Parser.new "( = 3") "x" eq_refl)
    as (_ & H1 & _).
  pose proof (assignment_branch_unchecked (Parser.new "x = 3") "x" eq_refl)
    as (H2 & _).
  split.
  - apply H1. reflexivity.
  - rewrite H2 by reflexivity. reflexivity.
Defined.


(** Processing a line never runs out of fuel. *)
Lemma evaluate_total line (ctx : gmap string Z) :
  fst (Repl.evaluate line ctx) <> OutOfFuel.
Proof.
  unfold Repl.evaluate. pose proof (parse_total line) as Hparse.
  destruct (Parser.parse_statment (Parser.new line)) as [[stmt|u|] p'];
    simpl in *; [|discriminate | contradiction].
  destruct stmt as [expr | lhs rhs]; simpl.
  - apply eval_expression_null.
  - unfold bind. pose proof (proj1 (eval_expression_null rhs ctx)) as H.
    destruct (Evaluator.eval_expression rhs ctx) as [[a|u|] ctx1]; simpl in *;
      [discriminate | discriminate | contradiction].
Qed.

(** * Further properties of the evaluator *)

Lemma wrap_in_int z : in_int (wrap z).
Proof.
  unfold in_int, wrap, INT_MIN, INT_MAX.
  pose proof (Z.mod_pos_bound (z + 2 ^ 31) (2 ^ 32) ltac:(lia)). lia.
Qed.

Lemma wrap_id z : in_int z -> wrap z = z.
Proof.
  unfold in_int, wrap, INT_MIN, INT_MAX. intros H.
  rewrite Z.mod_small; lia.
Qed.

Lemma quot_in_int a b :
  in_int a -> in_int b -> b <> 0 -> ~ (a = INT_MIN /\ b = -1) ->
  in_int (Z.quot a b).
Proof.
  unfold in_int, INT_MIN, INT_MAX. intros Ha Hb Hnz Hov.
  pose proof (Z.quot_rem' a b) as Hqr.
  pose proof (Z.rem_bound_abs a b Hnz) as Hr.
  pose proof (Z.rem_sign_mul a b Hnz) as Hs.
  destruct (Z.eq_dec b (-1)) as [-> | Hb1].
  - lia.
  - destruct (Z.eq_dec b 1) as [-> | Hb2]; [rewrite Z.quot_1_r; lia|].
    assert (Habs : Z.abs (Z.quot a b) <= Z.abs a).
    { destruct (Z.eq_dec a 0) as [-> | Ha0]; [rewrite Z.quot_0_l by lia; lia|].
      pose proof (Z.quot_abs a b Hnz) as Hq. rewrite <- Hq.
      apply Z.lt_le_incl, Z.quot_lt; lia. }
    lia.
Qed.

Lemma rem_in_int a b : in_int a -> in_int b -> b <> 0 -> in_int (Z.rem a b).
Proof.
  unfold in_int, INT_MIN, INT_MAX. intros Ha Hb Hnz.
  pose proof (Z.rem_bound_abs a b Hnz). lia.
Qed.

Lemma env_ok_lookup (ctx : gmap string Z) k v :
  env_ok ctx -> ctx !! k = Some v -> in_int v.
Proof. intros H Hk. exact (H k v Hk). Qed.

Lemma env_ok_insert (ctx : gmap string Z) k v :
  env_ok ctx -> in_int v -> env_ok (<[k := v]> ctx).
Proof. intros H Hv. apply map_Forall_insert_2; assumption. Qed.

Lemma zero_in_int : in_int 0.
Proof. unfold in_int, INT_MIN, INT_MAX. lia. Qed.

(** Evaluation keeps [int]s: from literals and bindings in range, the
    bindings stay in range and so is the value returned. *)
Lemma eval_expression_range e : forall ctx,
  tree_ok e -> env_ok ctx ->
  env_ok (snd (Evaluator.eval_expression e ctx))
  /\ forall v, fst (Evaluator.eval_expression e ctx) = Done v -> in_int v.
Proof.
  induction e as [|num|op e1 IH1 e2 IH2|e IH|ident]; intros ctx Ht Hc.
  - split; [exact Hc | discriminate].
  - split; [exact Hc | intros v [= <-]; exact Ht].
  - destruct Ht as [Ht1 Ht2]. rewrite eval_expression_binary.
    destruct (IH1 ctx Ht1 Hc) as [Hc1 Hv1].
    assert (Hgo : forall f : Z -> Z -> M (gmap string Z) Z,
      (forall a b c, in_int a -> in_int b ->
         snd (f a b c) = c /\ forall v, fst (f a b c) = Done v -> in_int v) ->
      let m := (let* l := Evaluator.eval_expression e1 in
                let* r := Evaluator.eval_expression e2 in f l r) in
      env_ok (snd (m ctx)) /\ forall v, fst (m ctx) = Done v -> in_int v).
    { intros f Hf. unfold bind.
      destruct (Evaluator.eval_expression e1 ctx) as [[a|u|] ctx1]; simpl in *;
        [|split; [exact Hc1 | discriminate]..].
      destruct (IH2 ctx1 Ht2 Hc1) as [Hc2 Hv2].
      destruct (Evaluator.eval_expression e2 ctx1) as [[b|u|] ctx2]; simpl in *;
        [|split; [exact Hc2 | discriminate]..].
      destruct (Hf a b ctx2 (Hv1 a eq_refl) (Hv2 b eq_refl)) as [Hs Hd].
      rewrite Hs. split; [exact Hc2 | exact Hd]. }
    destruct op; simpl; apply Hgo; intros a b c Ha Hb.
    + split; [reflexivity | intros v [= <-]; apply wrap_in_int].
    + split; [reflexivity | intros v [= <-]; apply wrap_in_int].
    + split; [reflexivity | intros v [= <-]; apply wrap_in_int].
    + unfold Evaluator.int_div. destruct (Z.eqb_spec b 0); [split; [reflexivity | discriminate]|].
      destruct ((a =? INT_MIN) && (b =? -1)) eqn:Hov;
        [split; [reflexivity | discriminate]|].
      split; [reflexivity | intros v [= <-]]. apply quot_in_int; try assumption.
      intros [-> ->]. discriminate.
    + unfold Evaluator.int_rem. destruct (Z.eqb_spec b 0); [split; [reflexivity | discriminate]|].
      destruct ((a =? INT_MIN) && (b =? -1)) eqn:Hov;
        [split; [reflexivity | discriminate]|].
      split; [reflexivity | intros v [= <-]]. apply rem_in_int; assumption.
  - simpl in *. unfold Evaluator.eval_negative, bind.
    destruct (IH ctx Ht Hc) as [Hc1 Hv1].
    destruct (Evaluator.eval_expression e ctx) as [[a|u|] ctx1]; simpl in *;
      [|split; [exact Hc1 | discriminate]..].
    split; [exact Hc1 | intros v [= <-]; apply wrap_in_int].
  - simpl. unfold Evaluator.eval_identifier, Evaluator.subscript.
    destruct (ctx !! ident) as [v0|] eqn:Hl; simpl.
    + split; [exact Hc | intros v [= <-]; eapply env_ok_lookup; eassumption].
    + split; [apply env_ok_insert; [exact Hc | apply zero_in_int]
             | intros v [= <-]; apply zero_in_int].
Qed.

Lemma eval_statment_range stmt (ctx : gmap string Z) :
  stmt_ok stmt -> env_ok ctx ->
  env_ok (snd (Evaluator.eval_statment stmt ctx))
  /\ forall v, fst (Evaluator.eval_statment stmt ctx) = Done v -> in_int v.
Proof.
  destruct stmt as [expr | lhs rhs]; simpl; intros Ht Hc.
  - apply eval_expression_range; assumption.
  - unfold bind. destruct (eval_expression_range rhs ctx Ht Hc) as [Hc1 Hv1].
    destruct (Evaluator.eval_expression rhs ctx) as [[a|u|] ctx1]; simpl in *;
      [|split; [exact Hc1 | discriminate]..].
    split; [apply env_ok_insert; [exact Hc1 | apply Hv1; reflexivity]
           | intros v [= <-]; apply Hv1; reflexivity].
Qed.

(** * Further properties of the parser *)

Lemma returns_ret {A} (a : A) p (Q : A -> Parser.t -> Prop) :
  Q a p -> returns (ret a) p Q.
Proof. intros H. exact H. Qed.

Lemma returns_bind {A B} (m : M Parser.t A) (k : A -> M Parser.t B) p
    (Q : B -> Parser.t -> Prop) :
  returns m p (fun a p1 => returns (k a) p1 Q) -> returns (bind m k) p Q.
Proof.
  unfold returns, bind. destruct (m p) as [[a|u|] p1]; intros H; exact H.
Qed.

Lemma returns_weaken {A} (m : M Parser.t A) p (Q Q' : A -> Parser.t -> Prop) :
  returns m p Q -> (forall a p', Q a p' -> Q' a p') -> returns m p Q'.
Proof.
  unfold returns. destruct (m p) as [[a|u|] p1]; intros H HQ; auto.
Qed.

Lemma returns_get_state p (Q : Parser.t -> Parser.t -> Prop) :
  Q p p -> returns get_state p Q.
Proof. intros H. exact H. Qed.

Lemma returns_read_token p (Q : unit -> Parser.t -> Prop) :
  Q tt (Parser.advance p) -> returns Parser.read_token p Q.
Proof. intros H. exact H. Qed.

Lemma returns_active {A} (a : A) p (Q : A -> Parser.t -> Prop) :
  Q a p -> returns (active (Some a)) p Q.
Proof. intros H. exact H. Qed.

Lemma returns_eq {A} (m m' : M Parser.t A) p p' (Q : A -> Parser.t -> Prop) :
  m p = m' p' -> returns m' p' Q -> returns m p Q.
Proof. unfold returns. intros ->. exact (fun H => H). Qed.

Lemma read_number_loop_in_int fuel : forall num l,
  in_int num -> in_int (fst (Lexer.read_number_loop fuel num l)).
Proof.
  induction fuel as [|fuel IH]; intros num l Hnum; simpl; [exact Hnum|].
  destruct (Lexer.is_digit (Lexer.ch l)); [|exact Hnum].
  apply IH, wrap_in_int.
Qed.

(** The numbers the lexer returns are [int]s. *)
Lemma next_token_tok_ok l : tok_ok (fst (Lexer.next_token l)).
Proof.
  unfold Lexer.next_token.
  destruct (Token.Op_of_char _); [exact I|].
  destruct (Ascii.eqb _ "="); [exact I|].
  destruct (Ascii.eqb _ Lexer.NUL); [exact I|].
  destruct (Lexer.is_digit _).
  - unfold Lexer.read_number.
    pose proof (read_number_loop_in_int
                  (String.length (Lexer.input (Lexer.skipspace l))) 0
                  (Lexer.skipspace l) zero_in_int) as H.
    destruct (Lexer.read_number_loop _ 0 _). exact H.
  - destruct (Lexer.is_letter _); exact I.
Qed.

Lemma advance_ok p :
  parser_ok p ->
  parser_ok (Parser.advance p)
  /\ (weight (Parser.advance p)
      + (if Token.not_eof (Parser.cur p) then 1 else 0)
      + (if Token.not_eof (Parser.next p) then 1 else 0) <= weight p)%nat.
Proof.
  intros (Hwf & Hc & Hn). destruct (advance_weight p Hwf) as [Hwf1 Hw1].
  split; [|exact Hw1]. split; [exact Hwf1|].
  rewrite advance_cur, advance_next. split; [exact Hn | apply next_token_tok_ok].
Qed.

Lemma new_parser_ok input : parser_ok (Parser.new input).
Proof.
  split; [apply new_parser_wf|]. unfold Parser.new.
  pose proof (next_token_tok_ok (Lexer.new input)) as H1.
  destruct (Lexer.next_token (Lexer.new input)) as [c l1].
  pose proof (next_token_tok_ok l1) as H2.
  destruct (Lexer.next_token l1) as [n l2]. split; assumption.
Qed.

Lemma precedence_nonneg tok : 0 <= Parser.precedence tok.
Proof. destruct tok as [|[]| | |]; simpl; unfold Parser.LOWEST, Parser.ADD_SUB, Parser.PROD_DIV_MOD; lia. Qed.

Lemma precedence_pos_binary tok :
  0 < Parser.precedence tok -> exists b, binary_of tok = Some b.
Proof.
  destruct tok as [|[]| | |]; simpl; unfold Parser.LOWEST; intros H;
    try lia; eauto.
Qed.

Lemma leaf_tree_ok tok e : tok_ok tok -> leaf tok = Some e -> tree_ok e.
Proof. destruct tok; simpl; intros H [= <-]; exact H. Qed.

Lemma fine_trans p p1 e p2 :
  (weight p1 <= weight p)%nat -> fine p1 e p2 -> fine p e p2.
Proof. intros Hle (Hok & Hw & Ht). repeat split; try apply Hok; [lia | exact Ht]. Qed.

Ltac fine_with H := split; [exact H | split; [lia | try exact I]].

Section Safety.

Variable rec : Parser.Precedence -> M Parser.t Expression.
Variable fuel : nat.
Hypothesis rec_returns : forall prec p,
  0 <= prec -> parser_ok p -> (weight p < fuel)%nat ->
  returns (rec prec) p (good prec p).

Lemma rec_fine prec p0 p :
  0 <= prec -> parser_ok p -> (weight p < fuel)%nat ->
  (weight p <= weight p0)%nat ->
  returns (rec prec) p (fine p0).
Proof.
  intros Hprec Hok Hw Hle.
  eapply returns_weaken; [apply rec_returns; assumption|].
  intros e p' [Hfine _]. eapply fine_trans; eassumption.
Qed.

Lemma parse_prefix_expression_returns p op :
  parser_ok p -> Parser.cur p = Token.oper op -> (weight p < S fuel)%nat ->
  returns (Parser.parse_prefix_expression rec) p (fine p).
Proof.
  intros Hok Hcur Hw. destruct (advance_ok p Hok) as [Hok1 Hw1].
  rewrite Hcur in Hw1. simpl in Hw1.
  unfold Parser.parse_prefix_expression.
  apply returns_bind, returns_get_state. rewrite Hcur. cbn [Token.op].
  apply returns_bind, returns_active, returns_bind, returns_read_token.
  assert (Hrec : returns (rec Parser.PREFIX) (Parser.advance p) (fine p))
    by (apply rec_fine; [unfold Parser.PREFIX; lia | exact Hok1 | lia | lia]).
  destruct op; try (apply returns_ret; fine_with Hok1).
  - exact Hrec.
  - apply returns_bind. eapply returns_weaken; [exact Hrec|].
    intros child p' H. apply returns_ret. exact H.
Qed.

Lemma parse_grouped_expression_returns p :
  parser_ok p -> Token.not_eof (Parser.cur p) = true -> (weight p < S fuel)%nat ->
  returns (Parser.parse_grouped_expression rec) p (fine p).
Proof.
  intros Hok Hcur Hw. destruct (advance_ok p Hok) as [Hok1 Hw1].
  rewrite Hcur in Hw1.
  unfold Parser.parse_grouped_expression.
  apply returns_bind, returns_read_token, returns_bind.
  eapply returns_weaken;
    [apply (rec_fine Parser.LOWEST p);
       [unfold Parser.LOWEST; lia | exact Hok1 | lia | lia]|].
  intros expr p2 (Hok2 & Hw2 & Ht). apply returns_bind, returns_get_state.
  destruct (advance_ok p2 Hok2) as [Hok3 Hw3].
  destruct (Parser.next p2) as [|op| | |];
    try (apply returns_ret; fine_with Hok2; exact Ht).
  cbn [Token.type Token.op]. apply returns_bind, returns_active.
  destruct op; try (apply returns_ret; fine_with Hok2; exact Ht).
  apply returns_bind, returns_read_token, returns_ret.
  fine_with Hok3. exact Ht.
Qed.

Lemma parse_infix_loop_returns n : forall prec left p,
  0 <= prec -> tree_ok left -> parser_ok p ->
  (weight p < n)%nat -> (n <= S fuel)%nat ->
  returns (Parser.parse_infix_loop rec n prec left) p
    (fun e p' => fine p e p' /\ stops prec p').
Proof.
  induction n as [|n IH]; intros prec left p Hprec Hleft Hok Hw Hn; [lia|].
  destruct (Token.not_eof (Parser.next p)
            && (prec <? Parser.precedence (Parser.next p))) eqn:Hcond.
  - apply andb_true_iff in Hcond as [Hne Hlt]. apply Z.ltb_lt in Hlt.
    destruct (precedence_pos_binary (Parser.next p) ltac:(lia)) as [b Hb].
    eapply returns_eq; [exact (parse_infix_loop_step rec n prec left p b Hb Hlt)|].
    destruct (advance_ok p Hok) as [Hok1 Hw1]. rewrite Hne in Hw1.
    destruct (advance_ok _ Hok1) as [Hok2 Hw2].
    rewrite advance_cur, Hne in Hw2.
    apply returns_bind.
    eapply returns_weaken;
      [apply rec_returns; [apply precedence_nonneg | exact Hok2 | lia]|].
    intros right p3 [(Hok3 & Hw3 & Ht3) _].
    eapply returns_weaken;
      [apply IH; [exact Hprec | split; assumption | exact Hok3 | lia | lia]|].
    intros e p4 [Hfine Hstop].
    split; [eapply fine_trans; [|exact Hfine]; lia | exact Hstop].
  - unfold returns. rewrite parse_infix_loop_stop by exact Hcond.
    split; [fine_with Hok; exact Hleft | exact Hcond].
Qed.

Lemma parse_expression_body_returns prec p :
  0 <= prec -> parser_ok p -> (weight p < S fuel)%nat ->
  returns (Parser.parse_expression_body rec (S fuel) prec) p (good prec p).
Proof.
  intros Hprec Hok Hw.
  assert (Hcont : forall prefix : M Parser.t Expression,
    returns prefix p (fine p) ->
    returns (let* left := prefix in Parser.parse_infix_loop rec (S fuel) prec left)
      p (good prec p)).
  { intros prefix Hprefix. apply returns_bind.
    eapply returns_weaken; [exact Hprefix|].
    intros left p1 (Hok1 & Hw1 & Ht1).
    eapply returns_weaken;
      [apply parse_infix_loop_returns;
         [exact Hprec | exact Ht1 | exact Hok1 | lia | lia]|].
    intros e p2 [Hfine Hstop].
    split; [eapply fine_trans; eassumption | intros _; exact Hstop]. }
  destruct (starts_prefix (Parser.cur p)) eqn:Hsp.
  - unfold Parser.parse_expression_body. cbv beta zeta.
    apply returns_bind, returns_get_state.
    destruct (Parser.cur p) as [|op|num|ident|] eqn:Hcur; try discriminate;
      cbn [Token.type Token.op].
    + apply returns_bind, returns_active.
      destruct op; try discriminate; apply Hcont.
      * eapply parse_prefix_expression_returns; eassumption.
      * eapply parse_prefix_expression_returns; eassumption.
      * apply parse_grouped_expression_returns;
          [exact Hok | rewrite Hcur; reflexivity | exact Hw].
    + apply Hcont. unfold Parser.parse_integer_literal.
      apply returns_bind, returns_get_state. rewrite Hcur. cbn [Token.num].
      apply returns_bind, returns_active, returns_ret.
      fine_with Hok.
      destruct Hok as (_ & Hc & _). rewrite Hcur in Hc. exact Hc.
    + apply Hcont. unfold Parser.parse_identifier.
      apply returns_bind, returns_get_state. rewrite Hcur. cbn [Token.ident].
      apply returns_bind, returns_active, returns_ret.
      fine_with Hok.
  - unfold returns. rewrite parse_expression_no_prefix by exact Hsp.
    split; [fine_with Hok | intros H; congruence].
Qed.

End Safety.

Lemma parse_expression_returns fuel : forall prec p,
  0 <= prec -> parser_ok p -> (weight p < fuel)%nat ->
  returns (Parser.parse_expression fuel prec) p (good prec p).
Proof.
  induction fuel as [|fuel IH]; intros prec p Hprec Hok Hw; [lia|].
  rewrite parse_expression_S. apply parse_expression_body_returns; assumption.
Qed.

Lemma parse_statment_good p :
  parser_ok p ->
  (Token.type (Parser.next p) = Token.Assign ->
   exists name, Parser.cur p = Token.identifier name) ->
  returns Parser.parse_statment p
    (fun stmt p' =>
       stmt_ok stmt /\ parser_ok p'
       /\ (Token.type (Parser.next p) <> Token.Assign ->
           starts_prefix (Parser.cur p) = true -> stops Parser.LOWEST p')).
Proof.
  intros Hok Hident. pose proof (weight_budget p (proj1 Hok)) as Hb.
  unfold Parser.parse_statment. apply returns_bind, returns_get_state.
  assert (Hexpr : Token.type (Parser.next p) <> Token.Assign ->
    returns (let* expr := Parser.parse_expression (Parser.budget p) Parser.LOWEST in
             ret (Statement.expression expr)) p
      (fun stmt p' =>
         stmt_ok stmt /\ parser_ok p'
         /\ (Token.type (Parser.next p) <> Token.Assign ->
             starts_prefix (Parser.cur p) = true -> stops Parser.LOWEST p'))).
  { intros Hne. apply returns_bind.
    eapply returns_weaken;
      [apply parse_expression_returns;
         [unfold Parser.LOWEST; lia | exact Hok | exact Hb]|].
    intros e p' [(Hok' & _ & Ht) Hstop]. apply returns_ret.
    split; [exact Ht | split; [exact Hok' | intros _; exact Hstop]]. }
  destruct (Token.type (Parser.next p)) eqn:Htype;
    try (apply Hexpr; discriminate).
  destruct (Hident eq_refl) as [name Hcur]. rewrite Hcur. cbn [Token.ident].
  apply returns_bind, returns_active.
  destruct (advance_ok p Hok) as [Hok1 Hw1].
  destruct (advance_ok _ Hok1) as [Hok2 Hw2].
  apply returns_bind, returns_read_token, returns_bind, returns_read_token.
  apply returns_bind.
  eapply returns_weaken;
    [apply parse_expression_returns;
       [unfold Parser.LOWEST; lia | exact Hok2 | lia]|].
  intros e p' [(Hok' & _ & Ht) _]. apply returns_ret.
  split; [exact Ht | split; [exact Hok' | intros H; congruence]].
Qed.

Lemma stops_lowest_not_binary p :
  stops Parser.LOWEST p -> binary_of (Parser.next p) = None.
Proof.
  unfold stops. destruct (Parser.next p) as [|[]| | |]; simpl;
    intros H; try discriminate; reflexivity.
Qed.

(** The statement parsed from a line has literals in range, whenever one
    is returned. *)
Lemma parse_statment_stmt_ok line stmt p' :
  Parser.parse_statment (Parser.new line) = (Done stmt, p') -> stmt_ok stmt.
Proof.
  intros H. pose proof (new_parser_ok line) as Hok.
  destruct (Token.type (Parser.next (Parser.new line))) eqn:Htype;
    try (pose proof (parse_statment_good _ Hok ltac:(congruence)) as Hg;
         unfold returns in Hg; rewrite H in Hg; apply Hg).
  destruct (Parser.cur (Parser.new line)) as [|op|num|ident|] eqn:Hcur;
    try (unfold Parser.parse_statment, bind at 1, get_state in H;
         rewrite Htype in H; unfold bind in H; rewrite Hcur in H;
         discriminate).
  pose proof (parse_statment_good _ Hok ltac:(eauto)) as Hg.
  unfold returns in Hg. rewrite H in Hg. apply Hg.
Qed.

Lemma eof_unrecognized l :
  lexer_wf l -> fst (Lexer.next_token l) = Token.eof ->
  recognized (Lexer.ch (Lexer.skipspace l)) = false.
Proof.
  intros Hwf. unfold Lexer.next_token, recognized.
  destruct (Token.Op_of_char _); [discriminate|].
  destruct (Ascii.eqb _ "="); [discriminate|].
  destruct (Ascii.eqb _ Lexer.NUL) eqn:Hnul.
  - apply Ascii.eqb_eq in Hnul. rewrite Hnul. reflexivity.
  - destruct (Lexer.is_digit _);
      [destruct (Lexer.read_number _); discriminate|].
    destruct (Lexer.is_letter _); [discriminate | reflexivity].
Qed.

(** After the end-of-input token the lexer returns it again. *)
Lemma eof_again l :
  lexer_wf l -> fst (Lexer.next_token l) = Token.eof ->
  fst (Lexer.next_token (snd (Lexer.next_token l))) = Token.eof.
Proof.
  intros Hwf Heof. pose proof (eof_unrecognized l Hwf Heof) as Hun.
  rewrite (next_token_unrecognized l Hun). simpl.
  rewrite next_token_unrecognized; [reflexivity|].
  rewrite skipspace_idem by exact Hwf. exact Hun.
Qed.


(** * Further properties of the lexer *)

Lemma get_in_range s : forall n,
  (n < String.length s)%nat -> exists c, String.get n s = Some c.
Proof.
  induction s as [|a s IH]; intros n Hn; simpl in *; [lia|].
  destruct n as [|n]; [eauto | apply IH; lia].
Qed.

Lemma substring_cons s : forall n m c,
  String.get n s = Some c ->
  String.substring n (S m) s = String c (String.substring (S n) m s).
Proof.
  induction s as [|a s IH]; intros n m c Hget; simpl in *; [discriminate|].
  destruct n as [|n].
  - injection Hget as ->. destruct s; reflexivity.
  - rewrite (IH n m c Hget). reflexivity.
Qed.

Lemma substring_zero s : forall n, String.substring n 0 s = EmptyString.
Proof.
  induction s as [|a s IH]; intros [|n]; simpl; try reflexivity. apply IH.
Qed.

Lemma wf_get l :
  lexer_wf l -> Lexer.ch l <> Lexer.NUL ->
  String.get (Lexer.cur l) (Lexer.input l) = Some (Lexer.ch l).
Proof.
  intros Hwf Hnz. pose proof (wf_in_range l Hwf Hnz) as Hlt.
  destruct Hwf as [_ Hch]. unfold char_at in Hch.
  destruct (Nat.leb_spec (String.length (Lexer.input l)) (Lexer.cur l)); [lia|].
  destruct (get_in_range _ _ Hlt) as [c Hc]. rewrite Hc in *. congruence.
Qed.

Lemma decimal_acc s : forall acc,
  decimal acc s = acc * 10 ^ Z.of_nat (String.length s) + decimal 0 s.
Proof.
  induction s as [|c s IH]; intros acc; simpl decimal; simpl String.length.
  - simpl. lia.
  - rewrite IH, (IH (0 * 10 + Lexer.digit_value c)).
    rewrite Nat2Z.inj_succ, Z.pow_succ_r by lia. ring.
Qed.

Lemma wrap_wrap_lin a m c : wrap (wrap a * m + c) = wrap (a * m + c).
Proof.
  unfold wrap. f_equal.
  pose proof (Z.div_mod (a + 2 ^ 31) (2 ^ 32) ltac:(lia)) as Hdm.
  replace ((a + 2 ^ 31) mod 2 ^ 32 - 2 ^ 31)
    with (a + (- ((a + 2 ^ 31) / 2 ^ 32)) * 2 ^ 32) by lia.
  replace ((a + - ((a + 2 ^ 31) / 2 ^ 32) * 2 ^ 32) * m + c + 2 ^ 31)
    with (a * m + c + 2 ^ 31 + (- ((a + 2 ^ 31) / 2 ^ 32) * m) * 2 ^ 32) by ring.
  apply Z_mod_plus_full.
Qed.

Lemma wrap_decimal_step num d s :
  wrap (decimal (int_add (int_mul num 10) d) s)
  = wrap (decimal (num * 10 + d) s).
Proof.
  rewrite (decimal_acc s (int_add _ _)), (decimal_acc s (num * 10 + d)).
  unfold int_add, int_mul. rewrite wrap_wrap_lin.
  replace ((wrap (num * 10) + d) * 10 ^ Z.of_nat (String.length s) + decimal 0 s)
    with (wrap (num * 10) * 10 ^ Z.of_nat (String.length s)
          + (d * 10 ^ Z.of_nat (String.length s) + decimal 0 s)) by ring.
  rewrite wrap_wrap_lin. f_equal. ring.
Qed.

(** [read_number]: the digits passed, read in base 10 and reduced to an
    [int]. *)
Lemma read_number_loop_decimal fuel : forall num l,
  lexer_wf l -> in_int num ->
  (String.length (Lexer.input l) - Lexer.cur l <= fuel)%nat ->
  let l' := snd (Lexer.read_number_loop fuel num l) in
  let run := String.substring (Lexer.cur l) (Lexer.cur l' - Lexer.cur l)
               (Lexer.input l) in
  fst (Lexer.read_number_loop fuel num l) = wrap (decimal num run)
  /\ string_forall Lexer.is_digit run = true.
Proof.
  induction fuel as [|fuel IH]; intros num l Hwf Hnum Hfuel; simpl.
  - rewrite Nat.sub_diag, substring_zero. simpl.
    split; [symmetry; apply wrap_id, Hnum | reflexivity].
  - destruct (Lexer.is_digit (Lexer.ch l)) eqn:Hd.
    + pose proof (digit_not_NUL _ Hd) as Hnz.
      pose proof (wf_in_range l Hwf Hnz) as Hlt.
      pose proof (wf_get l Hwf Hnz) as Hget.
      set (num' := int_add (int_mul num 10) (Lexer.digit_value (Lexer.ch l))).
      destruct (read_number_loop_spec fuel num' (Lexer.read_char l)
                  (read_char_wf l)) as (_ & Hwf' & _ & Hnx & _).
      { simpl. destruct Hwf as [Hn _]. rewrite Hn. lia. }
      destruct (IH num' (Lexer.read_char l) (read_char_wf l) (wrap_in_int _))
        as [Hval Hall].
      { simpl. destruct Hwf as [Hn _]. rewrite Hn. lia. }
      set (l' := snd (Lexer.read_number_loop fuel num' (Lexer.read_char l))) in *.
      simpl in Hval, Hall, Hnx.
      assert (Hcur : (Lexer.cur l' - Lexer.cur l
                      = S (Lexer.cur l' - Lexer.next l))%nat).
      { destruct Hwf as [Hn _]. destruct Hwf' as [Hn' _]. lia. }
      rewrite Hcur, (substring_cons _ _ _ _ Hget).
      assert (Hnext : Lexer.next l = S (Lexer.cur l)) by apply Hwf.
      rewrite <- Hnext. simpl decimal. simpl string_forall.
      rewrite Hd, Hall, Hval. split; [apply wrap_decimal_step | reflexivity].
    + rewrite Nat.sub_diag, substring_zero. simpl.
      split; [symmetry; apply wrap_id, Hnum | reflexivity].
Qed.

Lemma read_identifier_loop_letters fuel : forall l,
  lexer_wf l ->
  (String.length (Lexer.input l) - Lexer.cur l <= fuel)%nat ->
  let l' := Lexer.read_identifier_loop fuel l in
  string_forall Lexer.is_letter
    (String.substring (Lexer.cur l) (Lexer.cur l' - Lexer.cur l) (Lexer.input l))
  = true.
Proof.
  induction fuel as [|fuel IH]; intros l Hwf Hfuel; simpl.
  - rewrite Nat.sub_diag, substring_zero. reflexivity.
  - destruct (Lexer.is_letter (Lexer.ch l)) eqn:Hd.
    + pose proof (letter_not_NUL _ Hd) as Hnz.
      pose proof (wf_in_range l Hwf Hnz) as Hlt.
      pose proof (wf_get l Hwf Hnz) as Hget.
      destruct (read_identifier_loop_spec fuel (Lexer.read_char l)
                  (read_char_wf l)) as (_ & Hwf' & _ & Hnx & _).
      { simpl. destruct Hwf as [Hn _]. rewrite Hn. lia. }
      pose proof (IH (Lexer.read_char l) (read_char_wf l)) as Hall.
      set (l' := Lexer.read_identifier_loop fuel (Lexer.read_char l)) in *.
      simpl in Hall, Hnx.
      assert (Hcur : (Lexer.cur l' - Lexer.cur l
                      = S (Lexer.cur l' - Lexer.next l))%nat).
      { destruct Hwf as [Hn _]. destruct Hwf' as [Hn' _]. lia. }
      rewrite Hcur, (substring_cons _ _ _ _ Hget).
      assert (Hnext : Lexer.next l = S (Lexer.cur l)) by apply Hwf.
      rewrite <- Hnext. simpl string_forall. rewrite Hd. apply Hall.
      destruct Hwf as [Hn _]. rewrite Hn. lia.
    + rewrite Nat.sub_diag, substring_zero. reflexivity.
Qed.

(** X1.  A number token is the decimal value of the digits from the
    first character after the spaces up to the first character that is not
    a digit, reduced to 32 bits in two's complement: there is at least one
    digit, no digit is left behind, and nothing reports an overflow. *)
Theorem number_token_value (l l' : Lexer.t) (n : Z) :
  lexer_wf l ->
  Lexer.next_token l = (Token.number n, l') ->
  let start := Lexer.cur (Lexer.skipspace l) in
  let run := String.substring start (Lexer.cur l' - start) (Lexer.input l) in
  n = wrap (decimal 0 run)
  /\ string_forall Lexer.is_digit run = true
  /\ run <> EmptyString
  /\ Lexer.is_digit (Lexer.ch l') = false
  /\ in_int n.
Proof.
  intros Hwf Htok start run.
  destruct (skipspace_spec l Hwf) as (_ & Hwf0 & Hin0 & _).
  unfold Lexer.next_token in Htok. fold start in run.
  set (l0 := Lexer.skipspace l) in *.
  destruct (Token.Op_of_char (Lexer.ch l0)); [discriminate|].
  destruct (Ascii.eqb (Lexer.ch l0) "="); [discriminate|].
  destruct (Ascii.eqb (Lexer.ch l0) Lexer.NUL); [discriminate|].
  destruct (Lexer.is_digit (Lexer.ch l0)) eqn:Hd;
    [|destruct (Lexer.is_letter (Lexer.ch l0)); discriminate].
  pose proof (read_number_stops l0 Hwf0) as Hstop.
  unfold Lexer.read_number in Htok, Hstop.
  destruct (read_number_loop_decimal (String.length (Lexer.input l0)) 0 l0
              Hwf0 zero_in_int ltac:(lia)) as [Hval Hall].
  destruct (read_number_loop_spec (String.length (Lexer.input l0)) 0 l0
              Hwf0 ltac:(lia)) as (_ & Hwf1 & _ & _ & Hlt).
  specialize (Hlt Hd).
  destruct (Lexer.read_number_loop _ 0 l0) as [num l1]. simpl in *.
  injection Htok as -> ->. rewrite Hin0 in Hval, Hall.
  split; [exact Hval|]. split; [exact Hall|]. split; [|split; [exact Hstop|]].
  - pose proof (wf_get l0 Hwf0 (digit_not_NUL _ Hd)) as Hget.
    rewrite Hin0 in Hget. unfold run, start.
    replace (Lexer.cur l' - Lexer.cur l0)%nat
      with (S (Lexer.cur l' - Lexer.next l0)).
    + rewrite (substring_cons _ _ _ _ Hget). discriminate.
    + destruct Hwf0 as [H0 _]. destruct Hwf1 as [H1 _]. lia.
  - rewrite Hval. apply wrap_in_int.
Qed.

(** The second token of the line x 4294967298+1 is the number 2. *)
Lemma number_token_value_witness :
  2 = wrap (decimal 0 "4294967298")
  /\ string_forall Lexer.is_digit "4294967298" = true.
Proof.
  pose proof (number_token_value (Lexer.after 1 (Lexer.new "x 4294967298+1"))
                (Lexer.after 2 (Lexer.new "x 4294967298+1")) 2
                (proj1 (after_spec 1 _ (new_wf "x 4294967298+1"))))
    as H.
  destruct H as (H1 & H2 & _); [vm_compute; reflexivity|].
  split; [exact H1 | exact H2].
Defined.

(** X2.  An identifier token is the text from the first character after
    the spaces up to the first character that is neither a letter nor an
    underscore: it is not empty, it holds letters and underscores only,
    and a digit ends it. *)
Theorem identifier_token_name (l l' : Lexer.t) (name : string) :
  lexer_wf l ->
  Lexer.next_token l = (Token.identifier name, l') ->
  let start := Lexer.cur (Lexer.skipspace l) in
  name = String.substring start (Lexer.cur l' - start) (Lexer.input l)
  /\ string_forall Lexer.is_letter name = true
  /\ name <> EmptyString
  /\ Lexer.is_letter (Lexer.ch l') = false.
Proof.
  intros Hwf Htok start.
  destruct (skipspace_spec l Hwf) as (_ & Hwf0 & Hin0 & _).
  unfold Lexer.next_token in Htok.
  set (l0 := Lexer.skipspace l) in *.
  destruct (Token.Op_of_char (Lexer.ch l0)); [discriminate|].
  destruct (Ascii.eqb (Lexer.ch l0) "="); [discriminate|].
  destruct (Ascii.eqb (Lexer.ch l0) Lexer.NUL); [discriminate|].
  destruct (Lexer.is_digit (Lexer.ch l0));
    [destruct (Lexer.read_number l0); discriminate|].
  destruct (Lexer.is_letter (Lexer.ch l0)) eqn:Hd; [|discriminate].
  pose proof (read_identifier_stops l0 Hwf0) as Hstop.
  unfold Lexer.read_identifier in Htok, Hstop. simpl in Htok, Hstop.
  pose proof (read_identifier_loop_letters (String.length (Lexer.input l0)) l0
                Hwf0 ltac:(lia)) as Hall.
  destruct (read_identifier_loop_spec (String.length (Lexer.input l0)) l0
              Hwf0 ltac:(lia)) as (_ & Hwf1 & Hin1 & _ & Hlt).
  specialize (Hlt Hd). simpl in Hall, Hin1.
  injection Htok as <- <-. rewrite Hin1.
  split; [unfold start; rewrite Hin0; reflexivity|].
  split; [exact Hall|]. split; [|exact Hstop].
  pose proof (wf_get l0 Hwf0 (letter_not_NUL _ Hd)) as Hget.
  replace (Lexer.cur (Lexer.read_identifier_loop (String.length (Lexer.input l0)) l0)
           - Lexer.cur l0)%nat
    with (S (Lexer.cur (Lexer.read_identifier_loop
                          (String.length (Lexer.input l0)) l0)
             - Lexer.next l0)).
  - rewrite (substring_cons _ _ _ _ Hget). discriminate.
  - destruct Hwf0 as [H0 _]. destruct Hwf1 as [H1 _]. lia.
Qed.

(** The first token of the line   ab_c1 is the identifier ab_c. *)
Lemma identifier_token_name_witness :
  string_forall Lexer.is_letter "ab_c" = true
  /\ Lexer.is_letter (Lexer.ch (Lexer.after 1 (Lexer.new "  ab_c1"))) = false.
Proof.
  pose proof (identifier_token_name (Lexer.new "  ab_c1")
                (Lexer.after 1 (Lexer.new "  ab_c1")) "ab_c"
                (new_wf "  ab_c1")) as H.
  destruct H as (_ & H2 & _ & H4); [vm_compute; reflexivity|].
  split; [exact H2 | exact H4].
Defined.

Lemma tokens_run_out k : forall l,
  lexer_wf l -> (remaining l <= k)%nat ->
  fst (Lexer.next_token (Lexer.after k l)) = Token.eof.
Proof.
  induction k as [|k IH]; intros l Hwf Hrem.
  - simpl. destruct (next_token_spec l Hwf) as (_ & _ & H).
    destruct (fst (Lexer.next_token l)); simpl in H; try lia. reflexivity.
  - destruct (next_token_spec l Hwf) as (Hwf' & _ & H).
    destruct (Token.not_eof (fst (Lexer.next_token l))) eqn:Hne.
    + simpl. apply IH; [exact Hwf' | lia].
    + assert (Heof : fst (Lexer.next_token l) = Token.eof)
        by (destruct (fst (Lexer.next_token l)); try discriminate; reflexivity).
      pose proof (eof_unrecognized l Hwf Heof) as Hun.
      rewrite (after_stuck l Hwf Hun k).
      rewrite next_token_unrecognized; [reflexivity|].
      rewrite skipspace_idem by exact Hwf. exact Hun.
Qed.

(** X3.  A line has at most as many tokens as characters: every token
    but the end-of-input token uses up at least one character, so from
    the call number [length input] on (counting from zero), [next_token]
    returns the end-of-input token. *)
Theorem token_count_bounded (input : string) (k : nat) :
  (String.length input <= k)%nat ->
  fst (Lexer.next_token (Lexer.after k (Lexer.new input))) = Token.eof.
Proof.
  intros Hk. apply tokens_run_out; [apply new_wf|].
  unfold remaining. simpl. lia.
Qed.

(** The line 1+2 has three characters and three tokens. *)
Lemma token_count_bounded_witness :
  fst (Lexer.next_token (Lexer.after 3 (Lexer.new "1+2"))) = Token.eof.
Proof. apply token_count_bounded. simpl. lia. Defined.

(** X4.  [parse_statment] returns a statement for every line, except
    when the second token is [=] and the first is not an identifier: no
    other read of a token's union finds a member that is not the active
    one, and the recursion ends.  The literals of the statement are
    [int]s. *)
Theorem parse_statment_safe (line : string) :
  (Token.type (Parser.next (Parser.new line)) = Token.Assign ->
   exists name, Parser.cur (Parser.new line) = Token.identifier name) ->
  exists stmt p',
    Parser.parse_statment (Parser.new line) = (Done stmt, p')
    /\ stmt_ok stmt.
Proof.
  intros Hident.
  pose proof (parse_statment_good _ (new_parser_ok line) Hident) as H.
  unfold returns in H.
  destruct (Parser.parse_statment (Parser.new line)) as [[stmt|u|] p'];
    try contradiction.
  exists stmt, p'. split; [reflexivity | apply H].
Qed.

(** The malformed line ) * ( 4294967296 + and the assignment x = ). *)
Lemma parse_statment_safe_witness :
  (exists stmt p',
     Parser.parse_statment (Parser.new ") * ( 4294967296 +") = (Done stmt, p')
     /\ stmt_ok stmt)
  /\ (exists stmt p',
        Parser.parse_statment (Parser.new "x = )") = (Done stmt, p')
        /\ stmt_ok stmt).
Proof.
  split; apply parse_statment_safe.
  - intros H. vm_compute in H. discriminate H.
  - intros _. exists "x"%string. vm_compute. reflexivity.
Defined.

(** X5.  An expression statement never ends in front of a binary
    operator: when the first token of the line can start a term,
    [parse_statment] goes on until the next token is the end of the input
    or a token with no infix meaning. *)
Theorem parse_statment_consumes_operators
    (line : string) (stmt : Statement.t) (p' : Parser.t) :
  Token.type (Parser.next (Parser.new line)) <> Token.Assign ->
  starts_prefix (Parser.cur (Parser.new line)) = true ->
  Parser.parse_statment (Parser.new line) = (Done stmt, p') ->
  binary_of (Parser.next p') = None.
Proof.
  intros Hne Hsp Hparse.
  pose proof (parse_statment_good _ (new_parser_ok line) ltac:(congruence)) as H.
  unfold returns in H. rewrite Hparse in H.
  apply stops_lowest_not_binary, H; assumption.
Qed.

(** The line 1 + 2 * 3 ) - 4 stops at the parenthesis. *)
Lemma parse_statment_consumes_operators_witness :
  binary_of (Parser.next (snd (Parser.parse_statment (Parser.new "1 + 2 * 3 ) - 4"))))
  = None.
Proof.
  eapply (parse_statment_consumes_operators "1 + 2 * 3 ) - 4").
  - vm_compute. discriminate.
  - vm_compute. reflexivity.
  - vm_compute. reflexivity.
Defined.

Lemma binary_of_op_token op : binary_of (op_token op) = Some op.
Proof. destruct op; reflexivity. Qed.

Lemma not_eof_op_token op : Token.not_eof (op_token op) = true.
Proof. destruct op; reflexivity. Qed.

Lemma not_eof_leaf_token e : is_leaf e -> Token.not_eof (leaf_token e) = true.
Proof. destruct e; unfold is_leaf; simpl; intros H; try discriminate; reflexivity. Qed.

Lemma tokens_SS m l :
  Lexer.tokens (S (S m)) l
  = fst (Lexer.next_token l)
    :: fst (Lexer.next_token (snd (Lexer.next_token l)))
    :: Lexer.tokens m (snd (Lexer.next_token (snd (Lexer.next_token l)))).
Proof. reflexivity. Qed.

Lemma double_S k : (2 * S k = S (S (2 * k)))%nat.
Proof. lia. Qed.

(** The tokens in front of the parser after two calls of [read_token]. *)
Lemma chain_tokens_advance p o b rest t_end :
  Parser.next p :: Lexer.tokens (2 * S (length rest)) (Parser.lexer p)
  = chain_tokens ((o, b) :: rest) ++ [t_end] ->
  let p2 := Parser.advance (Parser.advance p) in
  Parser.next p = op_token o
  /\ Parser.cur p2 = leaf_token b
  /\ Parser.next p2 :: Lexer.tokens (2 * length rest) (Parser.lexer p2)
     = chain_tokens rest ++ [t_end].
Proof.
  rewrite double_S, tokens_SS. unfold chain_tokens. simpl.
  intros [= Hn Hb Hrest]. split; [exact Hn|].
  rewrite advance_cur, !advance_next, !advance_lexer.
  split; [exact Hb | exact Hrest].
Qed.

(** The loop of [parse_expression] on a chain of operators and leaves
    where no operator binds tighter than the one before. *)
Lemma parse_infix_loop_chain rest : forall n fuel prec left p t_end,
  Parser.next p :: Lexer.tokens (2 * length rest) (Parser.lexer p)
  = chain_tokens rest ++ [t_end] ->
  Forall (fun ob => is_leaf (snd ob)
                    /\ prec < Parser.precedence (op_token (fst ob))) rest ->
  descending rest ->
  Parser.precedence t_end <= prec ->
  (length rest < n)%nat ->
  Parser.parse_infix_loop (Parser.parse_expression (S fuel)) n prec left p
  = (Done (left_chain left rest),
     Nat.iter (2 * length rest) Parser.advance p).
Proof.
  induction rest as [|[o b] rest IH];
    intros n fuel prec left p t_end Htoks Hall Hdesc Hend Hn.
  - destruct n as [|n]; [simpl in Hn; lia|].
    simpl in Htoks. injection Htoks as Hnext.
    change (Nat.iter (2 * length []) Parser.advance p) with p.
    apply parse_infix_loop_stop. rewrite Hnext.
    apply andb_false_intro2, Z.ltb_ge, Hend.
  - destruct n as [|n]; [simpl in Hn; lia|].
    destruct (chain_tokens_advance p o b rest t_end Htoks)
      as (Hnext & Hcur2 & Htoks2).
    apply Forall_cons in Hall as [[Hleaf Hprec] Hall]. cbn [fst snd] in Hleaf, Hprec.
    rewrite (parse_infix_loop_step _ n prec left p o)
      by (rewrite Hnext; first [apply binary_of_op_token | exact Hprec]).
    unfold bind.
    rewrite (parse_expression_leaf_stop fuel _ _ b).
    + rewrite (IH n fuel prec _ _ t_end Htoks2 Hall).
      * cbn [length]. rewrite double_S, !Nat.iter_succ_r. reflexivity.
      * destruct rest as [|[o2 b2] rest]; [exact I | apply Hdesc].
      * exact Hend.
      * simpl in Hn. lia.
    + rewrite Hcur2. exact Hleaf.
    + rewrite Hnext. destruct rest as [|[o2 b2] rest].
      * simpl in Htoks2. injection Htoks2 as ->.
        apply andb_false_intro2, Z.ltb_ge. lia.
      * unfold chain_tokens in Htoks2. simpl in Htoks2.
        injection Htoks2 as -> _.
        apply andb_false_intro2, Z.ltb_ge. apply Hdesc.
Qed.

(** The operands and operators of a chain use up the input. *)
Lemma chain_length rest : forall p t_end,
  lexer_wf (Parser.lexer p) ->
  Forall (fun ob => is_leaf (snd ob)) rest ->
  Parser.next p :: Lexer.tokens (2 * length rest) (Parser.lexer p)
  = chain_tokens rest ++ [t_end] ->
  (2 * length rest <= remaining (Parser.lexer p) + 1)%nat.
Proof.
  induction rest as [|[o b] rest IH]; intros p t_end Hwf Hall Htoks;
    [simpl; lia|].
  destruct (chain_tokens_advance p o b rest t_end Htoks) as (_ & Hcur2 & Htoks2).
  apply Forall_cons in Hall as [Hleaf Hall]. simpl in Hleaf.
  destruct (advance_weight p Hwf) as [Hwf1 _].
  destruct (advance_weight _ Hwf1) as [Hwf2 _].
  pose proof (next_token_spec _ Hwf) as (_ & _ & Hr1).
  pose proof (next_token_spec _ (proj1 (next_token_spec _ Hwf))) as (_ & _ & Hr2).
  rewrite advance_cur, advance_next in Hcur2.
  rewrite Hcur2, (not_eof_leaf_token b Hleaf) in Hr1.
  specialize (IH _ t_end Hwf2 Hall Htoks2).
  rewrite !advance_lexer in IH.
  destruct rest as [|[o2 b2] rest]; [simpl; lia|].
  unfold chain_tokens in Htoks2. simpl in Htoks2. injection Htoks2 as Hn2 _.
  rewrite advance_next, advance_lexer in Hn2.
  rewrite Hn2, not_eof_op_token in Hr2.
  cbn [length] in *. lia.
Qed.

(** X6.  A chain [a o1 b1 o2 b2 ...] of leaves and binary operators, of
    any length, in which no operator binds tighter than the one before it,
    is parsed to the tree grouped to the left,
    [((a o1 b1) o2 b2) ...]. *)
Theorem operator_chain_groups_left
    (line : string) (a : Expression)
    (rest : list (AstNode.BinaryOp * Expression)) :
  is_leaf a ->
  Forall (fun ob => is_leaf (snd ob)) rest ->
  descending rest ->
  upcoming (2 * length rest) (Parser.new line)
  = leaf_token a :: chain_tokens rest ++ [Token.eof] ->
  fst (Parser.parse_statment (Parser.new line))
  = Done (Statement.expression (left_chain a rest)).
Proof.
  intros Ha Hall Hdesc Hup. unfold upcoming in Hup.
  injection Hup as Hcur Htoks.
  set (p := Parser.new line) in *.
  pose proof (chain_length rest p Token.eof (new_parser_wf line) Hall Htoks)
    as Hlen.
  assert (Hne : Token.type (Parser.next p) <> Token.Assign).
  { destruct rest as [|[o b] rest].
    - simpl in Htoks. injection Htoks as ->. discriminate.
    - unfold chain_tokens in Htoks. simpl in Htoks. injection Htoks as -> _.
      destruct o; discriminate. }
  rewrite parse_statment_expression by exact Hne.
  unfold bind, Parser.budget.
  rewrite parse_expression_S.
  rewrite (parse_expression_leaf _ _ _ _ a) by (rewrite Hcur; exact Ha).
  replace (3 * S (S (String.length (Lexer.input (Parser.lexer p)))))%nat
    with (S (3 * S (S (String.length (Lexer.input (Parser.lexer p)))) - 1))
    by lia.
  rewrite (parse_infix_loop_chain rest _ _ Parser.LOWEST a p Token.eof Htoks).
  - reflexivity.
  - eapply Forall_impl; [exact Hall|]. intros [o b] Hb. split; [exact Hb|].
    destruct o; reflexivity.
  - exact Hdesc.
  - reflexivity.
  - unfold remaining in Hlen. lia.
Qed.

(** The line 8 / 2 * 3 - 1 + x. *)
Lemma operator_chain_groups_left_witness :
  fst (Parser.parse_statment (Parser.new "8 / 2 * 3 - 1 + x"))
  = Done (Statement.expression
            (left_chain (AstNode.integer 8)
               [(AstNode.Div, AstNode.integer 2);
                (AstNode.Prod, AstNode.integer 3);
                (AstNode.Sub, AstNode.integer 1);
                (AstNode.Add, AstNode.identifier "x")])).
Proof.
  apply operator_chain_groups_left.
  - reflexivity.
  - repeat constructor.
  - simpl. unfold Parser.PROD_DIV_MOD, Parser.ADD_SUB. lia.
  - vm_compute. reflexivity.
Defined.

Lemma upcoming_S n p :
  upcoming (S n) p = Parser.cur p :: upcoming n (Parser.advance p).
Proof.
  unfold upcoming. rewrite advance_cur, advance_next, advance_lexer. reflexivity.
Qed.

Lemma upcoming_cons n p t ts :
  upcoming (S n) p = t :: ts ->
  Parser.cur p = t /\ upcoming n (Parser.advance p) = ts.
Proof. rewrite upcoming_S. intros [= H1 H2]. split; assumption. Qed.

(** Asking the lexer for fewer tokens gives a prefix. *)
Lemma tokens_firstn n : forall m l,
  (n <= m)%nat -> Lexer.tokens n l = firstn n (Lexer.tokens m l).
Proof.
  induction n as [|n IH]; intros [|m] l H; try reflexivity; try lia.
  cbn [Lexer.tokens firstn]. f_equal. apply IH. lia.
Qed.

Lemma upcoming_shorter n m p :
  (n <= m)%nat -> upcoming n p = firstn (S (S n)) (upcoming m p).
Proof.
  intros H. unfold upcoming. cbn [firstn].
  rewrite <- tokens_firstn by exact H. reflexivity.
Qed.

Lemma upcoming_tail n p :
  Parser.next p :: Lexer.tokens n (Parser.lexer p) = tl (upcoming n p).
Proof. reflexivity. Qed.

Lemma parse_expression_body_group rec n prec p :
  Parser.cur p = Token.oper Token.Lbrace ->
  Parser.parse_expression_body rec n prec p
  = (let* left := Parser.parse_grouped_expression rec in
     Parser.parse_infix_loop rec n prec left) p.
Proof.
  intros Hcur. unfold Parser.parse_expression_body, bind at 1, get_state.
  rewrite Hcur. reflexivity.
Qed.

Lemma parse_grouped_expression_closed rec p e p' :
  rec Parser.LOWEST (Parser.advance p) = (Done e, p') ->
  Parser.next p' = Token.oper Token.Rbrace ->
  Parser.parse_grouped_expression rec p = (Done e, Parser.advance p').
Proof.
  intros Hrec Hnext.
  unfold Parser.parse_grouped_expression, Parser.read_token, modify, bind,
    get_state.
  rewrite Hrec, Hnext. reflexivity.
Qed.

(** [( b o c )] in front of a parser with enough fuel: the tree of
    [b o c], and the parser on the closing parenthesis. *)
Lemma parse_group_of_two fuel p b o c t_end :
  is_leaf b -> is_leaf c ->
  upcoming 4 p
  = [Token.oper Token.Lbrace; leaf_token b; op_token o; leaf_token c;
     Token.oper Token.Rbrace; t_end] ->
  Parser.parse_grouped_expression (Parser.parse_expression (S (S fuel))) p
  = (Done (AstNode.expression o b c), Nat.iter 4 Parser.advance p)
  /\ Parser.next (Nat.iter 4 Parser.advance p) = t_end.
Proof.
  intros Hb Hc Hup.
  apply upcoming_cons in Hup as [Hcur0 Hup].
  set (p1 := Parser.advance p) in *.
  assert (Hcur1 : Parser.cur p1 = leaf_token b)
    by (apply upcoming_cons in Hup as [H _]; exact H).
  assert (Htoks : Parser.next p1 :: Lexer.tokens (2 * length [(o, c)]) (Parser.lexer p1)
                  = chain_tokens [(o, c)] ++ [Token.oper Token.Rbrace]).
  { change (2 * length [(o, c)])%nat with 2%nat.
    rewrite upcoming_tail, (upcoming_shorter 2 3), Hup by lia. reflexivity. }
  assert (Hinner : Parser.parse_expression (S (S fuel)) Parser.LOWEST p1
                   = (Done (AstNode.expression o b c),
                      Nat.iter 2 Parser.advance p1)).
  { rewrite parse_expression_S.
    rewrite (parse_expression_leaf _ _ _ _ b) by (rewrite Hcur1; exact Hb).
    rewrite (parse_infix_loop_chain [(o, c)] _ fuel Parser.LOWEST b p1
               (Token.oper Token.Rbrace) Htoks).
    - reflexivity.
    - constructor; [|constructor]. split; [exact Hc | destruct o; reflexivity].
    - exact I.
    - reflexivity.
    - simpl. lia. }
  assert (Hend : upcoming 1 (Nat.iter 3 Parser.advance p)
                 = [leaf_token c; Token.oper Token.Rbrace; t_end]).
  { apply upcoming_cons in Hup as [_ Hup].
    apply upcoming_cons in Hup as [_ Hup]. exact Hup. }
  split.
  - rewrite (parse_grouped_expression_closed _ p _ _ Hinner); [reflexivity|].
    unfold upcoming in Hend. subst p1. cbn [Nat.iter nat_rect] in *. congruence.
  - apply upcoming_cons in Hend as [_ Hend].
    unfold upcoming in Hend. cbn [Nat.iter nat_rect Lexer.tokens] in *.
    congruence.
Qed.

Lemma budget_7 p : exists fuel, Parser.budget p = S (S (S (S (S (S (S fuel)))))).
Proof.
  exists (3 * String.length (Lexer.input (Parser.lexer p)))%nat.
  unfold Parser.budget. lia.
Qed.

(** X7.  Parentheses override precedence and leave no node: whatever
    the two operators are, [a o1 ( b o2 c )] is parsed to the tree of [o1]
    over [a] and the tree of [b o2 c], and [( a o1 b ) o2 c] to the tree
    of [o2] over the tree of [a o1 b] and [c]. *)
Theorem parentheses_group
    (p : Parser.t) (a b c : Expression) (o1 o2 : AstNode.BinaryOp) :
  is_leaf a -> is_leaf b -> is_leaf c ->
  (upcoming 6 p
   = [leaf_token a; op_token o1; Token.oper Token.Lbrace; leaf_token b;
      op_token o2; leaf_token c; Token.oper Token.Rbrace; Token.eof] ->
   fst (Parser.parse_statment p)
   = Done (Statement.expression
             (AstNode.expression o1 a (AstNode.expression o2 b c))))
  /\ (upcoming 6 p
      = [Token.oper Token.Lbrace; leaf_token a; op_token o1; leaf_token b;
         Token.oper Token.Rbrace; op_token o2; leaf_token c; Token.eof] ->
      fst (Parser.parse_statment p)
      = Done (Statement.expression
                (AstNode.expression o2 (AstNode.expression o1 a b) c))).
Proof.
  intros Ha Hb Hc. destruct (budget_7 p) as [fuel Hbudget]. split; intros Hup.
  - assert (Hcur : Parser.cur p = leaf_token a)
      by (unfold upcoming in Hup; congruence).
    assert (Hnext : Parser.next p = op_token o1)
      by (unfold upcoming in Hup; congruence).
    apply upcoming_cons in Hup as [_ Hup].
    apply upcoming_cons in Hup as [_ Hup].
    set (p2 := Parser.advance (Parser.advance p)) in *.
    assert (Hcur2 : Parser.cur p2 = Token.oper Token.Lbrace)
      by (unfold upcoming in Hup; congruence).
    destruct (parse_group_of_two (S (S (S fuel))) p2 b o2 c Token.eof Hb Hc Hup)
      as [Hgroup Hend].
    rewrite parse_statment_expression
      by (rewrite Hnext; destruct o1; discriminate).
    unfold bind. rewrite Hbudget, parse_expression_S.
    rewrite (parse_expression_leaf _ _ _ _ a) by (rewrite Hcur; exact Ha).
    rewrite (parse_infix_loop_step _ _ _ _ p o1)
      by (rewrite Hnext; first [apply binary_of_op_token
                               | destruct o1; reflexivity]).
    fold p2. unfold bind.
    rewrite parse_expression_S, parse_expression_body_group by exact Hcur2.
    unfold bind. rewrite Hgroup.
    rewrite parse_infix_loop_stop by (rewrite Hend; reflexivity).
    rewrite parse_infix_loop_stop by (rewrite Hend; reflexivity).
    reflexivity.
  - assert (Hcur : Parser.cur p = Token.oper Token.Lbrace)
      by (unfold upcoming in Hup; congruence).
    assert (Hnext : Parser.next p = leaf_token a)
      by (unfold upcoming in Hup; congruence).
    assert (Hup4 : upcoming 4 p
                   = [Token.oper Token.Lbrace; leaf_token a; op_token o1;
                      leaf_token b; Token.oper Token.Rbrace; op_token o2]).
    { rewrite (upcoming_shorter 4 6), Hup by lia. reflexivity. }
    destruct (parse_group_of_two (S (S (S (S fuel)))) p a o1 b (op_token o2)
                Ha Hb Hup4) as [Hgroup Hend].
    do 4 apply upcoming_cons in Hup as [_ Hup].
    set (p4 := Nat.iter 4 Parser.advance p) in *.
    change (Parser.advance (Parser.advance (Parser.advance (Parser.advance p))))
      with p4 in Hup.
    assert (Htoks : Parser.next p4
                      :: Lexer.tokens (2 * length [(o2, c)]) (Parser.lexer p4)
                    = chain_tokens [(o2, c)] ++ [Token.eof])
      by (change (2 * length [(o2, c)])%nat with 2%nat;
          rewrite upcoming_tail, Hup; reflexivity).
    rewrite parse_statment_expression
      by (rewrite Hnext; destruct a; discriminate).
    unfold bind. rewrite Hbudget, parse_expression_S.
    rewrite parse_expression_body_group by exact Hcur.
    unfold bind. rewrite Hgroup.
    rewrite (parse_infix_loop_chain [(o2, c)] _ _ Parser.LOWEST _ p4 Token.eof
               Htoks).
    + reflexivity.
    + constructor; [|constructor]. split; [exact Hc | destruct o2; reflexivity].
    + exact I.
    + reflexivity.
    + simpl. lia.
Qed.

(** The lines 2 * (3 + x) and (2 - 3) - x. *)
Lemma parentheses_group_witness :
  fst (Parser.parse_statment (Parser.new "2 * (3 + x)"))
  = Done (Statement.expression
            (AstNode.expression AstNode.Prod (AstNode.integer 2)
               (AstNode.expression AstNode.Add (AstNode.integer 3)
                  (AstNode.identifier "x"))))
  /\ fst (Parser.parse_statment (Parser.new "(2 - 3) - x"))
     = Done (Statement.expression
               (AstNode.expression AstNode.Sub
                  (AstNode.expression AstNode.Sub (AstNode.integer 2)
                     (AstNode.integer 3))
                  (AstNode.identifier "x"))).
Proof.
  split.
  - apply (proj1 (parentheses_group (Parser.new "2 * (3 + x)")
                    (AstNode.integer 2) (AstNode.integer 3)
                    (AstNode.identifier "x") AstNode.Prod AstNode.Add
                    eq_refl eq_refl eq_refl)).
    vm_compute. reflexivity.
  - apply (proj2 (parentheses_group (Parser.new "(2 - 3) - x")
                    (AstNode.integer 2) (AstNode.integer 3)
                    (AstNode.identifier "x") AstNode.Sub AstNode.Sub
                    eq_refl eq_refl eq_refl)).
    vm_compute. reflexivity.
Defined.

(** X8.  [eval_expression] returns exactly when the tree has a value in
    the environment read with unbound names counting for 0 (no null
    pointer, no division fault); it then returns that value and leaves
    the environment it started from with, in addition, every identifier
    of the tree that was not bound, bound to 0. *)
Theorem eval_expression_characterized
    (e : Expression) (ctx ctx' : gmap string Z) (v : Z) :
  Evaluator.eval_expression e ctx = (Done v, ctx')
  <-> value e ctx = Done v /\ ctx' = materialize (names e) ctx.
Proof.
  split.
  - intros H. apply (operand_order_irrelevant (fun _ => false)) in H. apply H.
  - intros [Hv ->]. rewrite eval_ordered_left. apply eval_ordered_returns, Hv.
Qed.

(** X9.  What a returning evaluation yields, value and environment, is
    the same whether each binary operator evaluates its left or its right
    operand first: the code may rely on neither order. *)
Theorem eval_expression_any_operand_order
    (right_first : AstNode.BinaryOp -> bool)
    (e : Expression) (ctx ctx' : gmap string Z) (v : Z) :
  Evaluator.eval_expression e ctx = (Done v, ctx') ->
  eval_ordered right_first e ctx = (Done v, ctx').
Proof. intros H. apply (operand_order_irrelevant right_first) in H. apply H. Qed.

(** The tree a + b * a evaluated right operand first, a and b unbound. *)
Lemma eval_expression_any_operand_order_witness :
  eval_ordered (fun _ => true)
    (AstNode.expression AstNode.Add (AstNode.identifier "a")
       (AstNode.expression AstNode.Prod (AstNode.identifier "b")
          (AstNode.identifier "a"))) {["c" := 4]}
  = (Done 0, <["a" := 0]> (<["b" := 0]> {["c" := 4]})).
Proof.
  rewrite (eval_expression_any_operand_order (fun _ => true) _ {["c" := 4]}
             (<["a" := 0]> (<["b" := 0]> {["c" := 4]})) 0); reflexivity.
Defined.

(** X10.  Evaluating an expression a second time returns the same value
    and changes nothing: all the names it reads are bound after the first
    evaluation. *)
Theorem eval_expression_again
    (e : Expression) (ctx ctx' : gmap string Z) (v : Z) :
  Evaluator.eval_expression e ctx = (Done v, ctx') ->
  Evaluator.eval_expression e ctx' = (Done v, ctx').
Proof.
  intros H. apply (operand_order_irrelevant (fun _ => false)) in H.
  destruct H as (_ & Hv & ->).
  rewrite eval_ordered_left.
  rewrite (eval_ordered_returns _ e _ v).
  - rewrite materialize_materialize, (idemp_L (∪)). reflexivity.
  - rewrite <- Hv. apply value_ext. intros x. apply materialize_lookup.
Qed.

(** The line x * y + 1 where only x is bound. *)
Lemma eval_expression_again_witness :
  Evaluator.eval_expression
    (AstNode.expression AstNode.Add
       (AstNode.expression AstNode.Prod (AstNode.identifier "x")
          (AstNode.identifier "y")) (AstNode.integer 1))
    (<["y" := 0]> {["x" := 3]})
  = (Done 1, <["y" := 0]> {["x" := 3]}).
Proof.
  apply (eval_expression_again _ {["x" := 3]}). reflexivity.
Defined.

(** X11.  After an assignment statement has returned [v], the assigned
    name reads back as [v], by [get_var] and by evaluating the identifier,
    which no longer changes the environment; a name that is neither the
    assigned one nor an identifier of the right-hand side is bound as
    before. *)
Theorem assignment_read_back
    (name : string) (rhs : Expression) (ctx ctx' : gmap string Z) (v : Z) :
  Evaluator.eval_statment (Statement.assignment name rhs) ctx = (Done v, ctx') ->
  Evaluator.get_var name ctx' = Some v
  /\ Evaluator.eval_expression (AstNode.identifier name) ctx' = (Done v, ctx')
  /\ forall other, other <> name -> other ∉ names rhs ->
       Evaluator.get_var other ctx' = Evaluator.get_var other ctx.
Proof.
  simpl. unfold bind. intros H.
  destruct (Evaluator.eval_expression rhs ctx) as [[a|u|] ctx1] eqn:He;
    try discriminate.
  injection H as <- <-. unfold Evaluator.get_var.
  split; [apply lookup_insert_eq|]. split.
  - simpl. unfold Evaluator.eval_identifier, Evaluator.subscript.
    rewrite lookup_insert_eq. reflexivity.
  - intros other Hne Hnot. rewrite lookup_insert_ne by congruence.
    apply (operand_order_irrelevant (fun _ => false)) in He.
    destruct He as (_ & _ & ->). unfold materialize.
    rewrite lookup_union, zeros_lookup.
    destruct (decide (other ∈ names rhs)); [contradiction|].
    destruct (ctx !! other); reflexivity.
Qed.

(** The assignment x = y + 2 where z is bound and y is not. *)
Lemma assignment_read_back_witness :
  Evaluator.get_var "x" (<["x" := 2]> (<["y" := 0]> {["z" := 9]})) = Some 2
  /\ Evaluator.get_var "z" (<["x" := 2]> (<["y" := 0]> {["z" := 9]}))
     = Evaluator.get_var "z" {["z" := 9]}.
Proof.
  pose proof (assignment_read_back "x"
                (AstNode.expression AstNode.Add (AstNode.identifier "y")
                   (AstNode.integer 2))
                {["z" := 9]} (<["x" := 2]> (<["y" := 0]> {["z" := 9]})) 2)
    as H.
  destruct H as (H1 & _ & H3); [reflexivity|].
  split; [exact H1|]. apply H3; [discriminate|]. vm_compute. intros H. discriminate H.
Defined.

(** X12.  Division and remainder truncate toward zero and fit together:
    when the operands evaluate to [a] and [b], with [b] not 0 and not
    [INT_MIN / -1], [l / r] and [l % r] evaluate to [q] and [m] with
    [a = b * q + m], [|m| < |b|], and [m] zero or of the sign of [a]. *)
Theorem division_and_remainder
    (l r : Expression) (ctx ctx1 ctx2 : gmap string Z) (a b : Z) :
  Evaluator.eval_expression l ctx = (Done a, ctx1) ->
  Evaluator.eval_expression r ctx1 = (Done b, ctx2) ->
  b <> 0 -> ~ (a = INT_MIN /\ b = -1) ->
  exists q m,
    Evaluator.eval_expression (AstNode.expression AstNode.Div l r) ctx
    = (Done q, ctx2)
    /\ Evaluator.eval_expression (AstNode.expression AstNode.Mod l r) ctx
       = (Done m, ctx2)
    /\ a = b * q + m /\ Z.abs m < Z.abs b /\ 0 <= a * m
    /\ Z.abs q <= Z.abs a.
Proof.
  intros Hl Hr Hnz Hov. exists (Z.quot a b), (Z.rem a b).
  assert (Hz : (b =? 0) = false) by (apply Z.eqb_neq, Hnz).
  assert (Ho : (a =? INT_MIN) && (b =? -1) = false).
  { apply andb_false_iff.
    destruct (Z.eqb_spec a INT_MIN), (Z.eqb_spec b (-1)); auto.
    exfalso. apply Hov. split; assumption. }
  repeat split.
  - rewrite eval_expression_binary. simpl. unfold bind. rewrite Hl, Hr.
    unfold Evaluator.int_div. rewrite Hz, Ho. reflexivity.
  - rewrite eval_expression_binary. simpl. unfold bind. rewrite Hl, Hr.
    unfold Evaluator.int_rem. rewrite Hz, Ho. reflexivity.
  - apply Z.quot_rem'.
  - apply Z.rem_bound_abs, Hnz.
  - rewrite Z.mul_comm. apply Z.rem_sign_mul, Hnz.
  - pose proof (Z.quot_rem' a b). pose proof (Z.rem_bound_abs a b Hnz).
    pose proof (Z.rem_sign_mul a b Hnz). nia.
Qed.

(** The operands -7 and 2: quotient -3, remainder -1. *)
Lemma division_and_remainder_witness :
  exists q m,
    Evaluator.eval_expression
      (AstNode.expression AstNode.Div (AstNode.negative (AstNode.integer 7))
         (AstNode.integer 2)) ∅ = (Done q, ∅)
    /\ Evaluator.eval_expression
         (AstNode.expression AstNode.Mod (AstNode.negative (AstNode.integer 7))
            (AstNode.integer 2)) ∅ = (Done m, ∅)
    /\ -7 = 2 * q + m /\ Z.abs m < Z.abs 2 /\ 0 <= -7 * m
    /\ Z.abs q <= Z.abs (-7).
Proof.
  apply (division_and_remainder (AstNode.negative (AstNode.integer 7))
           (AstNode.integer 2) ∅ ∅ ∅ (-7) 2);
    [reflexivity | reflexivity | discriminate |].
  intros [H _]. discriminate H.
Defined.

(** X13.  The variable interface of the evaluator: [set_var] binds the
    name so that [get_var] finds the value, replacing an earlier one, and
    touches no other name; [clear_var] unbinds the name only; after
    [clear_vars] no name is bound; [get_var] fails on a name that is not
    bound, where evaluating the identifier would bind it to 0. *)
Theorem variable_interface
    (ctx : gmap string Z) (ident other : string) (v w : Z) :
  Evaluator.get_var ident (snd (Evaluator.set_var ident v ctx)) = Some v
  /\ snd ((Evaluator.set_var ident w ;; Evaluator.set_var ident v) ctx)
     = snd (Evaluator.set_var ident v ctx)
  /\ Evaluator.get_var ident (snd (Evaluator.clear_var ident ctx)) = None
  /\ Evaluator.get_var other (snd (Evaluator.clear_vars ctx)) = None
  /\ (other <> ident ->
      Evaluator.get_var other (snd (Evaluator.set_var ident v ctx))
      = Evaluator.get_var other ctx
      /\ Evaluator.get_var other (snd (Evaluator.clear_var ident ctx))
         = Evaluator.get_var other ctx)
  /\ (Evaluator.get_var ident ctx = None ->
      Evaluator.get_var ident
        (snd (Evaluator.eval_expression (AstNode.identifier ident) ctx))
      = Some 0).
Proof.
  unfold Evaluator.get_var, Evaluator.set_var, Evaluator.clear_var,
    Evaluator.clear_vars, modify, bind. simpl.
  split; [apply lookup_insert_eq|].
  split; [apply insert_insert_eq|].
  split; [apply lookup_delete_eq|].
  split; [apply lookup_empty|].
  split.
  - intros Hne. split.
    + apply lookup_insert_ne. congruence.
    + apply lookup_delete_ne. congruence.
  - intros Hnone. unfold Evaluator.eval_identifier, Evaluator.subscript.
    rewrite Hnone. simpl. apply lookup_insert_eq.
Qed.

(** The names x and y in an environment that binds only y. *)
Lemma variable_interface_witness :
  Evaluator.get_var "y" (snd (Evaluator.set_var "x" 1 {["y" := 2]})) = Some 2
  /\ Evaluator.get_var "x"
       (snd (Evaluator.eval_expression (AstNode.identifier "x") {["y" := 2]}))
     = Some 0.
Proof.
  pose proof (variable_interface {["y" := 2]} "x" "y" 1 5)
    as (_ & _ & _ & _ & H5 & H6).
  split; [apply H5; discriminate | apply H6; reflexivity].
Defined.

Lemma int_neg_involutive v : in_int v -> int_neg (int_neg v) = v.
Proof.
  intros Hv. unfold int_neg.
  destruct (Z.eq_dec v INT_MIN) as [-> | Hne]; [reflexivity|].
  rewrite (wrap_id (- v)); [rewrite Z.opp_involutive; apply wrap_id, Hv|].
  unfold in_int, INT_MIN, INT_MAX in *. lia.
Qed.

(** X14.  Two negations cancel, [INT_MIN] included: for a tree with
    literals in range, in an environment with values in range, the
    negation of the negation of a tree evaluates as the tree itself. *)
Theorem double_negation (e : Expression) (ctx : gmap string Z) :
  tree_ok e -> env_ok ctx ->
  Evaluator.eval_expression (AstNode.negative (AstNode.negative e)) ctx
  = Evaluator.eval_expression e ctx.
Proof.
  intros Ht Hc. destruct (eval_expression_range e ctx Ht Hc) as [_ Hv].
  cbn [Evaluator.eval_expression]. unfold Evaluator.eval_negative, bind.
  cbn [Evaluator.eval_expression]. unfold Evaluator.eval_negative, bind.
  destruct (Evaluator.eval_expression e ctx) as [[a|u|] ctx1]; try reflexivity.
  unfold ret. rewrite int_neg_involutive by (apply Hv; reflexivity).
  reflexivity.
Qed.

(** The identifier m bound to [INT_MIN]. *)
Lemma double_negation_witness :
  Evaluator.eval_expression
    (AstNode.negative (AstNode.negative (AstNode.identifier "m")))
    {["m" := INT_MIN]}
  = Evaluator.eval_expression (AstNode.identifier "m") {["m" := INT_MIN]}.
Proof.
  apply double_negation; [exact I|].
  apply map_Forall_singleton. split; [reflexivity | discriminate].
Defined.

(** * Further properties of the read-eval-print loop *)

Lemma evaluate_range line (ctx : gmap string Z) :
  env_ok ctx ->
  env_ok (snd (Repl.evaluate line ctx))
  /\ forall v, fst (Repl.evaluate line ctx) = Done v -> in_int v.
Proof.
  intros Hc. unfold Repl.evaluate.
  destruct (Parser.parse_statment (Parser.new line)) as [[stmt|u|] p'] eqn:Hp;
    [|split; [exact Hc | discriminate]..].
  apply eval_statment_range; [|exact Hc].
  eapply parse_statment_stmt_ok, Hp.
Qed.

Lemma step_range line (ctx : gmap string Z) :
  env_ok ctx ->
  env_ok (snd (Repl.step line ctx))
  /\ forall v, fst (Repl.step line ctx) = Done (Repl.Result v) -> in_int v.
Proof.
  intros Hc. unfold Repl.step.
  destruct (String.eqb line "exit"); [split; [exact Hc | discriminate]|].
  destruct (String.eqb line "clear");
    [split; [apply map_Forall_empty | discriminate]|].
  destruct (String.eqb line "vars"); [split; [exact Hc | discriminate]|].
  unfold bind. destruct (evaluate_range line ctx Hc) as [Hc1 Hv1].
  destruct (Repl.evaluate line ctx) as [[a|u|] ctx1]; simpl in *;
    [|split; [exact Hc1 | discriminate]..].
  split; [exact Hc1 | intros v [= <-]; apply Hv1; reflexivity].
Qed.

(** X15.  Throughout a session every value in the environment and every
    result printed is an [int]: the lexer wraps the literals, the
    operators wrap or fault, and nothing else stores a value. *)
Theorem session_values_are_ints (lines : list string) (ctx : gmap string Z) :
  env_ok ctx ->
  env_ok (snd (Repl.loop lines ctx))
  /\ forall replies v,
       fst (Repl.loop lines ctx) = Done replies ->
       In (Repl.Result v) replies -> in_int v.
Proof.
  revert ctx. induction lines as [|line rest IH]; intros ctx Hc.
  - split; [exact Hc|]. intros replies v [= <-] [].
  - cbn [Repl.loop]. unfold bind. destruct (step_range line ctx Hc) as [Hc1 Hv1].
    destruct (Repl.step line ctx) as [[reply|u|] ctx1]; simpl in *;
      [|split; [exact Hc1 | intros ? ? H; discriminate H]..].
    destruct (IH ctx1 Hc1) as [Hc2 Hv2].
    destruct reply; simpl;
      try (destruct (Repl.loop rest ctx1) as [[rs|u|] ctx2]; simpl in *;
           [|split; [exact Hc2 | intros ? ? H; discriminate H]..];
           split; [exact Hc2|]; intros replies v [= <-] [Hin | Hin];
           [first [discriminate Hin
                  | injection Hin as <-; apply Hv1; reflexivity]
           | eapply Hv2; [reflexivity | exact Hin]]).
    split; [exact Hc1|]. intros replies v [= <-] [Hin | []]. discriminate.
Qed.

(** A session of three lines from the empty environment. *)
Lemma session_values_are_ints_witness :
  env_ok (snd (Repl.loop ["x = 2147483647"; "x = x + 1"; "y * x"] ∅)).
Proof.
  apply (session_values_are_ints ["x = 2147483647"; "x = x + 1"; "y * x"] ∅).
  apply map_Forall_empty.
Defined.

(** X16.  A line with no token at all (empty, blank, or starting with a
    character the lexer does not know) is not skipped: it is parsed to the
    null tree and evaluated, which is a null dereference; the environment
    is as before. *)
Theorem blank_line_dereferences_null (line : string) (ctx : gmap string Z) :
  fst (Lexer.next_token (Lexer.new line)) = Token.eof ->
  Repl.step line ctx = (Undefined NullDereference, ctx).
Proof.
  intros Heof.
  assert (Hcur : Parser.cur (Parser.new line) = Token.eof
                 /\ Parser.next (Parser.new line) = Token.eof).
  { pose proof (eof_again _ (new_wf line) Heof) as H2. unfold Parser.new.
    destruct (Lexer.next_token (Lexer.new line)) as [c l1]. simpl in *.
    destruct (Lexer.next_token l1) as [n l2]. simpl in *. subst. split; reflexivity. }
  destruct Hcur as [Hcur Hnext].
  unfold Repl.step.
  destruct (String.eqb_spec line "exit") as [-> | _]; [discriminate Heof|].
  destruct (String.eqb_spec line "clear") as [-> | _]; [discriminate Heof|].
  destruct (String.eqb_spec line "vars") as [-> | _]; [discriminate Heof|].
  unfold bind, Repl.evaluate.
  rewrite parse_statment_expression by (rewrite Hnext; discriminate).
  destruct (budget_S (Parser.new line)) as [fuel ->]. unfold bind.
  rewrite parse_expression_S, parse_expression_no_prefix
    by (rewrite Hcur; reflexivity).
  reflexivity.
Qed.

(** The empty line, a line of spaces, and a line that starts with #. *)
Lemma blank_line_dereferences_null_witness :
  Repl.step "" ∅ = (Undefined NullDereference, ∅)
  /\ Repl.step "   " {["x" := 1]} = (Undefined NullDereference, {["x" := 1]})
  /\ Repl.step "# x = 1" ∅ = (Undefined NullDereference, ∅).
Proof.
  split; [|split]; apply blank_line_dereferences_null; reflexivity.
Defined.

Lemma step_clear (ctx : gmap string Z) :
  Repl.step "clear" ctx = (Done Repl.Nothing, ∅).
Proof. reflexivity. Qed.

Lemma step_exit (ctx : gmap string Z) :
  Repl.step "exit" ctx = (Done Repl.Goodbye, ctx).
Proof. reflexivity. Qed.

Lemma loop_app pre : forall rest (ctx ctx1 : gmap string Z) replies,
  Repl.loop pre ctx = (Done replies, ctx1) ->
  ~ In Repl.Goodbye replies ->
  Repl.loop (pre ++ rest) ctx
  = (let* more := Repl.loop rest in ret (replies ++ more)) ctx1.
Proof.
  induction pre as [|line pre IH]; intros rest ctx ctx1 replies Hpre Hno.
  - injection Hpre as <- <-. simpl. unfold bind.
    destruct (Repl.loop rest ctx) as [[rs|u|] c]; reflexivity.
  - simpl in *. unfold bind at 1 in Hpre. unfold bind at 1.
    destruct (Repl.step line ctx) as [[reply|u|] c1]; try discriminate.
    assert (Hgo : forall r,
      (let* replies0 := Repl.loop pre in ret (r :: replies0)) c1
      = (Done replies, ctx1) ->
      (let* replies0 := Repl.loop (pre ++ rest) in ret (r :: replies0)) c1
      = (let* more := Repl.loop rest in ret (replies ++ more)) ctx1).
    { intros r Hr. unfold bind in Hr. unfold bind at 1.
      destruct (Repl.loop pre c1) as [[rs|u|] c2] eqn:Hl; try discriminate.
      injection Hr as <- <-.
      rewrite (IH rest c1 c2 rs Hl) by (intros Hin; apply Hno; right; exact Hin).
      unfold bind. destruct (Repl.loop rest c2) as [[more|u|] c3]; reflexivity. }
    destruct reply; try (apply Hgo; exact Hpre).
    injection Hpre as <- <-. exfalso. apply Hno. left. reflexivity.
Qed.

(** X17.  A session composes: when the lines read so far were processed
    without fault and without exit, the lines that follow are processed
    from the environment reached and their replies come after; after the
    line clear they are processed as in a new session; and the lines after
    exit are never processed. *)
Theorem session_composes
    (pre rest : list string) (ctx ctx1 : gmap string Z)
    (replies : list Repl.Reply) :
  Repl.loop pre ctx = (Done replies, ctx1) ->
  ~ In Repl.Goodbye replies ->
  Repl.loop (pre ++ rest) ctx
  = (let* more := Repl.loop rest in ret (replies ++ more)) ctx1
  /\ Repl.loop (pre ++ "clear" :: rest) ctx
     = (let* more := Repl.loop rest in ret (replies ++ Repl.Nothing :: more)) ∅
  /\ Repl.loop (pre ++ "exit" :: rest) ctx
     = (Done (replies ++ [Repl.Goodbye]), ctx1).
Proof.
  intros Hpre Hno. split; [apply loop_app; assumption|]. split.
  - rewrite (loop_app pre _ ctx ctx1 replies Hpre Hno).
    cbn [Repl.loop]. unfold bind. rewrite step_clear.
    destruct (Repl.loop rest ∅) as [[more|u|] c]; reflexivity.
  - rewrite (loop_app pre _ ctx ctx1 replies Hpre Hno).
    cbn [Repl.loop]. unfold bind. rewrite step_exit. reflexivity.
Qed.

(** The lines x = 1 and x + 1, followed by clear and x, or by exit. *)
Lemma session_composes_witness :
  Repl.loop (["x = 1"; "x + 1"] ++ "clear" :: ["x"]) ∅
  = (let* more := Repl.loop ["x"] in
     ret ([Repl.Result 1; Repl.Result 2] ++ Repl.Nothing :: more)) ∅
  /\ Repl.loop (["x = 1"; "x + 1"] ++ "exit" :: ["x"; "1/0"]) ∅
     = (Done ([Repl.Result 1; Repl.Result 2] ++ [Repl.Goodbye]), {["x" := 1]}).
Proof.
  assert (H0 : Repl.loop ["x = 1"; "x + 1"] ∅
               = (Done [Repl.Result 1; Repl.Result 2], {["x" := 1]}))
    by (vm_compute; reflexivity).
  assert (Hno : ~ In Repl.Goodbye [Repl.Result 1; Repl.Result 2])
    by (intros [H | [H | []]]; discriminate H).
  split.
  - apply (session_composes ["x = 1"; "x + 1"] ["x"] ∅ {["x" := 1]}
             [Repl.Result 1; Repl.Result 2] H0 Hno).
  - apply (session_composes ["x = 1"; "x + 1"] ["x"; "1/0"] ∅ {["x" := 1]}
             [Repl.Result 1; Repl.Result 2] H0 Hno).
Defined.

(** * Trailing tokens *)

(** ** More fuel changes nothing *)

Lemma refines_refl {S A} (m : M S A) : refines m m.
Proof. intros s r s' H _. exact H. Qed.

Lemma refines_bind {S A B} (m m' : M S A) (k k' : A -> M S B) :
  refines m m' -> (forall a, refines (k a) (k' a)) ->
  refines (bind m k) (bind m' k').
Proof.
  intros Hm Hk s r s'. unfold bind.
  destruct (m s) as [[a|u|] s1] eqn:Hms; intros H Hr.
  - rewrite (Hm _ _ _ Hms) by discriminate. apply Hk; assumption.
  - rewrite (Hm _ _ _ Hms) by discriminate. exact H.
  - injection H as <- _. congruence.
Qed.

Section MoreFuel.

Variables rec rec' : Parser.Precedence -> M Parser.t Expression.
Hypothesis rec_more : forall prec, refines (rec prec) (rec' prec).

Lemma parse_prefix_expression_more :
  refines (Parser.parse_prefix_expression rec)
    (Parser.parse_prefix_expression rec').
Proof.
  unfold Parser.parse_prefix_expression.
  apply refines_bind; [apply refines_refl|]. intros p.
  apply refines_bind; [apply refines_refl|]. intros op.
  apply refines_bind; [apply refines_refl|]. intros _.
  destruct op; try apply refines_refl; [apply rec_more|].
  apply refines_bind; [apply rec_more|]. intros child. apply refines_refl.
Qed.

Lemma parse_grouped_expression_more :
  refines (Parser.parse_grouped_expression rec)
    (Parser.parse_grouped_expression rec').
Proof.
  unfold Parser.parse_grouped_expression.
  apply refines_bind; [apply refines_refl|]. intros _.
  apply refines_bind; [apply rec_more|]. intros expr. apply refines_refl.
Qed.

Lemma parse_infix_expression_more left :
  refines (Parser.parse_infix_expression rec left)
    (Parser.parse_infix_expression rec' left).
Proof.
  unfold Parser.parse_infix_expression.
  apply refines_bind; [apply refines_refl|]. intros p.
  apply refines_bind; [apply refines_refl|]. intros op.
  destruct op; try apply refines_refl;
    (apply refines_bind; [apply refines_refl|]; intros prec;
     apply refines_bind; [apply refines_refl|]; intros _;
     apply refines_bind; [apply rec_more|]; intros right; apply refines_refl).
Qed.

Lemma parse_infix_loop_more n : forall n' prec left,
  (n <= n')%nat ->
  refines (Parser.parse_infix_loop rec n prec left)
    (Parser.parse_infix_loop rec' n' prec left).
Proof.
  induction n as [|n IH]; intros n' prec left Hn.
  - intros s r s' H Hr. injection H as <- _. congruence.
  - destruct n' as [|n']; [lia|]. cbn [Parser.parse_infix_loop].
    apply refines_bind; [apply refines_refl|]. intros p.
    destruct (Token.not_eof (Parser.next p)
              && (prec <? Parser.precedence (Parser.next p)));
      [|apply refines_refl].
    apply refines_bind; [apply refines_refl|]. intros _.
    apply refines_bind; [apply refines_refl|]. intros p1.
    apply refines_bind; [apply refines_refl|]. intros op.
    destruct op; try apply refines_refl;
      (apply refines_bind; [apply parse_infix_expression_more|];
       intros left'; apply IH; lia).
Qed.

Lemma parse_expression_body_more n n' prec :
  (n <= n')%nat ->
  refines (Parser.parse_expression_body rec n prec)
    (Parser.parse_expression_body rec' n' prec).
Proof.
  intros Hn. unfold Parser.parse_expression_body. cbv beta zeta.
  assert (Hcont : forall prefix prefix' : M Parser.t Expression,
    refines prefix prefix' ->
    refines (let* left := prefix in Parser.parse_infix_loop rec n prec left)
      (let* left := prefix' in Parser.parse_infix_loop rec' n' prec left)).
  { intros prefix prefix' H. apply refines_bind; [exact H|].
    intros left. apply parse_infix_loop_more, Hn. }
  apply refines_bind; [apply refines_refl|]. intros p.
  destruct (Token.type (Parser.cur p)); try apply refines_refl.
  - apply refines_bind; [apply refines_refl|]. intros op.
    destruct op; try apply refines_refl; apply Hcont;
      first [apply parse_prefix_expression_more
            | apply parse_grouped_expression_more].
  - apply Hcont, refines_refl.
  - apply Hcont, refines_refl.
Qed.

End MoreFuel.

Lemma parse_expression_more fuel : forall fuel' prec,
  (fuel <= fuel')%nat ->
  refines (Parser.parse_expression fuel prec)
    (Parser.parse_expression fuel' prec).
Proof.
  induction fuel as [|fuel IH]; intros fuel' prec Hle.
  - intros s r s' H Hr. injection H as <- _. congruence.
  - destruct fuel' as [|fuel']; [lia|]. rewrite !parse_expression_S.
    apply parse_expression_body_more; [|lia].
    intros prec'. apply IH. lia.
Qed.

(** ** The tokens in front of the parser *)

Lemma stream_advance p i : stream (Parser.advance p) i = stream p (S i).
Proof. unfold stream. rewrite Nat.iter_succ_r. reflexivity. Qed.

Lemma stream_next p : stream p 1 = Parser.next p.
Proof. unfold stream. simpl. apply advance_cur. Qed.

Lemma iter_advance_add a b p :
  Nat.iter a Parser.advance (Nat.iter b Parser.advance p)
  = Nat.iter (a + b) Parser.advance p.
Proof. symmetry. apply Nat.iter_add. Qed.

Lemma ahead_advance m p q :
  ahead (S m) p q -> ahead m (Parser.advance p) (Parser.advance q).
Proof.
  intros (Hsame & Heof & Hlow). unfold ahead. rewrite !stream_advance.
  split; [|split; assumption].
  intros i Hi. rewrite !stream_advance. apply Hsame. lia.
Qed.

Lemma ahead_iter k : forall m p q,
  ahead (k + m) p q ->
  ahead m (Nat.iter k Parser.advance p) (Nat.iter k Parser.advance q).
Proof.
  induction k as [|k IH]; intros m p q H; [exact H|].
  cbn [Nat.iter nat_rect]. apply ahead_advance, IH.
  replace (k + S m)%nat with (S k + m)%nat by lia. exact H.
Qed.

(** Before the end of [p]'s input the current token is the same. *)
Lemma ahead_cur m p q :
  ahead m p q -> Parser.cur p <> Token.eof ->
  exists m', m = S m' /\ Parser.cur q = Parser.cur p.
Proof.
  intros (Hsame & Heof & _) Hcur. destruct m as [|m'].
  - contradiction.
  - exists m'. split; [reflexivity|]. apply (Hsame 0%nat). lia.
Qed.

Lemma ahead_next m p q :
  ahead (S m) p q -> Parser.next p <> Token.eof ->
  exists m', m = S m' /\ Parser.next q = Parser.next p.
Proof.
  intros (Hsame & Heof & _) Hnext. destruct m as [|m'].
  - rewrite stream_next in Heof. contradiction.
  - exists m'. split; [reflexivity|].
    rewrite <- !stream_next. apply Hsame. lia.
Qed.

(** Where the loop of [parse_expression] stops in [p], it stops in [q]:
    at the same token, or at the token that stands where [p] has its end of
    input. *)
Lemma ahead_stops m p q prec :
  0 <= prec -> ahead (S m) p q -> stops prec p -> stops prec q.
Proof.
  intros Hprec H Hstop. unfold stops in *.
  destruct (Token.not_eof (Parser.next p)) eqn:Hne.
  - destruct (ahead_next m p q H) as (m' & _ & ->);
      [intros Heq; rewrite Heq in Hne; discriminate
      | rewrite Hne; exact Hstop].
  - destruct H as (Hsame & Heof & Hlow). destruct m as [|m'].
    + rewrite stream_next in Hlow. rewrite Hlow.
      apply andb_false_intro2, Z.ltb_ge. exact Hprec.
    + rewrite <- (stream_next q), (Hsame 1%nat), stream_next, Hne by lia.
      reflexivity.
Qed.

Lemma not_eof_true tok : Token.not_eof tok = true -> tok <> Token.eof.
Proof. intros H ->. discriminate H. Qed.

(** ** Tokens that follow a complete statement are not looked at *)

(** A null pointer in the left operand stays in what the loop returns. *)
Lemma parse_infix_loop_null rec n : forall prec left p e p',
  0 <= prec ->
  Parser.parse_infix_loop rec n prec left p = (Done e, p') ->
  has_null e = false -> has_null left = false.
Proof.
  induction n as [|n IH]; intros prec left p e p' Hprec H He;
    [discriminate H|].
  destruct (Token.not_eof (Parser.next p)
            && (prec <? Parser.precedence (Parser.next p))) eqn:Hcond.
  - apply andb_prop in Hcond as [_ Hlt]. apply Z.ltb_lt in Hlt.
    destruct (precedence_pos_binary (Parser.next p)) as [b Hb]; [lia|].
    rewrite (parse_infix_loop_step _ _ _ _ _ _ Hb Hlt) in H.
    unfold bind in H.
    destruct (rec _ _) as [[right|u|] p1]; try discriminate H.
    apply (IH _ _ _ _ _ Hprec) in H; [|exact He].
    apply orb_false_elim in H as [H _]. exact H.
  - rewrite parse_infix_loop_stop in H by exact Hcond.
    injection H as <- _. exact He.
Qed.

Lemma parse_expression_body_prefix rec n prec p :
  Parser.cur p = Token.oper Token.Plus \/ Parser.cur p = Token.oper Token.Minus ->
  Parser.parse_expression_body rec n prec p
  = (let* left := Parser.parse_prefix_expression rec in
     Parser.parse_infix_loop rec n prec left) p.
Proof.
  intros Hcur. unfold Parser.parse_expression_body, bind at 1, get_state.
  destruct Hcur as [-> | ->]; reflexivity.
Qed.

Section Ahead.

Variable rec : Parser.Precedence -> M Parser.t Expression.

Hypothesis rec_ahead : forall prec m p q e p',
  0 <= prec -> ahead m p q ->
  rec prec p = (Done e, p') -> has_null e = false ->
  tracks m p q (rec prec) e p'.

Lemma parse_prefix_expression_ahead m p q e p' :
  ahead (S m) p q -> Parser.cur q = Parser.cur p ->
  Parser.parse_prefix_expression rec p = (Done e, p') ->
  has_null e = false ->
  tracks (S m) p q (Parser.parse_prefix_expression rec) e p'.
Proof.
  intros Hah Hcur H He. apply ahead_advance in Hah.
  unfold tracks, Parser.parse_prefix_expression, bind, get_state,
    Parser.read_token, modify in *.
  rewrite Hcur. destruct (Parser.cur p) as [|op| | |]; try discriminate H.
  cbn [Token.op active ret] in *.
  destruct op; try (injection H as <- _; discriminate He).
  - destruct (rec_ahead Parser.PREFIX _ _ _ _ _ ltac:(discriminate) Hah H He)
      as (k & Hk & -> & Hq).
    exists (S k). rewrite !Nat.iter_succ_r.
    split; [lia | split; [reflexivity | exact Hq]].
  - destruct (rec Parser.PREFIX (Parser.advance p)) as [[child|u|] p1] eqn:Hrec;
      try discriminate H.
    injection H as <- <-. cbn [has_null] in He.
    destruct (rec_ahead Parser.PREFIX _ _ _ _ _ ltac:(discriminate) Hah Hrec He)
      as (k & Hk & -> & Hq).
    exists (S k). rewrite !Nat.iter_succ_r, Hq.
    split; [lia | split; reflexivity].
Qed.

Lemma parse_grouped_expression_ahead m p q e p' :
  ahead (S m) p q ->
  Parser.parse_grouped_expression rec p = (Done e, p') ->
  has_null e = false ->
  tracks (S m) p q (Parser.parse_grouped_expression rec) e p'.
Proof.
  intros Hah H He. apply ahead_advance in Hah.
  unfold tracks, Parser.parse_grouped_expression, bind, get_state,
    Parser.read_token, modify in *.
  destruct (rec Parser.LOWEST (Parser.advance p)) as [[expr|u|] p1] eqn:Hrec;
    try discriminate H.
  destruct (Parser.next p1) as [|op| | |] eqn:Hnext;
    cbn [Token.type Token.op active ret] in H;
    try (injection H as <- _; discriminate He).
  destruct op; try (injection H as <- _; discriminate He).
  injection H as <- <-.
  destruct (rec_ahead Parser.LOWEST _ _ _ _ _ ltac:(discriminate) Hah Hrec He)
    as (k & Hk & Hp1 & Hq).
  rewrite <- Nat.iter_succ_r in Hp1, Hq.
  assert (Hah1 : ahead (S (m - S k)) p1 (Nat.iter (S k) Parser.advance q)).
  { rewrite Hp1, !Nat.iter_succ_r. apply ahead_iter.
    replace (k + S (m - S k))%nat with m by lia. exact Hah. }
  destruct (ahead_next _ _ _ Hah1) as (m' & Hm' & Hnq);
    [rewrite Hnext; discriminate|].
  exists (S (S k)). rewrite Hq, Hnq, Hnext, Hp1.
  split; [lia | split; reflexivity].
Qed.

Lemma tracks_ext m p q (c c' : M Parser.t Expression) e p' :
  c q = c' q -> tracks m p q c' e p' -> tracks m p q c e p'.
Proof. intros Heq (k & Hk & Hp & Hq). exists k. rewrite Heq. auto. Qed.

Lemma parse_infix_loop_ahead n : forall prec left m p q e p',
  0 <= prec -> ahead (S m) p q ->
  Parser.parse_infix_loop rec n prec left p = (Done e, p') ->
  has_null e = false ->
  tracks (S m) p q (Parser.parse_infix_loop rec n prec left) e p'.
Proof.
  induction n as [|n IH]; intros prec left m p q e p' Hprec Hah H He;
    [discriminate H|].
  destruct (Token.not_eof (Parser.next p)
            && (prec <? Parser.precedence (Parser.next p))) eqn:Hcond.
  - pose proof Hcond as Hc. apply andb_prop in Hc as [Hne Hlt].
    apply Z.ltb_lt in Hlt.
    destruct (precedence_pos_binary (Parser.next p)) as [b Hb]; [lia|].
    destruct (ahead_next _ _ _ Hah) as (m' & -> & Hnq);
      [apply not_eof_true, Hne|].
    rewrite (parse_infix_loop_step _ _ _ _ _ _ Hb Hlt) in H.
    assert (Hqs := parse_infix_loop_step rec n prec left q b).
    rewrite Hnq in Hqs. specialize (Hqs Hb Hlt).
    unfold tracks. rewrite Hqs. unfold bind in *.
    destruct (rec (Parser.precedence (Parser.next p))
                (Parser.advance (Parser.advance p)))
      as [[right|u|] p1] eqn:Hrec; try discriminate H.
    pose proof (parse_infix_loop_null _ _ _ _ _ _ _ Hprec H He) as Hl.
    cbn [has_null] in Hl. apply orb_false_elim in Hl as [_ Hright].
    assert (Hah2 : ahead m' (Parser.advance (Parser.advance p))
                     (Parser.advance (Parser.advance q)))
      by (apply ahead_advance, ahead_advance, Hah).
    destruct (rec_ahead _ _ _ _ _ _ (precedence_nonneg _) Hah2 Hrec Hright)
      as (k & Hk & Hp1 & Hq).
    rewrite Hq.
    assert (Hah3 : ahead (S (m' - S k)) p1
                     (Nat.iter k Parser.advance
                        (Parser.advance (Parser.advance q)))).
    { rewrite Hp1. apply ahead_iter.
      replace (k + S (m' - S k))%nat with m' by lia. exact Hah2. }
    destruct (IH _ _ _ _ _ _ _ Hprec Hah3 H He) as (k1 & Hk1 & Hp' & Hq').
    exists (k1 + k + 2)%nat. rewrite Hq', Hp', Hp1.
    change (Parser.advance (Parser.advance p))
      with (Nat.iter 2 Parser.advance p).
    change (Parser.advance (Parser.advance q))
      with (Nat.iter 2 Parser.advance q).
    rewrite !iter_advance_add. split; [lia | split; reflexivity].
  - rewrite parse_infix_loop_stop in H by exact Hcond. injection H as <- <-.
    exists 0%nat. split; [lia|]. split; [reflexivity|].
    apply parse_infix_loop_stop. exact (ahead_stops m p q prec Hprec Hah Hcond).
Qed.

(** A prefix term, then the loop. *)
Lemma continue_ahead (prefix : M Parser.t Expression) n prec m p q e p' :
  0 <= prec -> ahead (S m) p q ->
  (forall l p1, prefix p = (Done l, p1) -> has_null l = false ->
                tracks (S m) p q prefix l p1) ->
  (let* left := prefix in Parser.parse_infix_loop rec n prec left) p
  = (Done e, p') ->
  has_null e = false ->
  tracks (S m) p q
    (let* left := prefix in Parser.parse_infix_loop rec n prec left) e p'.
Proof.
  intros Hprec Hah Hprefix H He. unfold tracks, bind in *.
  destruct (prefix p) as [[l|u|] p1] eqn:Hpre; try discriminate H.
  pose proof (parse_infix_loop_null _ _ _ _ _ _ _ Hprec H He) as Hl.
  destruct (Hprefix _ _ eq_refl Hl) as (k & Hk & Hp1 & Hq).
  assert (Hah1 : ahead (S (m - k)) p1 (Nat.iter k Parser.advance q)).
  { rewrite Hp1. apply ahead_iter.
    replace (k + S (m - k))%nat with (S m) by lia. exact Hah. }
  destruct (parse_infix_loop_ahead _ _ _ _ _ _ _ _ Hprec Hah1 H He)
    as (k1 & Hk1 & Hp' & Hq').
  exists (k1 + k)%nat. rewrite Hq, Hq', Hp', Hp1, !iter_advance_add.
  split; [lia | split; reflexivity].
Qed.

Lemma parse_expression_body_ahead n prec m p q e p' :
  0 <= prec -> ahead m p q ->
  Parser.parse_expression_body rec n prec p = (Done e, p') ->
  has_null e = false ->
  tracks m p q (Parser.parse_expression_body rec n prec) e p'.
Proof.
  intros Hprec Hah H He.
  destruct (starts_prefix (Parser.cur p)) eqn:Hsp.
  2: { rewrite parse_expression_no_prefix in H by exact Hsp.
       injection H as <- _. discriminate He. }
  destruct (ahead_cur m p q Hah) as (m' & -> & Hcq);
    [intros Heq; rewrite Heq in Hsp; discriminate|].
  destruct (Parser.cur p) as [|op|num|ident|] eqn:Hcur; try discriminate Hsp.
  - destruct op; try discriminate Hsp.
    + rewrite parse_expression_body_prefix in H by (left; exact Hcur).
      eapply tracks_ext;
        [apply parse_expression_body_prefix; left; exact Hcq|].
      apply continue_ahead; try assumption. intros l p1.
      apply parse_prefix_expression_ahead; [exact Hah | congruence].
    + rewrite parse_expression_body_prefix in H by (right; exact Hcur).
      eapply tracks_ext;
        [apply parse_expression_body_prefix; right; exact Hcq|].
      apply continue_ahead; try assumption. intros l p1.
      apply parse_prefix_expression_ahead; [exact Hah | congruence].
    + rewrite parse_expression_body_group in H by exact Hcur.
      eapply tracks_ext; [apply parse_expression_body_group; exact Hcq|].
      apply continue_ahead; try assumption. intros l p1.
      apply parse_grouped_expression_ahead; exact Hah.
  - rewrite (parse_expression_leaf _ _ _ _ (AstNode.integer num)) in H
      by (rewrite Hcur; reflexivity).
    eapply tracks_ext;
      [apply (parse_expression_leaf _ _ _ _ (AstNode.integer num));
       rewrite Hcq; reflexivity|].
    apply parse_infix_loop_ahead; assumption.
  - rewrite (parse_expression_leaf _ _ _ _ (AstNode.identifier ident)) in H
      by (rewrite Hcur; reflexivity).
    eapply tracks_ext;
      [apply (parse_expression_leaf _ _ _ _ (AstNode.identifier ident));
       rewrite Hcq; reflexivity|].
    apply parse_infix_loop_ahead; assumption.
Qed.

End Ahead.

Lemma parse_expression_ahead fuel : forall prec m p q e p',
  0 <= prec -> ahead m p q ->
  Parser.parse_expression fuel prec p = (Done e, p') ->
  has_null e = false ->
  tracks m p q (Parser.parse_expression fuel prec) e p'.
Proof.
  induction fuel as [|fuel IH]; intros prec m p q e p' Hprec Hah H He;
    [discriminate H|].
  change (Parser.parse_expression (S fuel) prec)
    with (Parser.parse_expression_body (Parser.parse_expression fuel)
            (S fuel) prec) in *.
  apply parse_expression_body_ahead; assumption.
Qed.

(** The same with the fuel of each parser: more fuel changes nothing, and
    [q] has enough. *)
Lemma parse_expression_ahead_fuel fp fq prec m p q e p' :
  0 <= prec -> ahead m p q ->
  lexer_wf (Parser.lexer q) -> (weight q < fq)%nat ->
  Parser.parse_expression fp prec p = (Done e, p') ->
  has_null e = false ->
  tracks m p q (Parser.parse_expression fq prec) e p'.
Proof.
  intros Hprec Hah Hwf Hw H He.
  assert (HF : Parser.parse_expression (fp + fq) prec p = (Done e, p')).
  { apply (parse_expression_more fp (fp + fq) prec ltac:(lia) _ _ _ H).
    discriminate. }
  destruct (parse_expression_ahead _ _ _ _ _ _ _ Hprec Hah HF He)
    as (k & Hk & Hp' & Hq).
  exists k. split; [exact Hk|]. split; [exact Hp'|].
  pose proof (parse_expression_runs fq prec q Hwf Hw) as Hruns.
  unfold runs in Hruns.
  destruct (Parser.parse_expression fq prec q) as [r q'] eqn:Hr.
  assert (Hne : r <> OutOfFuel) by (destruct r; [discriminate.. | contradiction]).
  rewrite <- Hq. symmetry.
  exact (parse_expression_more fq (fp + fq) prec ltac:(lia) _ _ _ Hr Hne).
Qed.

(** A number or an identifier followed by a token that does not continue
    the expression: the statement is that leaf, and the parser state is
    left as it was. *)
Lemma parse_statment_leaf (p : Parser.t) (e : Expression) :
  leaf (Parser.cur p) = Some e ->
  Token.type (Parser.next p) <> Token.Assign ->
  Parser.precedence (Parser.next p) = Parser.LOWEST ->
  Parser.parse_statment p = (Done (Statement.expression e), p).
Proof.
  intros Hleaf Hne Hprec. rewrite parse_statment_expression by exact Hne.
  destruct (budget_S p) as [fuel ->]. unfold bind.
  rewrite (parse_expression_leaf_stop _ _ p e Hleaf); [reflexivity|].
  rewrite Hprec. apply andb_false_r.
Qed.

(** C7 (amended).  [parse_statment] never looks at what follows the
    statement it has built, and reports nothing.  Let a parser [p] return a
    statement with no null pointer in its tree, from tokens that end after
    [n] of them; let a parser [q] have the same [n] tokens in front of it,
    followed, where [p] has its end of input, by a token that is neither
    [=] nor a binary operator (a number, an identifier, a parenthesis), and
    then by anything.  Then [parse_statment] returns from [q] the same
    statement, after the same number of calls of [read_token], fewer than
    [n]: the token that follows the statement is never made current, and
    what comes after it is never read.  So it is, whatever the statement:
    the lines 1+2 3, -1 2 and x = 1 2 give the statements of 1+2, -1 and
    x = 1. *)
Theorem trailing_tokens_ignored
    (p q : Parser.t) (n : nat) (stmt : Statement.t) (p' : Parser.t) :
  lexer_wf (Parser.lexer q) ->
  ahead n p q ->
  Token.type (stream q n) <> Token.Assign ->
  Parser.parse_statment p = (Done stmt, p') ->
  complete stmt ->
  (exists k, (k < n)%nat
             /\ p' = Nat.iter k Parser.advance p
             /\ Parser.parse_statment q
                = (Done stmt, Nat.iter k Parser.advance q))
  /\ fst (Parser.parse_statment (Parser.new "1+2 3"))
     = Done (Statement.expression
               (AstNode.expression AstNode.Add (AstNode.integer 1)
                  (AstNode.integer 2)))
  /\ fst (Parser.parse_statment (Parser.new "-1 2"))
     = Done (Statement.expression (AstNode.negative (AstNode.integer 1)))
  /\ fst (Parser.parse_statment (Parser.new "x = 1 2"))
     = Done (Statement.assignment "x" (AstNode.integer 1)).
Proof.
  intros Hwf Hah Hna H Hc. split; [|repeat split].
  assert (Hcases : Token.type (Parser.next p) = Token.Assign
                   \/ Token.type (Parser.next p) <> Token.Assign)
    by (destruct (Token.type (Parser.next p));
        first [left; reflexivity | right; discriminate]).
  destruct Hcases as [Hty | Hty].
  - (* the assignment branch *)
    unfold Parser.parse_statment, bind, get_state in H. rewrite Hty in H.
    destruct (Parser.cur p) as [| | |name|] eqn:Hcur; try discriminate H.
    cbn [Token.ident active ret] in H.
    unfold Parser.read_token, modify in H.
    destruct (Parser.parse_expression (Parser.budget p) Parser.LOWEST
                (Parser.advance (Parser.advance p)))
      as [[e|u|] p1] eqn:He; try discriminate H.
    injection H as <- <-. cbn [complete] in Hc.
    destruct (ahead_cur _ _ _ Hah) as (n1 & -> & Hcq);
      [rewrite Hcur; discriminate|].
    destruct (ahead_next _ _ _ Hah) as (n2 & -> & Hnq);
      [intros Heq; rewrite Heq in Hty; discriminate|].
    assert (Hah2 : ahead n2 (Parser.advance (Parser.advance p))
                     (Parser.advance (Parser.advance q)))
      by (apply ahead_advance, ahead_advance, Hah).
    destruct (advance_weight q Hwf) as [Hwf1 Hw1].
    destruct (advance_weight _ Hwf1) as [Hwf2 Hw2].
    pose proof (weight_budget q Hwf) as Hb.
    destruct (parse_expression_ahead_fuel _ (Parser.budget q) Parser.LOWEST _ _ _ _ _
                ltac:(discriminate) Hah2 Hwf2 ltac:(lia) He Hc)
      as (k & Hk & Hp1 & Hq).
    exists (k + 2)%nat.
    unfold Parser.parse_statment, bind, get_state.
    rewrite Hnq, Hty, Hcq, Hcur. cbn [Token.ident active ret].
    unfold Parser.read_token, modify. rewrite Hq, Hp1.
    change (Parser.advance (Parser.advance p))
      with (Nat.iter 2 Parser.advance p).
    change (Parser.advance (Parser.advance q))
      with (Nat.iter 2 Parser.advance q).
    rewrite !iter_advance_add. split; [lia | split; reflexivity].
  - (* the expression branch *)
    rewrite parse_statment_expression in H by exact Hty. unfold bind in H.
    destruct (Parser.parse_expression (Parser.budget p) Parser.LOWEST p)
      as [[e|u|] p1] eqn:He; try discriminate H.
    injection H as <- <-. cbn [complete] in Hc.
    destruct (parse_expression_ahead_fuel _ (Parser.budget q) Parser.LOWEST _ _ _ _ _
                ltac:(discriminate) Hah Hwf (weight_budget q Hwf) He Hc)
      as (k & Hk & Hp1 & Hq).
    assert (Hnq : Token.type (Parser.next q) <> Token.Assign).
    { destruct Hah as (Hsame & _ & _). rewrite <- stream_next.
      destruct n as [|[|n]]; [lia | exact Hna |].
      rewrite (Hsame 1%nat), stream_next by lia. exact Hty. }
    exists k. rewrite parse_statment_expression by exact Hnq.
    unfold bind. rewrite Hq. split; [exact Hk | split; [exact Hp1 | reflexivity]].
Qed.

(** The line x = 1 + 2 and the line x = 1 + 2 3 ) +: five tokens in
    common.  The statement is that of the first line, three calls of
    [read_token] after the start: the token 3 is the next token of the
    parser and never becomes the current one. *)
Lemma trailing_tokens_ignored_witness :
  exists k, (k < 5)%nat
    /\ Parser.parse_statment (Parser.new "x = 1 + 2 3 ) +")
       = (Done (Statement.assignment "x"
                  (AstNode.expression AstNode.Add (AstNode.integer 1)
                     (AstNode.integer 2))),
          Nat.iter k Parser.advance (Parser.new "x = 1 + 2 3 ) +")).
Proof.
  destruct (trailing_tokens_ignored (Parser.new "x = 1 + 2")
              (Parser.new "x = 1 + 2 3 ) +") 5
              (Statement.assignment "x"
                 (AstNode.expression AstNode.Add (AstNode.integer 1)
                    (AstNode.integer 2)))
              (snd (Parser.parse_statment (Parser.new "x = 1 + 2"))))
    as [(k & Hk & _ & Hq) _].
  - apply new_parser_wf.
  - split; [|split; vm_compute; reflexivity].
    intros i Hi.
    do 5 (destruct i as [|i]; [vm_compute; reflexivity|]). lia.
  - intros Heq. vm_compute in Heq. discriminate Heq.
  - vm_compute. reflexivity.
  - reflexivity.
  - exists k. split; [exact Hk | exact Hq].
Defined.
